(** * MapAlya: the adaptive EDI extractor ([extract_edi_adaptive.py])

    A shallow embedding of [AdaptiveEDIExtractor] and [process_pdf], and the
    properties of the extractor stated over it.

    Conventions of the embedding.
    - A Python [str] is a [list ascii]; a character is a code point below 256.
      The character predicates the code relies on ([str.isspace], the classes
      [\s], [\d], [\w] and [.] of module [re]) are given on that range.
    - A regular expression of module [re] is a term of type [re]; matching is
      a backtracking matcher which tries the alternatives in the order
      Python's matcher tries them (greedy repetitions longest first, lazy
      ones shortest first, leftmost start position first).
    - What [pdfplumber] returns is the input: a document is a list of pages,
      a page is its text (or [None]) and its tables, a table is a list of
      rows, a row is a list of cells, a cell is a string or [None].  The
      code tests a table and a row with [not], which holds of [None] and of
      the empty list alike: both are the empty list here.
    - A Python statement that can raise ([d[k]], [l[i]], [l[-1]]) is
      modelled in the [option] monad: [None] is the exception.
    - The dicts built for groups and elements are objects in a heap and the
      lists hold their addresses, so that the alias [current_group] of a
      group held in a segment's list is the same object. *)

From Stdlib Require Import String Ascii List Bool Arith Lia Permutation Sorted.
Import ListNotations.
Open Scope string_scope.
Open Scope nat_scope.
Open Scope list_scope.

Set Implicit Arguments.

(** ** Strings *)

Definition str := list ascii.

Definition L (s : string) : str := list_ascii_of_string s.
Coercion L : string >-> str.

Definition code (c : ascii) : nat := nat_of_ascii c.

Definition in_range (lo hi : nat) (c : ascii) : bool :=
  (lo <=? code c) && (code c <=? hi).

(** [str.isspace] on one character, which is also the class [\s]. *)
Definition isspace (c : ascii) : bool :=
  existsb (Nat.eqb (code c)) [9; 10; 11; 12; 13; 28; 29; 30; 31; 32; 133; 160].

(** The class [\d]. *)
Definition isdigit (c : ascii) : bool := in_range 48 57 c.

(** The class [\w]: the alphanumeric characters and the underscore. *)
Definition isword (c : ascii) : bool :=
  in_range 48 57 c || in_range 65 90 c || in_range 97 122 c
  || Nat.eqb (code c) 95
  || existsb (Nat.eqb (code c)) [170; 178; 179; 181; 185; 186; 188; 189; 190]
  || in_range 192 214 c || in_range 216 246 c || in_range 248 255 c.

Definition newline : ascii := ascii_of_nat 10.

Definition str_eqb (a b : str) : bool :=
  if list_eq_dec ascii_dec a b then true else false.

(** [s.lstrip()], [s.rstrip()] and [s.strip()]. *)
Fixpoint lstrip (s : str) : str :=
  match s with
  | c :: t => if isspace c then lstrip t else s
  | [] => []
  end.

Fixpoint rstrip (s : str) : str :=
  match s with
  | c :: t =>
      match rstrip t with
      | [] => if isspace c then [] else [c]
      | r => c :: r
      end
  | [] => []
  end.

Definition strip (s : str) : str := rstrip (lstrip s).

(** [sep.join(parts)]. *)
Fixpoint join (sep : str) (parts : list str) : str :=
  match parts with
  | [] => []
  | [p] => p
  | p :: ps => p ++ sep ++ join sep ps
  end.

(** [s.split()]: the maximal runs of characters that are not whitespace. *)
Fixpoint split_ws_aux (cur : str) (s : str) : list str :=
  match s with
  | [] => match cur with [] => [] | _ => [rev cur] end
  | c :: t =>
      if isspace c
      then match cur with
           | [] => split_ws_aux [] t
           | _ => rev cur :: split_ws_aux [] t
           end
      else split_ws_aux (c :: cur) t
  end.

Definition split_ws (s : str) : list str := split_ws_aux [] s.

Fixpoint is_prefix (p s : str) : bool :=
  match p, s with
  | [], _ => true
  | a :: p', b :: s' => if ascii_dec a b then is_prefix p' s' else false
  | _ :: _, [] => false
  end.

(** [p in s] for strings. *)
Fixpoint contains (p s : str) : bool :=
  is_prefix p s || match s with [] => false | _ :: t => contains p t end.

(** [s.startswith(p)]. *)
Definition startswith (s p : str) : bool := is_prefix p s.

(** [s.replace(a, b)] for a one-character [a]. *)
Definition replace_char (a : ascii) (b : str) (s : str) : str :=
  flat_map (fun c => if ascii_dec c a then b else [c]) s.

(** ** Regular expressions of module [re] *)

Inductive cset : Type :=
| CChar (c : ascii)            (* a literal character *)
| CRange (lo hi : ascii)       (* [lo-hi] *)
| CDigit                       (* \d *)
| CSpace                       (* \s *)
| CWord                        (* \w *)
| CDot                         (* . : any character but a newline *)
| CUnion (a b : cset).         (* [ab] *)

Fixpoint cset_mem (cs : cset) (c : ascii) : bool :=
  match cs with
  | CChar d => if ascii_dec c d then true else false
  | CRange lo hi => in_range (code lo) (code hi) c
  | CDigit => isdigit c
  | CSpace => isspace c
  | CWord => isword c
  | CDot => negb (if ascii_dec c newline then true else false)
  | CUnion a b => cset_mem a c || cset_mem b c
  end.

Inductive re : Type :=
| Eps
| Chr (cs : cset)
| Cat (a b : re)
| Alt (a b : re)
| Rep (greedy : bool) (lo : nat) (hi : option nat) (a : re)
| Grp (n : nat) (a : re)       (* the n-th capturing group *)
| Bol                          (* ^ *)
| Eol                          (* $ : at the end, or before a final newline *)
| WordB                        (* \b *)
| Ahead (a : re).              (* (?=...) *)

(** The state of the matcher: the text already behind the cursor (last
    character first), the text ahead, and the groups captured so far. *)
Record mstate : Type := MState {
  pre : str;
  rest : str;
  caps : list (nat * str)
}.

Definition advance (c : ascii) (t : str) (st : mstate) : mstate :=
  MState (c :: pre st) t (caps st).

Definition consumed (st st' : mstate) : str :=
  rev (firstn (length (pre st') - length (pre st)) (pre st')).

Definition set_cap (n : nat) (s : str) (st : mstate) : mstate :=
  MState (pre st) (rest st) ((n, s) :: caps st).

Definition is_word_opt (o : option ascii) : bool :=
  match o with Some c => isword c | None => false end.

Definition below (cnt : nat) (hi : option nat) : bool :=
  match hi with Some h => cnt <? h | None => true end.

(** The repetition of a matcher [ma] at least [lo] and at most [hi] times,
    [cnt] rounds being done.  A further round has to move the cursor once
    [lo] rounds are done; [fuel] bounds the rounds left. *)
Fixpoint rep_loop (ma : mstate -> (mstate -> option mstate) -> option mstate)
  (g : bool) (lo : nat) (hi : option nat) (k : mstate -> option mstate)
  (fuel cnt : nat) (st : mstate) {struct fuel} : option mstate :=
  let more (_ : unit) :=
    match fuel with
    | 0 => None
    | S f =>
        if below cnt hi
        then ma st (fun st' =>
               if (length (rest st') <? length (rest st)) || (cnt <? lo)
               then rep_loop ma g lo hi k f (S cnt) st' else None)
        else None
    end in
  let stop (_ : unit) := if lo <=? cnt then k st else None in
  if g
  then match more tt with Some x => Some x | None => stop tt end
  else match stop tt with Some x => Some x | None => more tt end.

(** [m r st k]: match [r] at [st] and hand every way of doing so, in
    Python's order of preference, to the continuation [k] until it accepts. *)
Fixpoint m (r : re) (st : mstate) (k : mstate -> option mstate) {struct r}
  : option mstate :=
  match r with
  | Eps => k st
  | Chr cs =>
      match rest st with
      | c :: t => if cset_mem cs c then k (advance c t st) else None
      | [] => None
      end
  | Cat a b => m a st (fun st' => m b st' k)
  | Alt a b =>
      match m a st k with
      | Some x => Some x
      | None => m b st k
      end
  | Rep g lo hi a => rep_loop (m a) g lo hi k (lo + length (rest st)) 0 st
  | Grp n a => m a st (fun st' => k (set_cap n (consumed st st') st'))
  | Bol => match pre st with [] => k st | _ :: _ => None end
  | Eol =>
      match rest st with
      | [] => k st
      | [c] => if ascii_dec c newline then k st else None
      | _ => None
      end
  | WordB =>
      if xorb (is_word_opt (hd_error (pre st))) (is_word_opt (hd_error (rest st)))
      then k st else None
  | Ahead a =>
      match m a st Some with
      | Some st' => k (MState (pre st) (rest st) (caps st'))
      | None => None
      end
  end.

(** A match object: where the match starts and the matcher's final state. *)
Record rmatch : Type := RMatch {
  m_from : mstate;
  m_to : mstate
}.

Definition m_text (x : rmatch) : str := consumed (m_from x) (m_to x).

(** [match.group(n)] for [n >= 1]; [None] when the group took no part.
    The source uses what [group] returns as a string at once, so a [None]
    there is taken as a failure of the caller. *)
Fixpoint lookup_cap (n : nat) (l : list (nat * str)) : option str :=
  match l with
  | [] => None
  | (i, s) :: t => if Nat.eqb i n then Some s else lookup_cap n t
  end.

Definition group (n : nat) (x : rmatch) : option str :=
  lookup_cap n (caps (m_to x)).

Definition match_at (r : re) (p s : str) : option rmatch :=
  let st := MState p s [] in
  match m r st Some with
  | Some st' => Some (RMatch st st')
  | None => None
  end.

(** [re.match(r, s)]. *)
Definition re_match (r : re) (s : str) : option rmatch := match_at r [] s.

(** The leftmost match at or after the cursor. *)
Fixpoint search_from (r : re) (p s : str) : option rmatch :=
  match match_at r p s with
  | Some x => Some x
  | None =>
      match s with
      | [] => None
      | c :: t => search_from r (c :: p) t
      end
  end.

(** [re.search(r, s)]. *)
Definition re_search (r : re) (s : str) : option rmatch := search_from r [] s.

Definition is_some {A} (o : option A) : bool :=
  match o with Some _ => true | None => false end.

(** The text between the cursor [p] and the start of the match [x]. *)
Definition skipped (p : str) (x : rmatch) : str :=
  rev (firstn (length (pre (m_from x)) - length p) (pre (m_from x))).

(** [re.sub(r, '', s)]: the text with every match of [r] deleted, matches
    taken leftmost first and not overlapping.  After an empty match the
    next character is copied and the scan goes on behind it. *)
Fixpoint sub_loop (fuel : nat) (r : re) (p s : str) : str :=
  match fuel with
  | 0 => s
  | S f =>
      match search_from r p s with
      | None => s
      | Some x =>
          skipped p x ++
          match m_text x, rest (m_to x) with
          | [], [] => []
          | [], c :: t => c :: sub_loop f r (c :: pre (m_to x)) t
          | _ :: _, s' => sub_loop f r (pre (m_to x)) s'
          end
      end
  end.

Definition re_sub_delete (r : re) (s : str) : str :=
  sub_loop (S (length s)) r [] s.

(** [re.finditer(r, s)]. *)
Fixpoint finditer_loop (fuel : nat) (r : re) (p s : str) : list rmatch :=
  match fuel with
  | 0 => []
  | S f =>
      match search_from r p s with
      | None => []
      | Some x =>
          x :: match m_text x, rest (m_to x) with
               | [], [] => []
               | [], c :: t => finditer_loop f r (c :: pre (m_to x)) t
               | _ :: _, s' => finditer_loop f r (pre (m_to x)) s'
               end
      end
  end.

Definition re_finditer (r : re) (s : str) : list rmatch :=
  finditer_loop (S (length s)) r [] s.

(** Shorthands to write the patterns of the source. *)
Fixpoint lit (s : str) : re :=
  match s with
  | [] => Eps
  | [c] => Chr (CChar c)
  | c :: t => Cat (Chr (CChar c)) (lit t)
  end.

Fixpoint cat (l : list re) : re :=
  match l with
  | [] => Eps
  | [r] => r
  | r :: t => Cat r (cat t)
  end.

Definition star (cs : cset) : re := Rep true 0 None (Chr cs).
Definition plus (cs : cset) : re := Rep true 1 None (Chr cs).
Definition opt (r : re) : re := Rep true 0 (Some 1) r.
Definition times (n : nat) (cs : cset) : re := Rep true n (Some n) (Chr cs).

Definition upper : cset := CRange "A" "Z".
Definition lower : cset := CRange "a" "z".
Definition one_of (s : str) : cset :=
  match s with
  | [] => CChar "000"
  | c :: t => fold_left (fun acc d => CUnion acc (CChar d)) t (CChar c)
  end.

(** ** The patterns of the source *)

Definition dquote : ascii := ascii_of_nat 34.
Definition ws : cset := CSpace.
Definition alnum_upper : cset := CUnion upper (CRange "0" "9").
Definition quote : cset := CUnion (CChar "'") (CChar dquote).

(** [Segment:\s+[A-Z]{3}\s+Cons\.\s*No\.:] *)
Definition P_vda_marker : re :=
  cat [lit "Segment:"; plus ws; times 3 upper; plus ws; lit "Cons."; star ws;
       lit "No.:"].

(** [Segment:.*Pos\.:\s*\d+.*Level:] *)
Definition P_faurecia_line : re :=
  cat [lit "Segment:"; star CDot; lit "Pos.:"; star ws; plus CDigit; star CDot;
       lit "Level:"].

(** [Segment:\s+Pos\.:\s*\d+\s+Level:] *)
Definition P_faurecia_split : re :=
  cat [lit "Segment:"; plus ws; lit "Pos.:"; star ws; plus CDigit; plus ws;
       lit "Level:"].

(** [\b(UNH|BGM|DTM|NAD|LIN|MOA)\b] *)
Definition P_known_segment : re :=
  cat [WordB;
       Grp 1 (Alt (lit "UNH") (Alt (lit "BGM") (Alt (lit "DTM")
             (Alt (lit "NAD") (Alt (lit "LIN") (lit "MOA"))))));
       WordB].

(** [Segment:\s+([A-Z]{3})\s+Cons\.\s*No\.:\s*(\d+)\s+Level:\s*(\d+)\s+(.*?)(?=\n|$)] *)
Definition P_vda_segment : re :=
  cat [lit "Segment:"; plus ws; Grp 1 (times 3 upper); plus ws; lit "Cons.";
       star ws; lit "No.:"; star ws; Grp 2 (plus CDigit); plus ws;
       lit "Level:"; star ws; Grp 3 (plus CDigit); plus ws;
       Grp 4 (Rep false 0 None (Chr CDot));
       Ahead (Alt (Chr (CChar newline)) Eol)].

(** [^([SC]?\d{3,4})\s+(.+)$] *)
Definition P_vda_code : re :=
  cat [Bol;
       Grp 1 (Cat (opt (Chr (one_of "SC"))) (Rep true 3 (Some 4) (Chr CDigit)));
       plus ws; Grp 2 (plus CDot); Eol].

(** [^\d{4}$] *)
Definition P_element_code : re := cat [Bol; times 4 CDigit; Eol].

(** [^[SC]\d{3}$] *)
Definition P_group_code : re :=
  cat [Bol; Chr (one_of "SC"); times 3 CDigit; Eol].

(** [^['\"]?[A-Z0-9]+['\"]?\s*=] *)
Definition P_vda_coded : re :=
  cat [Bol; opt (Chr quote); plus alnum_upper; opt (Chr quote); star ws;
       lit "="].

(** [^[A-Z][a-z]+\s+[A-Z]] *)
Definition P_vda_phrase : re :=
  cat [Bol; Chr upper; plus lower; plus ws; Chr upper].

(** [Segment:\s*([A-Z]{3})] *)
Definition P_segment_header : re :=
  cat [lit "Segment:"; star ws; Grp 1 (times 3 upper)].

(** [Pos\.:\s*\d+.*?([A-Z][\w\s/]+)$] *)
Definition P_header_description : re :=
  cat [lit "Pos.:"; star ws; plus CDigit; Rep false 0 None (Chr CDot);
       Grp 1 (Cat (Chr upper) (plus (CUnion CWord (CUnion CSpace (CChar "/")))));
       Eol].

(** [^[A-Z0-9]+\s*=] *)
Definition P_faurecia_coded : re :=
  cat [Bol; plus alnum_upper; star ws; lit "="].

(** [\s+[MC]\s+[MCN]G?$], the group [G] being [\s+] followed by [.*] *)
Definition P_status : re :=
  cat [plus ws; Chr (one_of "MC"); plus ws; Chr (one_of "MCN");
       opt (Grp 1 (Cat (plus ws) (star CDot))); Eol].

(** [\s+NOT\s+USED$] *)
Definition P_not_used : re :=
  cat [plus ws; lit "NOT"; plus ws; lit "USED"; Eol].

(** ** [clean_description] *)

Definition clean_description (description : option str) : str :=
  match description with
  | None | Some [] => []
  | Some d =>
      let cleaned := re_sub_delete P_status d in
      let cleaned := re_sub_delete P_not_used cleaned in
      strip cleaned
  end.

(** ** Failure and the input

    [None] is a raised exception; [x <- e ;; k] runs [k] when [e] did not
    raise. *)

Definition bind {A B} (o : option A) (k : A -> option B) : option B :=
  match o with Some x => k x | None => None end.

Notation "x <- e ;; k" := (bind e (fun x => k))
  (at level 61, e at next level, right associativity).

(** [l[i]] for [i >= 0]: [None] is [IndexError]. *)
Definition index {A} (l : list A) (i : nat) : option A := nth_error l i.

(** [l[-1]]. *)
Definition last_item {A} (l : list A) : option A :=
  match rev l with x :: _ => Some x | [] => None end.

Definition nonempty {A} (l : list A) : bool :=
  match l with [] => false | _ :: _ => true end.

(** What [pdfplumber] hands over. *)
Definition cell := option str.
Definition row := list cell.
Definition table := list row.

Record page : Type := Page {
  extract_text : option str;
  extract_tables : list table
}.

Definition pdf := list page.

(** [str(cell).strip() if cell else ''] *)
Definition clean_cell (c : cell) : str :=
  match c with
  | Some ((_ :: _) as s) => strip s
  | _ => []
  end.

(** [row_clean[i] if len(row_clean) > i else ''] *)
Definition cell_at (i : nat) (row_clean : list str) : str :=
  if i <? length row_clean then nth i row_clean [] else [].

(** ** The data model

    An element dict and a group dict are objects; a list of elements holds
    addresses.  A segment dict is never replaced in [segments_dict] nor
    removed from it, so a reference to it ([last_segment], or
    [self.segments_dict[current_segment]]) is its key. *)

Definition addr := nat.

Inductive obj : Type :=
| OElement (champ description format valeur usage : str)
| OGroup (groupe description : str) (champs : list addr).

Record segment_data : Type := Segment {
  segment : str;
  description : str;
  elements : list addr
}.

(** A [dict] keeps its keys in the order of their first insertion. *)
Definition dict (V : Type) := list (str * V).

Fixpoint dict_get {V} (d : dict V) (k : str) : option V :=
  match d with
  | [] => None
  | (k', v) :: t => if str_eqb k' k then Some v else dict_get t k
  end.

Definition dict_mem {V} (d : dict V) (k : str) : bool := is_some (dict_get d k).

(** [d[k] = v] *)
Fixpoint dict_set {V} (d : dict V) (k : str) (v : V) : dict V :=
  match d with
  | [] => [(k, v)]
  | (k', v') :: t =>
      if str_eqb k' k then (k, v) :: t else (k', v') :: dict_set t k v
  end.

Definition dict_keys {V} (d : dict V) : list str := map fst d.
Definition dict_values {V} (d : dict V) : list V := map snd d.

Inductive format_tag : Type := faurecia | vda4932.

(** The extractor object, and the objects its lists refer to. *)
Record extractor : Type := Extractor {
  segments_dict : dict segment_data;
  pdf_format : option format_tag;
  heap : list obj
}.

(** [AdaptiveEDIExtractor(pdf_path)] *)
Definition init : extractor := Extractor [] None [].

Definition with_segments (e : extractor) (d : dict segment_data) : extractor :=
  Extractor d (pdf_format e) (heap e).

Definition with_heap (e : extractor) (h : list obj) : extractor :=
  Extractor (segments_dict e) (pdf_format e) h.

(** A new dict: its address is the next free one. *)
Definition alloc (o : obj) (e : extractor) : addr * extractor :=
  (length (heap e), with_heap e (heap e ++ [o])).

Fixpoint list_set {A} (l : list A) (i : nat) (x : A) : list A :=
  match l, i with
  | [], _ => []
  | _ :: t, 0 => x :: t
  | y :: t, S j => y :: list_set t j x
  end.

(** [self.segments_dict[key]["elements"].append(a)]; [None] is [KeyError]. *)
Definition append_to_segment (key : str) (a : addr) (e : extractor)
  : option extractor :=
  s <- dict_get (segments_dict e) key ;;
  Some (with_segments e
          (dict_set (segments_dict e) key
             (Segment (segment s) (description s) (elements s ++ [a])))).

(** [group["champs"].append(a)] for the group dict at address [g]. *)
Definition append_to_group (g : addr) (a : addr) (e : extractor)
  : option extractor :=
  o <- index (heap e) g ;;
  match o with
  | OGroup c d champs =>
      Some (with_heap e (list_set (heap e) g (OGroup c d (champs ++ [a]))))
  | OElement _ _ _ _ _ => None
  end.

Definition matches (r : re) (s : str) : bool := is_some (re_match r s).
Definition found (r : re) (s : str) : bool := is_some (re_search r s).

(** ** [detect_pdf_format] *)

(** [page.extract_text() if page.extract_text() else ""] *)
Definition page_text (p : page) : str :=
  match extract_text p with Some ((_ :: _) as t) => t | _ => [] end.

(** The verdict of one page: [Some] tag when one of the tests of the loop
    body returns, [None] when the loop goes on to the next page. *)
Definition detect_page (p : page) : option format_tag :=
  let text := page_text p in
  if found P_vda_marker text then Some vda4932
  else if found P_faurecia_line text then Some faurecia
  else if found P_faurecia_split text then Some faurecia
  else if contains "Pos.:" text && found P_known_segment text then Some faurecia
  else None.

Fixpoint detect_pages (pages : list page) : format_tag :=
  match pages with
  | [] => faurecia
  | p :: ps =>
      match detect_page p with
      | Some tag => tag
      | None => detect_pages ps
      end
  end.

Definition detect_pdf_format (doc : pdf) : format_tag :=
  detect_pages (firstn 10 doc).

(** ** [_parse_faurecia_table] *)

Definition is_code (code : str) : bool :=
  matches P_element_code code || matches P_group_code code.

(** The [while] loop of the usage consolidation, on the rows from
    [next_idx] on: the usage texts it appends to [usage_parts]. *)
Fixpoint faurecia_lookahead (rows : list row) : option (list str) :=
  match rows with
  | [] => Some []
  | next_row :: rows' =>
      if length next_row <? 8 then Some []
      else
        let next_row_clean := map clean_cell next_row in
        next_code <- index next_row_clean 0 ;;
        let next_usage := cell_at 7 next_row_clean in
        if nonempty next_code && is_code next_code then Some []
        else if nonempty next_usage
                && matches P_faurecia_coded (strip next_usage)
        then more <- faurecia_lookahead rows' ;;
             Some (strip next_usage :: more)
        else Some []
  end.

(** The local variables of the loop over the rows, with [self]. *)
Record fstate : Type := FState {
  f_self : extractor;
  f_current_segment : option str;
  f_current_group : option addr
}.

Definition faurecia_row (t : table) (row_idx : nat) (r : row) (s : fstate)
  : option fstate :=
  if negb (nonempty r) then Some s
  else
    let row_clean := map clean_cell r in
    let row_text := join " " row_clean in
    match re_search P_segment_header row_text with
    | Some segment_match =>
        current_segment <- group 1 segment_match ;;
        description <-
          match re_search P_header_description row_text with
          | Some desc_match =>
              d <- group 1 desc_match ;; Some (strip d)
          | None => Some []
          end ;;
        let self := f_self s in
        let self :=
          if negb (dict_mem (segments_dict self) current_segment)
          then with_segments self
                 (dict_set (segments_dict self) current_segment
                    (Segment current_segment
                       (clean_description (Some description)) []))
          else self in
        Some (FState self (Some current_segment) None)
    | None =>
        match f_current_segment s with
        | None => Some s
        | Some current_segment =>
            let code := cell_at 0 row_clean in
            let description := cell_at 1 row_clean in
            let format_str := cell_at 4 row_clean in
            let valeur := cell_at 6 row_clean in
            let usage_desc := cell_at 7 row_clean in
            let description := clean_description (Some description) in
            let format_clean :=
              if nonempty format_str then join " " (split_ws format_str)
              else [] in
            let valeur_clean :=
              if nonempty valeur then strip valeur else [] in
            usage_clean <-
              (if nonempty usage_desc
               then more <- faurecia_lookahead (skipn (S row_idx) t) ;;
                    Some (join [newline] (strip usage_desc :: more))
               else Some []) ;;
            if matches P_group_code code then
              let (g, self) := alloc (OGroup code description []) (f_self s) in
              self <- append_to_segment current_segment g self ;;
              Some (FState self (Some current_segment) (Some g))
            else if matches P_element_code code then
              let (a, self) :=
                alloc (OElement code description format_clean valeur_clean
                         usage_clean) (f_self s) in
              match f_current_group s with
              | Some g =>
                  self <- append_to_group g a self ;;
                  Some (FState self (Some current_segment) (Some g))
              | None =>
                  self <- append_to_segment current_segment a self ;;
                  Some (FState self (Some current_segment) None)
              end
            else Some s
        end
    end.

(** [for row_idx, row in enumerate(table)], from [row_idx] on. *)
Fixpoint faurecia_rows (t : table) (row_idx : nat) (rows : list row)
  (s : fstate) : option fstate :=
  match rows with
  | [] => Some s
  | r :: rows' =>
      s' <- faurecia_row t row_idx r s ;;
      faurecia_rows t (S row_idx) rows' s'
  end.

Definition _parse_faurecia_table (t : table) (self : extractor)
  : option extractor :=
  s <- faurecia_rows t 0 t (FState self None None) ;;
  Some (f_self s).

(** One step of a [for] loop whose body can raise. *)
Fixpoint for_each {A S} (body : A -> S -> option S) (l : list A) (s : S)
  : option S :=
  match l with
  | [] => Some s
  | x :: l' => s' <- body x s ;; for_each body l' s'
  end.

(** ** [extract_faurecia_format] *)

Definition faurecia_table (t : table) (self : extractor) : option extractor :=
  if negb (nonempty t) || (length t <? 5) then Some self
  else _parse_faurecia_table t self.

Definition faurecia_page (p : page) (self : extractor) : option extractor :=
  for_each faurecia_table (extract_tables p) self.

Definition extract_faurecia_format (doc : pdf) (self : extractor)
  : option extractor :=
  for_each faurecia_page doc self.

(** ** [_parse_vda_table]

    [last_segment] is the segment dict inserted last; it is referred to by
    its key. *)

Fixpoint vda_lookahead (rows : list row) : option (list str) :=
  match rows with
  | [] => Some []
  | next_row :: rows' =>
      if length next_row <? 4 then Some []
      else
        let next_row_clean := map clean_cell next_row in
        next_code <- index next_row_clean 0 ;;
        let next_usage := cell_at 3 next_row_clean in
        if nonempty next_code && is_code next_code then Some []
        else if nonempty next_usage
                && (matches P_vda_coded (strip next_usage)
                    || matches P_vda_phrase (strip next_usage))
        then more <- vda_lookahead rows' ;;
             Some (strip next_usage :: more)
        else Some []
  end.

Record vstate : Type := VState {
  v_self : extractor;
  v_current_group : option addr
}.

Definition vda_row (t : table) (last_segment : str) (row_idx : nat) (r : row)
  (s : vstate) : option vstate :=
  if negb (nonempty r) || (length r <? 2) then Some s
  else
    let row_clean := map clean_cell r in
    let col0 := cell_at 0 row_clean in
    let col1 := cell_at 1 row_clean in
    let col2 := cell_at 2 row_clean in
    let col3 := cell_at 3 row_clean in
    if negb (nonempty col0) || startswith col0 "S.Format"
       || contains "Segment can/must" col0
    then Some s
    else
      match re_match P_vda_code col0 with
      | None => Some s
      | Some code_match =>
          code <- group 1 code_match ;;
          description <- group 2 code_match ;;
          let description := strip description in
          let description := clean_description (Some description) in
          let format_str := strip col1 in
          let valeur := strip col2 in
          usage_clean <-
            (if nonempty col3 && negb (str_eqb (strip col3) "--")
             then more <- vda_lookahead (skipn (S row_idx) t) ;;
                  Some (join [newline] (strip col3 :: more))
             else Some []) ;;
          if matches P_group_code code then
            let (g, self) := alloc (OGroup code description []) (v_self s) in
            self <- append_to_segment last_segment g self ;;
            Some (VState self (Some g))
          else if matches P_element_code code then
            let (a, self) :=
              alloc (OElement code description format_str valeur usage_clean)
                (v_self s) in
            match v_current_group s with
            | Some g =>
                self <- append_to_group g a self ;;
                Some (VState self (Some g))
            | None =>
                self <- append_to_segment last_segment a self ;;
                Some (VState self None)
            end
          else Some s
      end.

Fixpoint vda_rows (t : table) (last_segment : str) (row_idx : nat)
  (rows : list row) (s : vstate) : option vstate :=
  match rows with
  | [] => Some s
  | r :: rows' =>
      s' <- vda_row t last_segment row_idx r s ;;
      vda_rows t last_segment (S row_idx) rows' s'
  end.

Definition _parse_vda_table (t : table) (self : extractor)
  : option extractor :=
  if negb (nonempty (segments_dict self)) then Some self
  else
    last_segment <- last_item (dict_keys (segments_dict self)) ;;
    s <- vda_rows t last_segment 0 t (VState self None) ;;
    Some (v_self s).

(** ** [extract_vda4932_format] *)

(** The body of the loop over the segment headers found in a page's text. *)
Definition vda_header (x : rmatch) (self : extractor) : option extractor :=
  segment_code <- group 1 x ;;
  d <- group 4 x ;;
  let description := strip d in
  if negb (dict_mem (segments_dict self) segment_code)
  then Some (with_segments self
               (dict_set (segments_dict self) segment_code
                  (Segment segment_code description [])))
  else Some self.

Definition vda_table (t : table) (self : extractor) : option extractor :=
  if negb (nonempty t) || (length t <? 3) then Some self
  else _parse_vda_table t self.

Definition vda_page (p : page) (self : extractor) : option extractor :=
  match extract_text p with
  | Some ((_ :: _) as text) =>
      self <- for_each vda_header (re_finditer P_vda_segment text) self ;;
      for_each vda_table (extract_tables p) self
  | _ => Some self
  end.

Definition extract_vda4932_format (doc : pdf) (self : extractor)
  : option extractor :=
  for_each vda_page doc self.

(** ** [add_standard_descriptions] *)

Definition standard_descriptions : dict str :=
  [ (L "UNB", L "Interchange header"); (L "UNH", L "Message header");
    (L "BGM", L "Beginning of message"); (L "DTM", L "Date/time/period");
    (L "RFF", L "Reference"); (L "NAD", L "Name and address");
    (L "CTA", L "Contact information"); (L "COM", L "Communication contact");
    (L "TAX", L "Duty/tax/fee details"); (L "CUX", L "Currencies");
    (L "PAT", L "Payment terms basis"); (L "PCD", L "Percentage details");
    (L "MOA", L "Monetary amount"); (L "LIN", L "Line item");
    (L "PIA", L "Additional product id"); (L "IMD", L "Item description");
    (L "QTY", L "Quantity"); (L "ALI", L "Additional information");
    (L "GIN", L "Goods identity number");
    (L "GIR", L "Related identification numbers");
    (L "QVR", L "Quantity variances"); (L "DOC", L "Document/message details");
    (L "PRI", L "Price details"); (L "APR", L "Additional price information");
    (L "RNG", L "Range details"); (L "LOC", L "Place/location identification");
    (L "TOD", L "Terms of delivery or transport"); (L "PAC", L "Package");
    (L "PCI", L "Package identification"); (L "ALC", L "Allowance or charge");
    (L "RCS", L "Requirements and conditions"); (L "UNS", L "Section control");
    (L "CNT", L "Control total"); (L "UNT", L "Message trailer");
    (L "UNZ", L "Interchange trailer"); (L "FTX", L "Free text");
    (L "FII", L "Financial institution information"); (L "MEA", L "Measurements");
    (L "PAI", L "Payment instructions") ].

(** [x in ["0", "1", ""]] *)
Definition is_placeholder (d : str) : bool :=
  existsb (str_eqb d) [L "0"; L "1"; L ""].

(** The body of the loop: what becomes of the description of the segment
    stored under [segment_code]. *)
Definition enrich_description (segment_code : str) (d : str) : str :=
  let d := if nonempty d then clean_description (Some d) else d in
  if negb (nonempty d) || is_placeholder d
  then match dict_get standard_descriptions segment_code with
       | Some name => name
       | None => d
       end
  else d.

Definition enrich_segment (kv : str * segment_data) : str * segment_data :=
  let (segment_code, segment_data) := kv in
  (segment_code,
   Segment (segment segment_data)
     (enrich_description segment_code (description segment_data))
     (elements segment_data)).

Definition add_standard_descriptions (self : extractor) : extractor :=
  with_segments self (map enrich_segment (segments_dict self)).

(** ** [extract_all]

    The statistics are computed from the map and only printed. *)

Definition extract_all (doc : pdf) (self : extractor)
  : option (extractor * list segment_data) :=
  let tag := detect_pdf_format doc in
  let self := Extractor (segments_dict self) (Some tag) (heap self) in
  self <- match tag with
          | vda4932 => extract_vda4932_format doc self
          | faurecia => extract_faurecia_format doc self
          end ;;
  let self := add_standard_descriptions self in
  Some (self, dict_values (segments_dict self)).

(** ** [save_to_json] and [process_pdf] *)

(** The comparison of [str]: lexicographic on the code points. *)
Fixpoint str_ltb (a b : str) : bool :=
  match a, b with
  | [], [] => false
  | [], _ :: _ => true
  | _ :: _, [] => false
  | x :: a', y :: b' =>
      if code x <? code y then true
      else if code y <? code x then false
      else str_ltb a' b'
  end.

Definition str_leb (a b : str) : bool := negb (str_ltb b a).

(** [sorted(keys)] *)
Fixpoint insert_sorted (k : str) (l : list str) : list str :=
  match l with
  | [] => [k]
  | x :: t => if str_leb k x then k :: l else x :: insert_sorted k t
  end.

Definition sorted (l : list str) : list str := fold_right insert_sorted [] l.

(** What [json.dump] writes for the objects reached from a segment. *)
Record element_json : Type := ElementJson {
  champ : str;
  e_description : str;
  format : str;
  valeur : str;
  usage : str
}.

Inductive item_json : Type :=
| Champ (e : element_json)
| Groupe (groupe g_description : str) (champs : list element_json).

Record segment_json : Type := SegmentJson {
  j_segment : str;
  j_description : str;
  j_elements : list item_json
}.

Fixpoint all_some {A} (l : list (option A)) : option (list A) :=
  match l with
  | [] => Some []
  | x :: t => y <- x ;; ys <- all_some t ;; Some (y :: ys)
  end.

(** The element dict at an address; a group's [champs] hold element dicts
    only, anything else is outside what the parsers build. *)
Definition dump_element (h : list obj) (a : addr) : option element_json :=
  o <- index h a ;;
  match o with
  | OElement c d f v u => Some (ElementJson c d f v u)
  | OGroup _ _ _ => None
  end.

Definition dump_item (h : list obj) (a : addr) : option item_json :=
  o <- index h a ;;
  match o with
  | OElement c d f v u => Some (Champ (ElementJson c d f v u))
  | OGroup c d champs =>
      es <- all_some (map (dump_element h) champs) ;;
      Some (Groupe c d es)
  end.

Definition dump_segment (h : list obj) (s : segment_data)
  : option segment_json :=
  items <- all_some (map (dump_item h) (elements s)) ;;
  Some (SegmentJson (segment s) (description s) items).

(** The array written to the output file. *)
Definition save_to_json (self : extractor) : option (list segment_json) :=
  segments_list <-
    all_some (map (dict_get (segments_dict self))
                (sorted (dict_keys (segments_dict self)))) ;;
  all_some (map (dump_segment (heap self)) segments_list).

(** [process_pdf] for the document [doc] of the file whose stem is [stem]:
    the files it writes, with their contents. *)
Definition process_pdf (stem : str) (doc : pdf)
  : option (list (str * list segment_json)) :=
  let json_name := replace_char "-" "_" (replace_char " " "_" stem) in
  let output_json := L "export/" ++ json_name ++ L ".json" in
  r <- extract_all doc init ;;
  let (extractor, segments) := r in
  if nonempty segments
  then content <- save_to_json extractor ;; Some [(output_json, content)]
  else Some [].

(** ** Notions used to state the properties *)

(** *** The detector *)

(** Rule 1 of the detector, and rules 2 to 4 together, on one page. *)
Definition rule_vda (p : page) : bool := found P_vda_marker (page_text p).

Definition rule_faurecia (p : page) : bool :=
  found P_faurecia_line (page_text p)
  || found P_faurecia_split (page_text p)
  || (contains "Pos.:" (page_text p) && found P_known_segment (page_text p)).

(** *** The matcher *)

(** [reaches st st']: the matcher went from [st] to [st'] by reading a part
    [w] of the text ahead and keeping the groups it had. *)
Definition reaches (st st' : mstate) : Prop :=
  (exists new, caps st' = new ++ caps st)
  /\ (exists w, pre st' = rev w ++ pre st /\ rest st = w ++ rest st').

(** A matcher is sound when each of its results was accepted by the
    continuation at a state it reaches. *)
Definition sound (ma : mstate -> (mstate -> option mstate) -> option mstate)
  : Prop :=
  forall st k res, ma st k = Some res ->
    exists st', reaches st st' /\ k st' = Some res.

Definition has_cap (n : nat) (st : mstate) : Prop :=
  exists v, lookup_cap n (caps st) = Some v.

(** [sets n r]: a syntactic check that each match of [r] goes through the
    group [n]. *)
Fixpoint sets (n : nat) (r : re) : bool :=
  match r with
  | Grp i a => Nat.eqb i n || sets n a
  | Cat a b => sets n a || sets n b
  | Alt a b => sets n a && sets n b
  | _ => false
  end.

(** [nonnull r]: a syntactic check that each match of [r] reads at least
    one character. *)
Fixpoint nonnull (r : re) : bool :=
  match r with
  | Chr _ => true
  | Cat a b => nonnull a || nonnull b
  | Alt a b => nonnull a && nonnull b
  | Rep _ lo _ a => (0 <? lo) && nonnull a
  | Grp _ a => nonnull a
  | _ => false
  end.

(** *** The tree *)

(** The addresses held by the lists of the object graph: by the
    [elements] of the segments, by the [champs] of the groups. *)
Definition obj_champs (o : obj) : list addr :=
  match o with
  | OGroup _ _ champs => champs
  | OElement _ _ _ _ _ => []
  end.

Definition segment_refs (d : dict segment_data) : list addr :=
  flat_map (fun kv => elements (snd kv)) d.

Definition group_refs (h : list obj) : list addr := flat_map obj_champs h.

Definition all_refs (e : extractor) : list addr :=
  segment_refs (segments_dict e) ++ group_refs (heap e).

Definition is_group (h : list obj) (g : addr) : Prop :=
  exists c d champs, nth_error h g = Some (OGroup c d champs).

Definition is_element (h : list obj) (a : addr) : Prop :=
  exists c d f v u, nth_error h a = Some (OElement c d f v u).

(** The object at [g] is in the [elements] list of a segment of the map. *)
Definition attached (e : extractor) (g : addr) : Prop :=
  exists k s, In (k, s) (segments_dict e) /\ In g (elements s).

(** The [champs] of the group at [g]. *)
Definition children (h : list obj) (g : addr) : list addr :=
  match nth_error h g with
  | Some o => obj_champs o
  | None => []
  end.

(** The object graph is a forest under the segments of the map: the keys
    of the map are distinct and each is the mnemonic of its segment; no
    address is held twice, in one list or in two ([tree_one_parent]); the
    addresses held are those of the objects, so that every object has a
    parent and no list holds a dangling address ([tree_cover]); the
    [champs] of a group hold elements ([tree_leaves]). *)
Record tree (e : extractor) : Prop := Tree {
  tree_keys : NoDup (dict_keys (segments_dict e));
  tree_names : forall k s, In (k, s) (segments_dict e) -> segment s = k;
  tree_one_parent : NoDup (all_refs e);
  tree_cover : forall a, In a (all_refs e) <-> a < length (heap e);
  tree_leaves : forall g a, In a (children (heap e) g) -> is_element (heap e) a
}.

(** The invariants of the two loops over the rows of a table: the tree,
    the open segment is in the map, the open group is a group. *)
Definition faurecia_inv (s : fstate) : Prop :=
  tree (f_self s)
  /\ (forall k, f_current_segment s = Some k ->
        dict_mem (segments_dict (f_self s)) k = true)
  /\ (forall g, f_current_group s = Some g -> is_group (heap (f_self s)) g).

Definition vda_inv (last_segment : str) (s : vstate) : Prop :=
  tree (v_self s)
  /\ dict_mem (segments_dict (v_self s)) last_segment = true
  /\ (forall g, v_current_group s = Some g -> is_group (heap (v_self s)) g).

(** Between [e] and [e'], a group was given a child only if it was
    already in the list of a segment in [e]. *)
Definition adopt_ok (e e' : extractor) : Prop :=
  forall g a,
    In a (children (heap e') g) -> ~ In a (children (heap e) g) ->
    attached e g.

(** *** The order of the output *)

Definition lt_str (a b : str) : Prop := str_ltb a b = true.

(** *** Rows that are skipped *)

(** Rows on which the patterns of a parser fail: a Faurecia row that is
    no segment header and whose code is neither that of a group nor that of
    an element; a VDA row that is too short, or header noise, or whose
    first cell is not a code and a description, or whose code is neither
    that of a group nor that of an element. *)
Definition faurecia_unrecognised (r : row) : bool :=
  let row_clean := map clean_cell r in
  negb (found P_segment_header (join " " row_clean))
  && negb (is_code (cell_at 0 row_clean)).

Definition vda_unrecognised (r : row) : bool :=
  let col0 := cell_at 0 (map clean_cell r) in
  (length r <? 2)
  || negb (nonempty col0) || startswith col0 "S.Format"
  || contains "Segment can/must" col0
  || match re_match P_vda_code col0 with
     | None => true
     | Some code_match =>
         match group 1 code_match with
         | Some code => negb (is_code code)
         | None => false
         end
     end.

(** ** Sample inputs *)

Definition cells (l : list string) : row := map (fun s => Some (L s)) l.

(** The row and the continuation rows of the usage consolidation. *)
Definition party_row : row :=
  cells ["3035"; "Party qualifier"; ""; ""; "CDS"; ""; "1";
         "'ZZZ' = Mutually defined"].

Definition quoted_continuation : row :=
  cells [""; ""; ""; ""; ""; ""; ""; "'123' = Other code"].

Definition bare_continuation : row :=
  cells [""; ""; ""; ""; ""; ""; ""; "123 = Other code"].

Definition nad_header : row :=
  cells ["Segment: NAD Pos.: 0010 Level: 1 Name and address"].

Definition bgm_header : row :=
  cells ["Segment: BGM Pos.: 0020 Level: 0 Beginning of message"].

(** [row_clean] for [party_row]. *)
Definition party_row_clean : list str :=
  map L ["3035"; "Party qualifier"; ""; ""; "CDS"; ""; "1";
         "'ZZZ' = Mutually defined"].

Definition party_element (usage : str) : obj :=
  OElement "3035" "Party qualifier" "CDS" "1" usage.

Definition usage_first : str := "'ZZZ' = Mutually defined".
Definition usage_joined_quoted : str :=
  L "'ZZZ' = Mutually defined" ++ [newline] ++ L "'123' = Other code".
Definition usage_joined_bare : str :=
  L "'ZZZ' = Mutually defined" ++ [newline] ++ L "123 = Other code".

(** The loop state once [nad_header] is read by a new extractor. *)
Definition nad_open : fstate :=
  FState (Extractor [(L "NAD", Segment "NAD" "Name and address" [])] None [])
    (Some (L "NAD")) None.

(** A Faurecia page followed by a page with the VDA marker. *)
Definition faurecia_then_vda : pdf :=
  [Page (Some (L "Pos.: 0010 UNH Message header")) [];
   Page (Some (L "Segment: NAD Cons. No.: 14 Level: 1 Name and address")) []].

Definition vda_then_faurecia : pdf :=
  [Page None [];
   Page (Some (L "Segment: NAD Cons. No.: 14 Level: 1 Name and address")) [];
   Page (Some (L "Pos.: 0010 UNH Message header")) []].

(** A Faurecia document whose one table opens NAD and then BGM. *)
Definition two_segments : pdf :=
  [Page None
     [[nad_header; party_row; quoted_continuation; bgm_header;
       cells ["1001"; "Document name code"; ""; ""; "an..3"; ""; "220"; ""]]]].

(** The loop state of the VDA parser on a table that follows the header
    of NAD, and a row of such a table. *)
Definition nad_last : vstate :=
  VState (Extractor [(L "NAD", Segment "NAD" "Name and address" [])] None [])
    None.

Definition vda_party_row : row :=
  cells ["3035 Party qualifier"; "an..3"; "MI"; "'MI' = Planning authority"].

(** A table of four rows that the Faurecia parser would read if it were
    not skipped. *)
Definition short_table : table :=
  [nad_header; party_row; quoted_continuation; bgm_header].

(** A VDA row whose code has three digits, and one whose usage is the
    sentinel. *)
Definition vda_three_digit_row : row :=
  cells ["123 Three digit code"; "an..3"; ""; ""].


(** A map to enrich. *)
Definition to_enrich : extractor :=
  Extractor
    [(L "MOA", Segment "MOA" "" []);
     (L "NAD", Segment "NAD" "1 M C" []);
     (L "ZZZ", Segment "ZZZ" "" [])]
    None [].

(** ** [get_statistics] *)

Record stats : Type := Stats {
  st_segments : nat;
  total_elements : nat;
  simple_elements : nat;
  groups : nat;
  elements_in_groups : nat;
  elements_with_format : nat;
  elements_with_value : nat;
  elements_with_usage : nat
}.

Definition bump (b : bool) (n : nat) : nat := if b then S n else n.

(** The three tests [if x.get("format")], [if x.get("valeur")] and
    [if x.get("usage")] on an element dict. *)
Definition count_fields (f v u : str) (st : stats) : stats :=
  Stats (st_segments st) (total_elements st) (simple_elements st) (groups st)
    (elements_in_groups st)
    (bump (nonempty f) (elements_with_format st))
    (bump (nonempty v) (elements_with_value st))
    (bump (nonempty u) (elements_with_usage st)).

(** The body of the loop over the [champs] of a group.  On a dict that is
    no element the three [get] give [None] and nothing more is counted. *)
Definition stat_champ (h : list obj) (a : addr) (st : stats) : option stats :=
  champ <- index h a ;;
  let st :=
    Stats (st_segments st) (total_elements st) (simple_elements st) (groups st)
      (S (elements_in_groups st))
      (elements_with_format st) (elements_with_value st)
      (elements_with_usage st) in
  match champ with
  | OElement _ _ f v u => Some (count_fields f v u st)
  | OGroup _ _ _ => Some st
  end.

(** The body of the loop over the [elements] of a segment. *)
Definition stat_elem (h : list obj) (a : addr) (st : stats) : option stats :=
  elem <- index h a ;;
  let st :=
    Stats (st_segments st) (S (total_elements st)) (simple_elements st)
      (groups st) (elements_in_groups st)
      (elements_with_format st) (elements_with_value st)
      (elements_with_usage st) in
  match elem with
  | OElement _ _ f v u =>
      Some (count_fields f v u
              (Stats (st_segments st) (total_elements st)
                 (S (simple_elements st)) (groups st) (elements_in_groups st)
                 (elements_with_format st) (elements_with_value st)
                 (elements_with_usage st)))
  | OGroup _ _ champs =>
      for_each (stat_champ h) champs
        (Stats (st_segments st) (total_elements st) (simple_elements st)
           (S (groups st)) (elements_in_groups st)
           (elements_with_format st) (elements_with_value st)
           (elements_with_usage st))
  end.

Definition stat_segment (h : list obj) (s : segment_data) (st : stats)
  : option stats :=
  for_each (stat_elem h) (elements s) st.

Definition get_statistics (self : extractor) : option stats :=
  for_each (stat_segment (heap self)) (dict_values (segments_dict self))
    (Stats (length (segments_dict self)) 0 0 0 0 0 0 0).

(** ** More notions used to state the properties *)

(** *** The shape of the codes *)

Definition all_in (cs : cset) (w : str) : Prop :=
  Forall (fun c => cset_mem cs c = true) w.

(** Three capital letters; four characters of the class [\d]; [S] or [C]
    and three characters of the class [\d].  The classes are those of the
    patterns: on the code points that [str] holds, [\d] is [0] to [9]. *)
Definition is_mnemonic (k : str) : Prop := length k = 3 /\ all_in upper k.

Definition is_element_code (s : str) : Prop := length s = 4 /\ all_in CDigit s.

Definition is_group_code (s : str) : Prop :=
  exists c w, s = c :: w /\ cset_mem (one_of "SC") c = true
              /\ length w = 3 /\ all_in CDigit w.

Definition obj_schema (o : obj) : Prop :=
  match o with
  | OElement c _ _ _ _ => is_element_code c
  | OGroup c _ _ => is_group_code c
  end.

(** *** The updates of the map

    What a parser does to the extractor, one update at a time: a new
    segment with no element; a new object, with no child, appended to the
    [elements] of a segment; a new element appended to the [champs] of a
    group.  The label says which, and what the new object is. *)
Inductive label : Type :=
| NewSegment (k : str)
| ToSegment (k : str) (o : obj)
| ToGroup (g : addr) (o : obj).

Inductive update (e : extractor) : label -> extractor -> Prop :=
| update_segment k desc :
    dict_get (segments_dict e) k = None ->
    update e (NewSegment k)
      (with_segments e (dict_set (segments_dict e) k (Segment k desc [])))
| update_to_segment k s o :
    dict_get (segments_dict e) k = Some s ->
    obj_champs o = [] ->
    update e (ToSegment k o)
      (Extractor
         (dict_set (segments_dict e) k
            (Segment (segment s) (description s)
               (elements s ++ [length (heap e)])))
         (pdf_format e) (heap e ++ [o]))
| update_to_group g c d champs ec ed ef ev eu :
    nth_error (heap e) g = Some (OGroup c d champs) ->
    update e (ToGroup g (OElement ec ed ef ev eu))
      (Extractor (segments_dict e) (pdf_format e)
         (list_set (heap e ++ [OElement ec ed ef ev eu]) g
            (OGroup c d (champs ++ [length (heap e)])))).

(** A sequence of updates whose labels all satisfy [P]. *)
Inductive updates (P : label -> Prop) (e : extractor) : extractor -> Prop :=
| updates_nil : updates P e e
| updates_snoc e1 l e2 :
    updates P e e1 -> P l -> update e1 l e2 -> updates P e e2.

(** The labels of the updates of the parsers: a new key is a mnemonic, a
    new object has a code of the shape of its kind. *)
Definition schema_label (l : label) : Prop :=
  match l with
  | NewSegment k => is_mnemonic k
  | ToSegment _ o | ToGroup _ o => obj_schema o
  end.

(** The labels of the updates of a VDA table whose segment is [last]. *)
Definition vda_label (last : str) (l : label) : Prop :=
  schema_label l
  /\ match l with
     | NewSegment _ => False
     | ToSegment k _ => k = last
     | ToGroup _ _ => True
     end.

(** *** The map only grows

    [extends e e']: the keys of [e] are the first keys of [e'], in the same
    order; a segment of [e] is in [e'] with its mnemonic and its
    description, and its elements are the first elements it has in [e']; an
    element of [e] is the same in [e']; a group of [e] is in [e'] with its
    code and its description, and its children are the first children it
    has in [e']. *)
Definition extends (e e' : extractor) : Prop :=
  (exists more,
     dict_keys (segments_dict e') = dict_keys (segments_dict e) ++ more)
  /\ (forall k s, dict_get (segments_dict e) k = Some s ->
        exists more,
          dict_get (segments_dict e') k
          = Some (Segment (segment s) (description s) (elements s ++ more)))
  /\ (forall a c d f v u,
        nth_error (heap e) a = Some (OElement c d f v u) ->
        nth_error (heap e') a = Some (OElement c d f v u))
  /\ (forall g c d champs,
        nth_error (heap e) g = Some (OGroup c d champs) ->
        exists more, nth_error (heap e') g = Some (OGroup c d (champs ++ more))).

(** *** The order of emission

    The address of an object is its rank among the objects emitted.
    [ordered e]: every list holds its addresses in ascending order, and
    the children of a group come after the group. *)
Definition ordered (e : extractor) : Prop :=
  (forall k s, In (k, s) (segments_dict e) -> StronglySorted lt (elements s))
  /\ (forall g c d champs,
        nth_error (heap e) g = Some (OGroup c d champs) ->
        StronglySorted lt champs /\ Forall (fun a => g < a) champs).

(** *** Sums over lists *)

Fixpoint sum_map {A} (f : A -> nat) (l : list A) : nat :=
  match l with
  | [] => 0
  | x :: t => f x + sum_map f t
  end.

(** The number of children of the object at [a]. *)
Definition fanout (h : list obj) (a : addr) : nat := length (children h a).

(** ** More sample inputs *)

(** An extractor that holds NAD, then BGM, with no element. *)
Definition nad_bgm : extractor :=
  Extractor
    [(L "NAD", Segment "NAD" "Name and address" []);
     (L "BGM", Segment "BGM" "Beginning of message" [])]
    None [].

(** A Faurecia table that reopens NAD and adds a group and two elements. *)
Definition nad_table : table :=
  [nad_header;
   cells ["C082"; "Party identification details"; ""; ""; ""; ""; ""; ""];
   cells ["3039"; "Party id. identification"; ""; ""; "an..35"; ""; ""; ""];
   party_row].

(** A VDA table of a group and two elements. *)
Definition vda_table_rows : table :=
  [cells ["C082 Party identification details"; ""; ""; ""];
   cells ["3039 Party id. identification"; "an..35"; ""; ""];
   vda_party_row].

(** A table of five rows of elements and no segment header. *)
Definition headerless_table : table :=
  [party_row; bare_continuation; party_row; quoted_continuation; party_row].

(** *** The counters of the statistics

    [counted n m st st']: from [st] to [st'] the loops went through [n]
    items of segments and [m] children of groups.  The counters of the
    filled fields grow by no more than the number of elements met. *)
Definition counted (n m : nat) (st st' : stats) : Prop :=
  st_segments st' = st_segments st
  /\ total_elements st' = total_elements st + n
  /\ simple_elements st' + groups st' = simple_elements st + groups st + n
  /\ elements_in_groups st' = elements_in_groups st + m
  /\ simple_elements st <= simple_elements st'
  /\ elements_with_format st' + simple_elements st
     <= elements_with_format st + simple_elements st' + m
  /\ elements_with_value st' + simple_elements st
     <= elements_with_value st + simple_elements st' + m
  /\ elements_with_usage st' + simple_elements st
     <= elements_with_usage st + simple_elements st' + m.

(** Every key of the map, every element and every group has a code of
    the shape of its kind. *)
Definition schema (e : extractor) : Prop :=
  (forall k, In k (dict_keys (segments_dict e)) -> is_mnemonic k)
  /\ (forall a o, nth_error (heap e) a = Some o -> obj_schema o).

(** [groups_ok ok r]: every group of [r] has a number that [ok] accepts. *)
Fixpoint groups_ok (ok : nat -> bool) (r : re) : bool :=
  match r with
  | Grp i a => ok i && groups_ok ok a
  | Cat a b | Alt a b => groups_ok ok a && groups_ok ok b
  | Rep _ _ _ a => groups_ok ok a
  | Ahead a => groups_ok ok a
  | _ => true
  end.

(** [reaches] with the numbers of the groups captured on the way. *)
Definition reaches_with (ok : nat -> bool) (st st' : mstate) : Prop :=
  (exists new, caps st' = new ++ caps st
               /\ Forall (fun ic => ok (fst ic) = true) new)
  /\ (exists w, pre st' = rev w ++ pre st /\ rest st = w ++ rest st').

(** ** What a row says, whatever the state of the loop *)

Definition opt_list {A} (o : option A) : list A :=
  match o with Some x => [x] | None => [] end.

(** The mnemonic that a Faurecia row opens, when the row is a segment
    header: [segment_match.group(1)]. *)
Definition faurecia_row_header (r : row) : option str :=
  if negb (nonempty r) then None
  else
    segment_match <-
      re_search P_segment_header (join " " (map clean_cell r)) ;;
    group 1 segment_match.

(** The dict that the loop body of [_parse_faurecia_table] builds from the
    cells of a row and the rows that follow it: [current_group] before it
    gets a child, or [element].  [None] when the row has no code. *)
Definition faurecia_row_object (t : table) (row_idx : nat) (r : row)
  : option obj :=
  if negb (nonempty r) then None
  else
    let row_clean := map clean_cell r in
    let code := cell_at 0 row_clean in
    let description := cell_at 1 row_clean in
    let format_str := cell_at 4 row_clean in
    let valeur := cell_at 6 row_clean in
    let usage_desc := cell_at 7 row_clean in
    let description := clean_description (Some description) in
    let format_clean :=
      if nonempty format_str then join " " (split_ws format_str)
      else [] in
    let valeur_clean :=
      if nonempty valeur then strip valeur else [] in
    usage_clean <-
      (if nonempty usage_desc
       then more <- faurecia_lookahead (skipn (S row_idx) t) ;;
            Some (join [newline] (strip usage_desc :: more))
       else Some []) ;;
    if matches P_group_code code then Some (OGroup code description [])
    else if matches P_element_code code then
      Some (OElement code description format_clean valeur_clean usage_clean)
    else None.

(** [code_match.group(1)] and [code_match.group(2).strip()] for the first
    cell of a VDA row. *)
Definition vda_code_and_description (col0 : str) : option (str * str) :=
  code_match <- re_match P_vda_code col0 ;;
  code <- group 1 code_match ;;
  description <- group 2 code_match ;;
  Some (code, strip description).

(** The tests of [_parse_vda_table] that skip a row before its code is
    read. *)
Definition vda_skipped (r : row) : bool :=
  let col0 := cell_at 0 (map clean_cell r) in
  negb (nonempty r) || (length r <? 2)
  || (negb (nonempty col0) || startswith col0 "S.Format"
      || contains "Segment can/must" col0).

(** The dict that the loop body of [_parse_vda_table] builds from the cells
    of a row and the rows that follow it.  [None] when the row is
    skipped. *)
Definition vda_row_object (t : table) (row_idx : nat) (r : row)
  : option obj :=
  if vda_skipped r then None
  else
    let row_clean := map clean_cell r in
    let col1 := cell_at 1 row_clean in
    let col2 := cell_at 2 row_clean in
    let col3 := cell_at 3 row_clean in
    cd <- vda_code_and_description (cell_at 0 row_clean) ;;
    let (code, description) := cd in
    let description := clean_description (Some description) in
    usage_clean <-
      (if nonempty col3 && negb (str_eqb (strip col3) "--")
       then more <- vda_lookahead (skipn (S row_idx) t) ;;
            Some (join [newline] (strip col3 :: more))
       else Some []) ;;
    if matches P_group_code code then Some (OGroup code description [])
    else if matches P_element_code code then
      Some (OElement code description (strip col1) (strip col2) usage_clean)
    else None.


(** Where the loop body puts the dict [o] when the segment is [seg] and
    the open group is [current_group]: a group goes to the segment, an
    element to the open group when there is one.  And the open group
    after it, the new dict being at address [a]. *)
Definition row_label (seg : str) (current_group : option addr) (o : obj)
  : label :=
  match o, current_group with
  | OElement _ _ _ _ _, Some g => ToGroup g o
  | _, _ => ToSegment seg o
  end.

Definition next_group (a : addr) (current_group : option addr) (o : obj)
  : option addr :=
  match o with
  | OGroup _ _ _ => Some a
  | OElement _ _ _ _ _ => current_group
  end.

(** An object without its children. *)
Definition shell (o : obj) : obj :=
  match o with
  | OGroup c d _ => OGroup c d []
  | OElement _ _ _ _ _ => o
  end.

(** The dicts built from the rows of a Faurecia table from [row_idx] on,
    in the order of the rows; [open] says whether a segment is open.  A
    header opens a segment; a row before the first header builds
    nothing. *)
Fixpoint faurecia_objects (t : table) (row_idx : nat) (rows : list row)
  (open : bool) : list obj :=
  match rows with
  | [] => []
  | r :: rows' =>
      match faurecia_row_header r with
      | Some _ => faurecia_objects t (S row_idx) rows' true
      | None =>
          (if open then opt_list (faurecia_row_object t row_idx r) else [])
          ++ faurecia_objects t (S row_idx) rows' open
      end
  end.

(** The dicts built from the rows of a VDA table, in the order of the
    rows. *)
Fixpoint vda_objects (t : table) (row_idx : nat) (rows : list row)
  : list obj :=
  match rows with
  | [] => []
  | r :: rows' =>
      opt_list (vda_row_object t row_idx r) ++ vda_objects t (S row_idx) rows'
  end.

(** ** The segment headers of a document *)

(** The mnemonics of the headers that the Faurecia extraction reads, in
    the order of the document: pages, tables of five rows or more, rows. *)
Definition faurecia_table_headers (t : table) : list str :=
  if negb (nonempty t) || (length t <? 5) then []
  else flat_map (fun r => opt_list (faurecia_row_header r)) t.

Definition faurecia_headers (doc : pdf) : list str :=
  flat_map (fun p => flat_map faurecia_table_headers (extract_tables p)) doc.

(** The mnemonics of the headers that the VDA extraction reads, in the
    order of the document: pages with a text, matches in the text. *)
Definition vda_page_headers (p : page) : list str :=
  match extract_text p with
  | Some ((_ :: _) as text) =>
      flat_map (fun x => opt_list (group 1 x)) (re_finditer P_vda_segment text)
  | _ => []
  end.

Definition vda_headers (doc : pdf) : list str := flat_map vda_page_headers doc.

Definition document_headers (doc : pdf) : list str :=
  match detect_pdf_format doc with
  | faurecia => faurecia_headers doc
  | vda4932 => vda_headers doc
  end.

(** [if k not in keys: keys.append(k)] *)
Definition add_key (keys : list str) (k : str) : list str :=
  if existsb (fun k' => str_eqb k' k) keys then keys else keys ++ [k].

(** The items of a list, each once, in the order of their first
    occurrence. *)
Fixpoint first_occurrences (l : list str) : list str :=
  match l with
  | [] => []
  | k :: t =>
      k :: filter (fun k' => negb (str_eqb k' k)) (first_occurrences t)
  end.

(** ** What a VDA table has done so far *)

(** The object at [a] is under the addresses [more]: it is one of them,
    or a child of a group that is one of them. *)
Definition held_by (h : list obj) (more : list addr) (a : addr) : Prop :=
  In a more
  \/ exists g c d champs,
       In g more /\ nth_error h g = Some (OGroup c d champs) /\ In a champs.

(** The state [s] of the loop of [_parse_vda_table], started on the
    extractor [e0] whose last segment is [last]: [more] are the addresses
    appended to that segment and [objs] the dicts built, in order. *)
Record vda_progress (last : str) (e0 : extractor) (more : list addr)
  (objs : list obj) (s : vstate) : Prop := VdaProgress {
  vp_keys :
    dict_keys (segments_dict (v_self s)) = dict_keys (segments_dict e0);
  vp_others : forall k, k <> last ->
    dict_get (segments_dict (v_self s)) k = dict_get (segments_dict e0) k;
  vp_last : forall sd, dict_get (segments_dict e0) last = Some sd ->
    dict_get (segments_dict (v_self s)) last
    = Some (Segment (segment sd) (description sd) (elements sd ++ more));
  vp_old : forall a, a < length (heap e0) ->
    nth_error (heap (v_self s)) a = nth_error (heap e0) a;
  vp_shell : map shell (heap (v_self s)) = map shell (heap e0) ++ objs;
  vp_more : forall a, In a more ->
    length (heap e0) <= a < length (heap (v_self s));
  vp_groups : forall a, length (heap e0) <= a ->
    is_group (heap (v_self s)) a -> In a more;
  vp_held : forall a, length (heap e0) <= a < length (heap (v_self s)) ->
    held_by (heap (v_self s)) more a;
  vp_current : forall g, v_current_group s = Some g -> length (heap e0) <= g
}.

Arguments vp_others {last e0 more objs s} _ k _.
Arguments vp_last {last e0 more objs s} _ sd _.
Arguments vp_old {last e0 more objs s} _ a _.
Arguments vp_more {last e0 more objs s} _ a _.
Arguments vp_groups {last e0 more objs s} _ a _ _.
Arguments vp_held {last e0 more objs s} _ a _.
Arguments vp_current {last e0 more objs s} _ g _.

(** ** The name of the output file *)

(** [.replace(' ', '_').replace('-', '_')], on one character. *)
Definition underscore (c : ascii) : ascii :=
  if ascii_dec c " " then "_"%char
  else if ascii_dec c "-" then "_"%char
  else c.

(** ** A sample document *)

(** A VDA document: the text opens BGM and then NAD, the table holds a
    group and two elements. *)
Definition vda_document : pdf :=
  [Page (Some (L "Segment: BGM Cons. No.: 2 Level: 0 Beginning of message"
               ++ [newline]
               ++ L "Segment: NAD Cons. No.: 14 Level: 1 Name and address"))
     [vda_table_rows]].


(** * Properties *)

Unset Implicit Arguments.

(** ** Strings *)

Lemma str_eqb_eq (a b : str) : str_eqb a b = true <-> a = b.
Proof.
  unfold str_eqb. destruct (list_eq_dec ascii_dec a b); split; congruence.
Qed.

Lemma str_eqb_refl (a : str) : str_eqb a a = true.
Proof. now apply str_eqb_eq. Qed.

Lemma str_eqb_neq (a b : str) : str_eqb a b = false <-> a <> b.
Proof.
  unfold str_eqb. destruct (list_eq_dec ascii_dec a b); split; congruence.
Qed.

(** ** The matcher *)

Lemma reaches_refl st : reaches st st.
Proof. split; [now exists [] | now exists []]. Qed.

Lemma reaches_trans a b c : reaches a b -> reaches b c -> reaches a c.
Proof.
  intros [[n1 H1] [w1 [P1 R1]]] [[n2 H2] [w2 [P2 R2]]]. split.
  - exists (n2 ++ n1). now rewrite H2, H1, app_assoc.
  - exists (w1 ++ w2). split.
    + now rewrite P2, P1, rev_app_distr, app_assoc.
    + now rewrite R1, R2, app_assoc.
Qed.

Lemma reaches_length a b : reaches a b -> length (rest b) <= length (rest a).
Proof. intros [_ [w [_ R]]]. rewrite R, length_app. lia. Qed.

Lemma reaches_advance c t st :
  rest st = c :: t -> reaches st (advance c t st).
Proof.
  intros R. split; [now exists [] |]. exists [c]. now rewrite R.
Qed.

Lemma reaches_set_cap n s st : reaches st (set_cap n s st).
Proof. split; [now exists [(n, s)] | now exists []]. Qed.

Lemma rep_loop_sound ma g lo hi :
  sound ma ->
  forall fuel cnt st k res,
    rep_loop ma g lo hi k fuel cnt st = Some res ->
    exists st', reaches st st' /\ k st' = Some res.
Proof.
  intros Hma. induction fuel as [|f IH]; intros cnt st k res H.
  - simpl in H. destruct (lo <=? cnt), g; try discriminate;
      destruct (k st) eqn:E; try discriminate;
      exists st; split; [apply reaches_refl | congruence | apply reaches_refl | congruence].
  - simpl in H.
    assert (Hmore : forall x,
      (if below cnt hi
       then ma st (fun st' =>
              if (length (rest st') <? length (rest st)) || (cnt <? lo)
              then rep_loop ma g lo hi k f (S cnt) st' else None)
       else None) = Some x ->
      exists st', reaches st st' /\ k st' = Some x).
    { intros x Hx. destruct (below cnt hi); [|discriminate].
      apply Hma in Hx. destruct Hx as [st1 [R1 K1]].
      destruct ((length (rest st1) <? length (rest st)) || (cnt <? lo));
        [|discriminate].
      apply IH in K1. destruct K1 as [st2 [R2 K2]].
      exists st2. split; [eapply reaches_trans; eauto | exact K2]. }
    assert (Hstop : forall x, (if lo <=? cnt then k st else None) = Some x ->
      exists st', reaches st st' /\ k st' = Some x).
    { intros x Hx. destruct (lo <=? cnt); [|discriminate].
      exists st. split; [apply reaches_refl | exact Hx]. }
    destruct g.
    + destruct (if below cnt hi then _ else None) eqn:E.
      * inversion H; subst. now apply Hmore.
      * now apply Hstop.
    + destruct (if lo <=? cnt then k st else None) eqn:E.
      * inversion H; subst. now apply Hstop.
      * now apply Hmore.
Qed.

Lemma m_sound r : sound (m r).
Proof.
  induction r; intros st k res H; simpl in H.
  - exists st. split; [apply reaches_refl | exact H].
  - destruct (rest st) as [|c t] eqn:R; [discriminate|].
    destruct (cset_mem cs c); [|discriminate].
    exists (advance c t st). split; [now apply reaches_advance | exact H].
  - apply IHr1 in H. destruct H as [st1 [R1 H]].
    apply IHr2 in H. destruct H as [st2 [R2 H]].
    exists st2. split; [eapply reaches_trans; eauto | exact H].
  - destruct (m r1 st k) eqn:E.
    + inversion H; subst. now apply IHr1.
    + now apply IHr2.
  - eapply rep_loop_sound; eauto.
  - apply IHr in H. destruct H as [st1 [R1 H]].
    exists (set_cap n (consumed st st1) st1). split; [|exact H].
    eapply reaches_trans; [exact R1 | apply reaches_set_cap].
  - destruct (pre st); [|discriminate].
    exists st. split; [apply reaches_refl | exact H].
  - exists st. split; [apply reaches_refl|].
    destruct (rest st) as [|c [|d t]]; try discriminate; auto.
    destruct (ascii_dec c newline); [auto | discriminate].
  - destruct (xorb _ _); [|discriminate].
    exists st. split; [apply reaches_refl | exact H].
  - destruct (m r st Some) as [st1|] eqn:E; [|discriminate].
    apply IHr in E. destruct E as [st2 [[[new Hc] _] E2]].
    inversion E2; subst st2.
    exists (MState (pre st) (rest st) (caps st1)). split; [|exact H].
    split; [exists new; exact Hc | exists []; simpl; auto].
Qed.

(** Groups that are set on every match. *)

Lemma lookup_cap_app n new l :
  (exists v, lookup_cap n l = Some v) ->
  exists v, lookup_cap n (new ++ l) = Some v.
Proof.
  intros H. induction new as [|[i s] new IH]; simpl; [exact H|].
  destruct (Nat.eqb i n); [now exists s | exact IH].
Qed.

Lemma has_cap_reaches n st st' : reaches st st' -> has_cap n st -> has_cap n st'.
Proof.
  intros [[new Hc] _] H. unfold has_cap. rewrite Hc. now apply lookup_cap_app.
Qed.

Lemma has_cap_set_cap n i s st : has_cap n st -> has_cap n (set_cap i s st).
Proof.
  intros [v H]. unfold has_cap. simpl.
  destruct (Nat.eqb i n); [now exists s | now exists v].
Qed.

Lemma has_cap_set_same n s st : has_cap n (set_cap n s st).
Proof. exists s. simpl. now rewrite Nat.eqb_refl. Qed.

Lemma m_sets n r :
  sets n r = true ->
  forall st k res, m r st k = Some res ->
    exists st', reaches st st' /\ has_cap n st' /\ k st' = Some res.
Proof.
  induction r; intros Hs st k res H; simpl in Hs; try discriminate.
  - (* Cat *)
    simpl in H. apply orb_true_iff in Hs. destruct Hs as [Hs|Hs].
    + apply (IHr1 Hs) in H. destruct H as [st1 [R1 [C1 H]]].
      apply m_sound in H. destruct H as [st2 [R2 H]].
      exists st2. split; [eapply reaches_trans; eauto|].
      split; [eapply has_cap_reaches; eauto | exact H].
    + apply m_sound in H. destruct H as [st1 [R1 H]].
      apply (IHr2 Hs) in H. destruct H as [st2 [R2 [C2 H]]].
      exists st2. split; [eapply reaches_trans; eauto|]. now split.
  - (* Alt *)
    simpl in H. apply andb_true_iff in Hs. destruct Hs as [Ha Hb].
    destruct (m r1 st k) eqn:E.
    + inversion H; subst. now apply IHr1.
    + now apply IHr2.
  - (* Grp *)
    simpl in H. destruct (Nat.eqb n0 n) eqn:En.
    + apply Nat.eqb_eq in En. subst n0.
      apply m_sound in H. destruct H as [st1 [R1 H]].
      exists (set_cap n (consumed st st1) st1). split; [|split; auto].
      * eapply reaches_trans; [exact R1 | apply reaches_set_cap].
      * apply has_cap_set_same.
    + simpl in Hs. apply (IHr Hs) in H. destruct H as [st1 [R1 [C1 H]]].
      exists (set_cap n0 (consumed st st1) st1). split; [|split; auto].
      * eapply reaches_trans; [exact R1 | apply reaches_set_cap].
      * now apply has_cap_set_cap.
Qed.

Lemma match_at_group n r p s x :
  sets n r = true -> match_at r p s = Some x -> exists v, group n x = Some v.
Proof.
  intros Hs H. unfold match_at in H.
  destruct (m r (MState p s []) Some) as [st'|] eqn:E; [|discriminate].
  inversion H; subst x. unfold group; simpl.
  apply (m_sets _ _ Hs) in E. destruct E as [st1 [_ [C E]]].
  inversion E; subst. exact C.
Qed.

Lemma search_from_group n r s : forall p x,
  sets n r = true -> search_from r p s = Some x -> exists v, group n x = Some v.
Proof.
  induction s as [|c t IH]; intros p x Hs H; simpl in H.
  - destruct (match_at r p []) eqn:E; [|discriminate].
    inversion H; subst. eapply match_at_group; eauto.
  - destruct (match_at r p (c :: t)) eqn:E.
    + inversion H; subst. eapply match_at_group; eauto.
    + eapply IH; eauto.
Qed.

Lemma re_search_group n r s x :
  sets n r = true -> re_search r s = Some x -> exists v, group n x = Some v.
Proof. apply search_from_group. Qed.

Lemma re_match_group n r s x :
  sets n r = true -> re_match r s = Some x -> exists v, group n x = Some v.
Proof. apply match_at_group. Qed.

Lemma finditer_loop_group n r : forall fuel p s,
  sets n r = true ->
  Forall (fun x => exists v, group n x = Some v) (finditer_loop fuel r p s).
Proof.
  induction fuel as [|f IH]; intros p s Hs; simpl; [constructor|].
  destruct (search_from r p s) as [x|] eqn:E; [|constructor].
  constructor; [eapply search_from_group; eauto|].
  destruct (m_text x); [destruct (rest (m_to x))|]; auto.
Qed.

(** ** The lookahead of the usage consolidation never raises *)

Lemma index_map_clean_cell (r : row) :
  0 < length r -> exists v, index (map clean_cell r) 0 = Some v.
Proof.
  destruct r; simpl; [lia|]. intros _. now eexists.
Qed.

Lemma faurecia_lookahead_total rows :
  exists parts, faurecia_lookahead rows = Some parts.
Proof.
  induction rows as [|r rows [parts IH]]; [now eexists|].
  cbn [faurecia_lookahead].
  destruct (length r <? 8) eqn:E; [now eexists|].
  apply Nat.ltb_ge in E.
  destruct (index_map_clean_cell r) as [v Hv]; [lia|].
  rewrite Hv. cbn [bind].
  destruct (nonempty v && is_code v); [now eexists|].
  destruct (nonempty _ && _); [|now eexists].
  rewrite IH. cbn [bind]. now eexists.
Qed.

Lemma vda_lookahead_total rows :
  exists parts, vda_lookahead rows = Some parts.
Proof.
  induction rows as [|r rows [parts IH]]; [now eexists|].
  cbn [vda_lookahead].
  destruct (length r <? 4) eqn:E; [now eexists|].
  apply Nat.ltb_ge in E.
  destruct (index_map_clean_cell r) as [v Hv]; [lia|].
  rewrite Hv. cbn [bind].
  destruct (nonempty v && is_code v); [now eexists|].
  destruct (nonempty _ && _); [|now eexists].
  rewrite IH. cbn [bind]. now eexists.
Qed.

(** The matcher on texts of the kind the source comments quote. *)

Example vda_segment_groups :
  option_map (fun x => (group 1 x, group 4 x))
    (re_search P_vda_segment
       "Segment: NAD Cons. No.: 14 Level: 1 Name and address")
  = Some (Some (L "NAD"), Some (L "Name and address")).
Proof. vm_compute. reflexivity. Qed.

Example vda_code_groups :
  option_map (fun x => (group 1 x, group 2 x))
    (re_match P_vda_code "C082 Party identification details")
  = Some (Some (L "C082"), Some (L "Party identification details")).
Proof. vm_compute. reflexivity. Qed.

Example vda_code_one_line_only :
  re_match P_vda_code (L "3035 Party" ++ [newline] ++ L "qualifier") = None.
Proof. vm_compute. reflexivity. Qed.

Example element_code_before_final_newline :
  matches P_element_code (L "3035" ++ [newline]) = true
  /\ matches P_element_code "30355" = false
  /\ matches P_group_code "C082" = true
  /\ matches P_group_code "3035" = false.
Proof. vm_compute. auto. Qed.

Example header_description_group :
  option_map (group 1)
    (re_search P_header_description
       "Segment: NAD Pos.: 0010 Level: 1 Name and address")
  = Some (Some (L "Name and address")).
Proof. vm_compute. reflexivity. Qed.

Example status_suffix_deleted :
  re_sub_delete P_status "Party qualifier M C an..3" = L "Party qualifier"
  /\ re_sub_delete P_not_used "Related numbers NOT USED" = L "Related numbers".
Proof. vm_compute. auto. Qed.

Example continuation_patterns :
  matches P_faurecia_coded "123 = Other code" = true
  /\ matches P_faurecia_coded "'123' = Other code" = false
  /\ matches P_vda_coded "'123' = Other code" = true
  /\ matches P_vda_phrase "Planning Authority" = true.
Proof. vm_compute. auto. Qed.

(** The usage of a row is computed without raising: the lookahead is
    [look] is, by [look_total].  The usage is named [usage_clean]. *)
Ltac usage_total look look_total :=
  match goal with
  | |- context [bind ?u _] =>
      let Hu := fresh "Hu" in
      assert (Hu : exists usage_clean, u = Some usage_clean);
      [ match goal with
        | |- context [if ?c then _ else _] => destruct c
        end;
        [ match goal with
          | |- context [look ?rows] =>
              let parts := fresh "parts" in
              destruct (look_total rows) as [parts ->]; cbn [bind];
              now eexists
          end
        | now eexists ]
      | let usage_clean := fresh "usage_clean" in
        destruct Hu as [usage_clean ->]; cbn [bind] ]
  end.

(** ** Dicts *)

Lemma dict_get_In {V} (d : dict V) k v : dict_get d k = Some v -> In (k, v) d.
Proof.
  induction d as [|[k' v'] d IH]; simpl; [discriminate|].
  destruct (str_eqb k' k) eqn:E.
  - apply str_eqb_eq in E. intros H. inversion H; subst. now left.
  - intros H. right. now apply IH.
Qed.

Lemma dict_get_None {V} (d : dict V) k :
  dict_get d k = None <-> ~ In k (dict_keys d).
Proof.
  induction d as [|[k' v'] d IH]; simpl; [tauto|].
  destruct (str_eqb k' k) eqn:E.
  - apply str_eqb_eq in E. split; [discriminate | intros H; exfalso; auto].
  - apply str_eqb_neq in E. rewrite IH. tauto.
Qed.

Lemma In_dict_get {V} (d : dict V) k v :
  NoDup (dict_keys d) -> In (k, v) d -> dict_get d k = Some v.
Proof.
  induction d as [|[k' v'] d IH]; simpl; [tauto|].
  intros N [H|H].
  - inversion H; subst. now rewrite str_eqb_refl.
  - inversion N; subst. destruct (str_eqb k' k) eqn:E; [|now apply IH].
    apply str_eqb_eq in E. subst. exfalso. apply H2.
    now apply (in_map fst) in H.
Qed.

Lemma dict_mem_get {V} (d : dict V) k :
  dict_mem d k = true <-> exists v, dict_get d k = Some v.
Proof.
  unfold dict_mem. destruct (dict_get d k); simpl; split; eauto;
    [discriminate | intros [v H]; discriminate].
Qed.

Lemma dict_set_absent {V} (d : dict V) k v :
  dict_get d k = None -> dict_set d k v = d ++ [(k, v)].
Proof.
  induction d as [|[k' v'] d IH]; simpl; [reflexivity|].
  destruct (str_eqb k' k); [discriminate|]. intros H. now rewrite IH.
Qed.

Lemma dict_set_keys {V} (d : dict V) k v v0 :
  dict_get d k = Some v0 -> dict_keys (dict_set d k v) = dict_keys d.
Proof.
  induction d as [|[k' v'] d IH]; simpl; [discriminate|].
  destruct (str_eqb k' k) eqn:E; simpl.
  - apply str_eqb_eq in E. now subst.
  - intros H. now rewrite IH.
Qed.

Lemma dict_set_In {V} (d : dict V) k v k' v' :
  In (k', v') (dict_set d k v) -> (k' = k /\ v' = v) \/ In (k', v') d.
Proof.
  induction d as [|[k0 v0] d IH]; simpl.
  - intros [H|[]]. inversion H; auto.
  - destruct (str_eqb k0 k); simpl; intros [H|H]; auto.
    + inversion H; auto.
    + apply IH in H. tauto.
Qed.

Lemma dict_get_set {V} (d : dict V) k v k' :
  dict_get (dict_set d k v) k' =
  if str_eqb k k' then Some v else dict_get d k'.
Proof.
  induction d as [|[k0 v0] d IH]; simpl.
  - reflexivity.
  - destruct (str_eqb k0 k) eqn:E; simpl.
    + apply str_eqb_eq in E. subst k0.
      destruct (str_eqb k k'); reflexivity.
    + destruct (str_eqb k0 k') eqn:E'.
      * apply str_eqb_eq in E'. subst k0.
        destruct (str_eqb k k') eqn:E2; [|reflexivity].
        apply str_eqb_eq in E2. subst. now rewrite str_eqb_refl in E.
      * exact IH.
Qed.

Lemma segment_refs_append d k s n desc a :
  dict_get d k = Some s ->
  Permutation
    (segment_refs (dict_set d k (Segment n desc (elements s ++ [a]))))
    (a :: segment_refs d).
Proof.
  unfold segment_refs.
  induction d as [|[k0 s0] d IH]; simpl; [discriminate|].
  destruct (str_eqb k0 k) eqn:E; simpl.
  - intros H. inversion H; subst s0.
    rewrite <- app_assoc. simpl. symmetry. apply Permutation_middle.
  - intros H. specialize (IH H).
    eapply Permutation_trans;
      [apply Permutation_app_head; exact IH | symmetry; apply Permutation_middle].
Qed.

(** ** The heap *)

Lemma list_set_length {A} (l : list A) i x : length (list_set l i x) = length l.
Proof.
  revert i. induction l; intros [|i]; simpl; auto.
Qed.

Lemma nth_error_list_set {A} (l : list A) i x j :
  nth_error (list_set l i x) j =
  if Nat.eqb j i then (if i <? length l then Some x else None)
  else nth_error l j.
Proof.
  revert i j. induction l as [|y l IH]; intros [|i] [|j]; simpl; auto.
  now destruct (Nat.eqb j i).
Qed.

Lemma group_refs_app h o : group_refs (h ++ [o]) = group_refs h ++ obj_champs o.
Proof.
  unfold group_refs. rewrite flat_map_app. simpl. now rewrite app_nil_r.
Qed.

Lemma group_refs_append h g c d champs a :
  nth_error h g = Some (OGroup c d champs) ->
  Permutation (group_refs (list_set h g (OGroup c d (champs ++ [a]))))
    (a :: group_refs h).
Proof.
  unfold group_refs. revert g.
  induction h as [|o h IH]; intros [|g]; simpl; try discriminate.
  - intros H. inversion H; subst o. simpl.
    rewrite <- app_assoc. simpl. symmetry. apply Permutation_middle.
  - intros H. specialize (IH _ H).
    eapply Permutation_trans;
      [apply Permutation_app_head; exact IH | symmetry; apply Permutation_middle].
Qed.

Lemma children_app_old h o g :
  g < length h -> children (h ++ [o]) g = children h g.
Proof.
  intros H. unfold children. now rewrite nth_error_app1.
Qed.

Lemma children_app h o g :
  obj_champs o = [] -> children (h ++ [o]) g = children h g.
Proof.
  intros Ho. unfold children.
  destruct (Nat.lt_ge_cases g (length h)) as [H|H].
  - now rewrite nth_error_app1.
  - rewrite nth_error_app2 by exact H.
    assert (nth_error h g = None) as -> by now apply nth_error_None.
    destruct (g - length h) as [|n]; simpl; [exact Ho | now destruct n].
Qed.

Lemma is_element_app h o a : is_element h a -> is_element (h ++ [o]) a.
Proof.
  intros (c & d & f & v & u & H). exists c, d, f, v, u.
  rewrite nth_error_app1; [exact H|].
  apply nth_error_Some. congruence.
Qed.

Lemma is_group_app h o g : is_group h g -> is_group (h ++ [o]) g.
Proof.
  intros (c & d & ch & H). exists c, d, ch.
  rewrite nth_error_app1; [exact H|].
  apply nth_error_Some. congruence.
Qed.

(** ** The forest is kept by every update of the parsers *)

Lemma tree_init : tree init.
Proof.
  constructor; simpl.
  - constructor.
  - tauto.
  - constructor.
  - intros a. split; [tauto | lia].
  - intros g a. unfold children. now destruct g.
Qed.

Lemma tree_with_format e f :
  tree e -> tree (Extractor (segments_dict e) f (heap e)).
Proof. intros [A B C D E]. constructor; assumption. Qed.

Lemma tree_new_segment e k desc :
  tree e -> dict_get (segments_dict e) k = None ->
  tree (with_segments e (dict_set (segments_dict e) k (Segment k desc []))).
Proof.
  intros [A B C D E] H. rewrite (dict_set_absent _ _ _ H).
  constructor; simpl.
  - unfold dict_keys. rewrite map_app. simpl.
    apply (Permutation_NoDup (Permutation_cons_append _ k)).
    constructor; [now apply dict_get_None | exact A].
  - intros k' s Hin. apply in_app_or in Hin. destruct Hin as [Hin|[Hin|[]]].
    + now apply B.
    + now inversion Hin.
  - unfold all_refs in *. simpl. unfold segment_refs in *.
    rewrite flat_map_app. simpl. now rewrite app_nil_r.
  - unfold all_refs in *. simpl. unfold segment_refs in *.
    rewrite flat_map_app. simpl. rewrite app_nil_r. exact D.
  - exact E.
Qed.

Lemma tree_emit_segment e k s o :
  tree e -> dict_get (segments_dict e) k = Some s -> obj_champs o = [] ->
  exists e',
    append_to_segment k (length (heap e)) (with_heap e (heap e ++ [o])) = Some e'
    /\ tree e'
    /\ dict_keys (segments_dict e') = dict_keys (segments_dict e)
    /\ heap e' = heap e ++ [o]
    /\ pdf_format e' = pdf_format e
    /\ segments_dict e' =
       dict_set (segments_dict e) k
         (Segment (segment s) (description s) (elements s ++ [length (heap e)])).
Proof.
  intros [A B C D E] H Ho. unfold append_to_segment. simpl. rewrite H. simpl.
  eexists. split; [reflexivity|].
  split; [|split; [|split; [|split]]]; simpl; try reflexivity.
  2: { eapply dict_set_keys; eauto. }
  assert (P : Permutation
    (all_refs (with_segments (with_heap e (heap e ++ [o]))
       (dict_set (segments_dict e) k
          (Segment (segment s) (description s)
             (elements s ++ [length (heap e)])))))
    (length (heap e) :: all_refs e)).
  { unfold all_refs. simpl. rewrite group_refs_app, Ho, app_nil_r.
    change (length (heap e) :: segment_refs (segments_dict e) ++ group_refs (heap e))
      with ((length (heap e) :: segment_refs (segments_dict e)) ++ group_refs (heap e)).
    apply Permutation_app_tail. now apply segment_refs_append. }
  constructor; simpl.
  - erewrite dict_set_keys; eauto.
  - intros k' s' Hin. apply dict_set_In in Hin. destruct Hin as [[-> ->]|Hin].
    + simpl. apply B. now apply dict_get_In.
    + now apply B.
  - apply (Permutation_NoDup (Permutation_sym P)). constructor; [|exact C].
    intros Hin. apply D in Hin. lia.
  - intros a. rewrite length_app. simpl. split.
    + intros Hin. apply (Permutation_in _ P) in Hin. destruct Hin as [<-|Hin].
      * lia.
      * apply D in Hin. lia.
    + intros Hlt. apply (Permutation_in _ (Permutation_sym P)).
      destruct (Nat.eq_dec a (length (heap e))) as [->|Hne]; [now left|].
      right. apply D. lia.
  - intros g a Hin. rewrite (children_app _ _ _ Ho) in Hin.
    apply is_element_app. eapply E; eauto.
Qed.

Lemma tree_emit_group e g c d champs ec ed ef ev eu :
  tree e -> nth_error (heap e) g = Some (OGroup c d champs) ->
  exists e',
    append_to_group g (length (heap e))
      (with_heap e (heap e ++ [OElement ec ed ef ev eu])) = Some e'
    /\ tree e'
    /\ segments_dict e' = segments_dict e
    /\ pdf_format e' = pdf_format e
    /\ heap e' =
       list_set (heap e ++ [OElement ec ed ef ev eu]) g
         (OGroup c d (champs ++ [length (heap e)])).
Proof.
  intros [A B C D E] H.
  assert (Hg : g < length (heap e)) by (apply nth_error_Some; congruence).
  unfold append_to_group, index. simpl.
  rewrite nth_error_app1 by exact Hg. rewrite H. simpl.
  eexists. split; [reflexivity|].
  split; [|split; [|split]]; simpl; try reflexivity.
  set (o := OElement ec ed ef ev eu).
  set (h' := list_set (heap e ++ [o]) g (OGroup c d (champs ++ [length (heap e)]))).
  assert (P : Permutation (segment_refs (segments_dict e) ++ group_refs h')
                (length (heap e) :: all_refs e)).
  { unfold all_refs.
    eapply Permutation_trans;
      [apply Permutation_app_head, group_refs_append;
       rewrite nth_error_app1 by exact Hg; exact H|].
    rewrite group_refs_app. simpl. rewrite app_nil_r.
    symmetry. apply Permutation_middle. }
  assert (Hn : forall a, a <> g -> nth_error h' a = nth_error (heap e ++ [o]) a).
  { intros a Ha. unfold h'. rewrite nth_error_list_set.
    destruct (Nat.eqb a g) eqn:Ea; [apply Nat.eqb_eq in Ea; contradiction|].
    reflexivity. }
  constructor; simpl; fold o; fold h'.
  - exact A.
  - exact B.
  - unfold all_refs. simpl. fold o. fold h'.
    apply (Permutation_NoDup (Permutation_sym P)). constructor; [|exact C].
    intros Hin. apply D in Hin. lia.
  - intros a. unfold all_refs. simpl. fold o. fold h'.
    unfold h'. rewrite list_set_length, length_app. simpl. fold h'. split.
    + intros Hin. apply (Permutation_in _ P) in Hin. destruct Hin as [<-|Hin].
      * lia.
      * apply D in Hin. lia.
    + intros Hlt. apply (Permutation_in _ (Permutation_sym P)).
      destruct (Nat.eq_dec a (length (heap e))) as [->|Hne]; [now left|].
      right. apply D. lia.
  - intros g' a Hin. unfold children in Hin.
    change (list_set (heap e ++ [o]) g (OGroup c d (champs ++ [length (heap e)])))
      with h' in Hin |- *.
    assert (Hel : is_element (heap e ++ [o]) a).
    {
      destruct (Nat.eq_dec g' g) as [->|Hne].
      - unfold h' in Hin. rewrite nth_error_list_set, Nat.eqb_refl in Hin.
        rewrite length_app in Hin. simpl in Hin.
        assert ((g <? length (heap e) + 1) = true) as Hlt by (apply Nat.ltb_lt; lia).
        rewrite Hlt in Hin. simpl in Hin.
        apply in_app_or in Hin. destruct Hin as [Hin|[<-|[]]].
        + apply is_element_app. apply (E g). unfold children. now rewrite H.
        + exists ec, ed, ef, ev, eu.
          rewrite nth_error_app2 by lia. now rewrite Nat.sub_diag.
      - rewrite (Hn _ Hne) in Hin. apply is_element_app. apply (E g').
        fold (children (heap e ++ [o]) g') in Hin.
        now rewrite children_app in Hin. }
    unfold is_element.
    destruct Hel as (c1 & d1 & f1 & v1 & u1 & Hel).
    exists c1, d1, f1, v1, u1. rewrite Hn; [exact Hel|].
    intros ->. rewrite nth_error_app1 in Hel by exact Hg. congruence.
Qed.

(** ** A group is in a segment's list before it is given a child *)

Lemma group_attached e g : tree e -> is_group (heap e) g -> attached e g.
Proof.
  intros [A B C D E] (c & d & champs & H).
  assert (Hin : In g (all_refs e)).
  { apply D. apply nth_error_Some. congruence. }
  unfold all_refs in Hin. apply in_app_or in Hin. destruct Hin as [Hin|Hin].
  - unfold segment_refs in Hin. apply in_flat_map in Hin.
    destruct Hin as [[k s] [H1 H2]]. now exists k, s.
  - exfalso. unfold group_refs in Hin. apply in_flat_map in Hin.
    destruct Hin as [o [H1 H2]]. apply In_nth_error in H1.
    destruct H1 as [g' H1].
    destruct (E g' g) as (c1 & d1 & f1 & v1 & u1 & H3).
    + unfold children. now rewrite H1.
    + congruence.
Qed.

Lemma adopt_ok_same_heap e e' : heap e' = heap e -> adopt_ok e e'.
Proof. intros H g a Hin Hnot. rewrite H in Hin. contradiction. Qed.

Lemma adopt_ok_leaf e e' o :
  heap e' = heap e ++ [o] -> obj_champs o = [] -> adopt_ok e e'.
Proof.
  intros H Ho g a Hin Hnot. rewrite H, children_app in Hin by exact Ho.
  contradiction.
Qed.

Lemma adopt_ok_group e e' g c d champs a o :
  tree e -> nth_error (heap e) g = Some (OGroup c d champs) ->
  obj_champs o = [] ->
  heap e' = list_set (heap e ++ [o]) g (OGroup c d (champs ++ [a])) ->
  adopt_ok e e'.
Proof.
  intros T Hg Ho H g' a' Hin Hnot.
  destruct (Nat.eq_dec g' g) as [->|Hne].
  - apply group_attached; [exact T | now exists c, d, champs].
  - exfalso. apply Hnot. rewrite H in Hin. unfold children in Hin.
    rewrite nth_error_list_set in Hin.
    destruct (Nat.eqb g' g) eqn:E; [apply Nat.eqb_eq in E; contradiction|].
    fold (children (heap e ++ [o]) g') in Hin.
    now rewrite children_app in Hin.
Qed.

(** ** The rows of a Faurecia table *)

Lemma dict_mem_set {V} (d : dict V) k v k' :
  dict_mem d k' = true -> dict_mem (dict_set d k v) k' = true.
Proof.
  unfold dict_mem. rewrite dict_get_set. now destruct (str_eqb k k').
Qed.

Lemma is_group_new h c d champs : is_group (h ++ [OGroup c d champs]) (length h).
Proof.
  exists c, d, champs. rewrite nth_error_app2 by lia. now rewrite Nat.sub_diag.
Qed.

Lemma is_group_list_set h g o c d champs :
  is_group h g -> is_group (list_set (h ++ [o]) g (OGroup c d champs)) g.
Proof.
  intros (c0 & d0 & ch0 & H). exists c, d, champs.
  rewrite nth_error_list_set, Nat.eqb_refl, length_app.
  assert (g < length h) by (apply nth_error_Some; congruence).
  assert ((g <? length h + length [o]) = true) as -> by (apply Nat.ltb_lt; lia).
  reflexivity.
Qed.

Lemma adopt_ok_refl e : adopt_ok e e.
Proof. now apply adopt_ok_same_heap. Qed.

Lemma faurecia_row_inv t i r s :
  faurecia_inv s ->
  exists s', faurecia_row t i r s = Some s' /\ faurecia_inv s'
             /\ adopt_ok (f_self s) (f_self s').
Proof.
  intros Hinv. pose proof Hinv as (T & Hseg & Hgrp).
  unfold faurecia_row.
  destruct (negb (nonempty r)); [exists s; split; [reflexivity|split; [exact Hinv|apply adopt_ok_refl]]|].
  set (row_clean := map clean_cell r).
  destruct (re_search P_segment_header (join " " row_clean)) as [x|] eqn:Ex.
  - destruct (re_search_group 1 P_segment_header _ _ eq_refl Ex) as [seg Hx].
    rewrite Hx. cbn [bind].
    assert (Hd : exists d,
      match re_search P_header_description (join " " row_clean) with
      | Some desc_match => d <- group 1 desc_match ;; Some (strip d)
      | None => Some []
      end = Some d).
    { destruct (re_search P_header_description _) as [y|] eqn:Ey; [|now eexists].
      destruct (re_search_group 1 P_header_description _ _ eq_refl Ey) as [v Hy].
      rewrite Hy. cbn [bind]. now eexists. }
    destruct Hd as [d ->]. cbn [bind].
    eexists. split; [reflexivity|].
    destruct (dict_mem (segments_dict (f_self s)) seg) eqn:Em; cbn [negb].
    + split; [split; [|split]|]; cbn; auto.
      * intros k Hk. inversion Hk; subst. exact Em.
      * intros g Hg; discriminate.
      * apply adopt_ok_refl.
    + assert (dict_get (segments_dict (f_self s)) seg = None) as Hn.
      { unfold dict_mem in Em. now destruct (dict_get _ seg). }
      split; [split; [|split]|]; cbn.
      * now apply tree_new_segment.
      * intros k Hk. inversion Hk; subst. unfold dict_mem.
        now rewrite dict_get_set, str_eqb_refl.
      * intros g Hg; discriminate.
      * now apply adopt_ok_same_heap.
  - destruct (f_current_segment s) as [cur|] eqn:Ec; [|exists s; split; [reflexivity|split; [exact Hinv|apply adopt_ok_refl]]].
    destruct (proj1 (dict_mem_get _ _) (Hseg _ eq_refl)) as [sd Hsd].
    usage_total faurecia_lookahead faurecia_lookahead_total.
    destruct (matches P_group_code (cell_at 0 row_clean)).
    + unfold alloc.
      destruct (tree_emit_segment _ _ _
                  (OGroup (cell_at 0 row_clean)
                     (clean_description (Some (cell_at 1 row_clean))) [])
                  T Hsd eq_refl)
        as (e' & -> & T' & Hk & Hh & _ & Hdict).
      cbn [bind]. eexists. split; [reflexivity|].
      split; [split; [|split]|]; cbn; auto.
      * intros k Hk'. inversion Hk'; subst k. rewrite Hdict.
        apply dict_mem_set. now apply Hseg.
      * intros g Hg. inversion Hg; subst g. rewrite Hh. apply is_group_new.
      * eapply adopt_ok_leaf; [exact Hh | reflexivity].
    + destruct (matches P_element_code (cell_at 0 row_clean));
        [|exists s; split; [reflexivity|split; [exact Hinv|apply adopt_ok_refl]]].
      unfold alloc.
      destruct (f_current_group s) as [g|] eqn:Eg.
      * destruct (Hgrp _ eq_refl) as (c & d & champs & Hg).
        match goal with
        | |- context [append_to_group g _ (with_heap _ (_ ++ [OElement ?a ?b ?c' ?d' ?e'']))] =>
            destruct (tree_emit_group _ _ _ _ _ a b c' d' e'' T Hg)
              as (e' & -> & T' & Hd' & _ & Hh)
        end.
        cbn [bind]. eexists. split; [reflexivity|].
        split; [split; [|split]|]; cbn; auto.
        -- intros k Hk'. inversion Hk'; subst k. rewrite Hd'. now apply Hseg.
        -- intros g' Hg'. inversion Hg'; subst g'. rewrite Hh.
           apply is_group_list_set. now exists c, d, champs.
        -- eapply adopt_ok_group; [exact T | exact Hg | | exact Hh]. reflexivity.
      * match goal with
        | |- context [append_to_segment cur _ (with_heap _ (_ ++ [?o]))] =>
            destruct (tree_emit_segment _ _ _ o T Hsd eq_refl)
              as (e' & -> & T' & Hk & Hh & _ & Hdict)
        end.
        cbn [bind]. eexists. split; [reflexivity|].
        split; [split; [|split]|]; cbn; auto.
        -- intros k Hk'. inversion Hk'; subst k. rewrite Hdict.
           apply dict_mem_set. now apply Hseg.
        -- intros g Hg; discriminate.
        -- eapply adopt_ok_leaf; [exact Hh | reflexivity].
Qed.

Lemma faurecia_rows_inv t rows : forall i s,
  faurecia_inv s ->
  exists s', faurecia_rows t i rows s = Some s' /\ faurecia_inv s'.
Proof.
  induction rows as [|r rows IH]; intros i s Hs; simpl; [now exists s|].
  destruct (faurecia_row_inv t i r s Hs) as (s1 & -> & H1 & _). cbn [bind].
  now apply IH.
Qed.

Lemma parse_faurecia_table_tree t self :
  tree self ->
  exists self', _parse_faurecia_table t self = Some self' /\ tree self'.
Proof.
  intros T. unfold _parse_faurecia_table.
  destruct (faurecia_rows_inv t t 0 (FState self None None))
    as (s' & -> & T' & _).
  - split; [exact T | split; intros x Hx; discriminate].
  - cbn [bind]. now exists (f_self s').
Qed.

Lemma for_each_inv {A S} (P : S -> Prop) (Q : A -> Prop)
  (body : A -> S -> option S) l :
  (forall x s, Q x -> P s -> exists s', body x s = Some s' /\ P s') ->
  Forall Q l ->
  forall s, P s -> exists s', for_each body l s = Some s' /\ P s'.
Proof.
  intros Hb Hl. induction Hl as [|x l Hx Hl IH]; intros s Hs; simpl.
  - now exists s.
  - destruct (Hb x s Hx Hs) as (s1 & -> & H1). cbn [bind]. now apply IH.
Qed.

Lemma Forall_True {A} (l : list A) : Forall (fun _ => True) l.
Proof. induction l; constructor; auto. Qed.

Lemma faurecia_table_tree t self :
  tree self -> exists self', faurecia_table t self = Some self' /\ tree self'.
Proof.
  intros T. unfold faurecia_table.
  destruct (negb (nonempty t) || (length t <? 5)); [now exists self|].
  now apply parse_faurecia_table_tree.
Qed.

Lemma extract_faurecia_format_tree doc self :
  tree self ->
  exists self', extract_faurecia_format doc self = Some self' /\ tree self'.
Proof.
  intros T. unfold extract_faurecia_format.
  apply (for_each_inv tree (fun _ => True)); [|apply Forall_True|exact T].
  intros p s _ Hs. unfold faurecia_page.
  apply (for_each_inv tree (fun _ => True)); [|apply Forall_True|exact Hs].
  intros t s0 _ Hs0. now apply faurecia_table_tree.
Qed.

(** ** The rows of a VDA table *)

Lemma vda_row_inv t last i r s :
  vda_inv last s ->
  exists s', vda_row t last i r s = Some s' /\ vda_inv last s'
             /\ adopt_ok (v_self s) (v_self s').
Proof.
  intros Hinv. pose proof Hinv as (T & Hseg & Hgrp).
  assert (Hsame : exists s', Some s = Some s' /\ vda_inv last s'
                             /\ adopt_ok (v_self s) (v_self s')).
  { exists s. split; [reflexivity | split; [exact Hinv | apply adopt_ok_refl]]. }
  unfold vda_row.
  destruct (negb (nonempty r) || (length r <? 2)); [exact Hsame|].
  set (row_clean := map clean_cell r).
  destruct (negb (nonempty (cell_at 0 row_clean)) || _ || _); [exact Hsame|].
  destruct (re_match P_vda_code (cell_at 0 row_clean)) as [x|] eqn:Ex;
    [|exact Hsame].
  destruct (re_match_group 1 P_vda_code _ _ eq_refl Ex) as [code ->].
  destruct (re_match_group 2 P_vda_code _ _ eq_refl Ex) as [desc ->].
  cbn [bind].
  destruct (proj1 (dict_mem_get _ _) Hseg) as [sd Hsd].
  usage_total vda_lookahead vda_lookahead_total.
  destruct (matches P_group_code code).
  - unfold alloc.
    destruct (tree_emit_segment _ _ _
                (OGroup code (clean_description (Some (strip desc))) [])
                T Hsd eq_refl)
      as (e' & -> & T' & Hk & Hh & _ & Hdict).
    cbn [bind]. eexists. split; [reflexivity|].
    split; [split; [|split]|]; cbn; auto.
    + rewrite Hdict. now apply dict_mem_set.
    + intros g Hg. inversion Hg; subst g. rewrite Hh. apply is_group_new.
    + eapply adopt_ok_leaf; [exact Hh | reflexivity].
  - destruct (matches P_element_code code); [|exact Hsame].
    unfold alloc.
    destruct (v_current_group s) as [g|] eqn:Eg.
    + destruct (Hgrp _ eq_refl) as (c & d & champs & Hg).
      match goal with
      | |- context [append_to_group g _ (with_heap _ (_ ++ [OElement ?a ?b ?c' ?d' ?e'']))] =>
          destruct (tree_emit_group _ _ _ _ _ a b c' d' e'' T Hg)
            as (e' & -> & T' & Hd' & _ & Hh)
      end.
      cbn [bind]. eexists. split; [reflexivity|].
      split; [split; [|split]|]; cbn; auto.
      * now rewrite Hd'.
      * intros g' Hg'. inversion Hg'; subst g'. rewrite Hh.
        apply is_group_list_set. now exists c, d, champs.
      * eapply adopt_ok_group; [exact T | exact Hg | | exact Hh]. reflexivity.
    + match goal with
      | |- context [append_to_segment last _ (with_heap _ (_ ++ [?o]))] =>
          destruct (tree_emit_segment _ _ _ o T Hsd eq_refl)
            as (e' & -> & T' & Hk & Hh & _ & Hdict)
      end.
      cbn [bind]. eexists. split; [reflexivity|].
      split; [split; [|split]|]; cbn; auto.
      * rewrite Hdict. now apply dict_mem_set.
      * intros g Hg; discriminate.
      * eapply adopt_ok_leaf; [exact Hh | reflexivity].
Qed.

Lemma vda_rows_inv t last rows : forall i s,
  vda_inv last s ->
  exists s', vda_rows t last i rows s = Some s' /\ vda_inv last s'.
Proof.
  induction rows as [|r rows IH]; intros i s Hs; simpl; [now exists s|].
  destruct (vda_row_inv t last i r s Hs) as (s1 & -> & H1 & _). cbn [bind].
  now apply IH.
Qed.

Lemma last_item_keys {V} (d : dict V) :
  nonempty d = true ->
  exists k, last_item (dict_keys d) = Some k /\ In k (dict_keys d).
Proof.
  intros H. unfold last_item.
  destruct (rev (dict_keys d)) as [|k l] eqn:E.
  - apply (f_equal (@rev str)) in E. rewrite rev_involutive in E. simpl in E.
    destruct d; [discriminate | discriminate].
  - exists k. split; [reflexivity|]. apply in_rev. rewrite E. now left.
Qed.

Lemma In_keys_mem {V} (d : dict V) k : In k (dict_keys d) -> dict_mem d k = true.
Proof.
  intros H. unfold dict_mem. destruct (dict_get d k) eqn:E; [reflexivity|].
  apply dict_get_None in E. contradiction.
Qed.

Lemma parse_vda_table_tree t self :
  tree self ->
  exists self', _parse_vda_table t self = Some self' /\ tree self'.
Proof.
  intros T. unfold _parse_vda_table.
  destruct (nonempty (segments_dict self)) eqn:E; cbn [negb]; [|now exists self].
  destruct (last_item_keys _ E) as (k & -> & Hk). cbn [bind].
  destruct (vda_rows_inv t k t 0 (VState self None)) as (s' & -> & T' & _).
  - split; [exact T | split; [now apply In_keys_mem | intros g Hg; discriminate]].
  - cbn [bind]. now exists (v_self s').
Qed.

Lemma vda_table_tree t self :
  tree self -> exists self', vda_table t self = Some self' /\ tree self'.
Proof.
  intros T. unfold vda_table.
  destruct (negb (nonempty t) || (length t <? 3)); [now exists self|].
  now apply parse_vda_table_tree.
Qed.

Lemma vda_header_tree x self :
  (exists v, group 1 x = Some v) /\ (exists v, group 4 x = Some v) ->
  tree self -> exists self', vda_header x self = Some self' /\ tree self'.
Proof.
  intros [[v1 H1] [v4 H4]] T. unfold vda_header. rewrite H1, H4. cbn [bind].
  destruct (dict_mem (segments_dict self) v1) eqn:E; cbn [negb];
    [now exists self|].
  eexists. split; [reflexivity|]. apply tree_new_segment; [exact T|].
  unfold dict_mem in E. now destruct (dict_get _ v1).
Qed.

Lemma vda_page_tree p self :
  tree self -> exists self', vda_page p self = Some self' /\ tree self'.
Proof.
  intros T. unfold vda_page.
  destruct (extract_text p) as [[|c text]|]; try (now exists self).
  destruct (for_each_inv tree
              (fun x => (exists v, group 1 x = Some v)
                        /\ (exists v, group 4 x = Some v))
              vda_header (re_finditer P_vda_segment (c :: text)))
    with (s := self) as (s1 & -> & T1); [| |exact T|].
  - intros x s Hx Hs. now apply vda_header_tree.
  - apply Forall_forall. intros x Hx. split.
    + pose proof (finditer_loop_group 1 P_vda_segment
                    (S (length (c :: text))) [] (c :: text) eq_refl) as F.
      rewrite Forall_forall in F. now apply F.
    + pose proof (finditer_loop_group 4 P_vda_segment
                    (S (length (c :: text))) [] (c :: text) eq_refl) as F.
      rewrite Forall_forall in F. now apply F.
  - cbn [bind].
    apply (for_each_inv tree (fun _ => True)); [|apply Forall_True|exact T1].
    intros t s0 _ Hs0. now apply vda_table_tree.
Qed.

Lemma extract_vda4932_format_tree doc self :
  tree self ->
  exists self', extract_vda4932_format doc self = Some self' /\ tree self'.
Proof.
  intros T. unfold extract_vda4932_format.
  apply (for_each_inv tree (fun _ => True)); [|apply Forall_True|exact T].
  intros p s _ Hs. now apply vda_page_tree.
Qed.

(** ** Enrichment and the whole extraction *)

Lemma enrich_keys d : dict_keys (map enrich_segment d) = dict_keys d.
Proof.
  unfold dict_keys. rewrite map_map. apply map_ext. now intros [k s].
Qed.

Lemma enrich_refs d : segment_refs (map enrich_segment d) = segment_refs d.
Proof.
  unfold segment_refs. induction d as [|[k s] d IH]; simpl; [reflexivity|].
  now rewrite IH.
Qed.

Lemma add_standard_descriptions_tree self :
  tree self -> tree (add_standard_descriptions self).
Proof.
  intros [A B C D E]. constructor; simpl.
  - now rewrite enrich_keys.
  - intros k s Hin. apply in_map_iff in Hin. destruct Hin as [[k0 s0] [H1 H2]].
    simpl in H1. inversion H1; subst. simpl. now apply B.
  - unfold all_refs in *. simpl. now rewrite enrich_refs.
  - unfold all_refs in *. simpl. rewrite enrich_refs. exact D.
  - exact E.
Qed.

Lemma extract_all_total doc :
  exists self,
    extract_all doc init = Some (self, dict_values (segments_dict self))
    /\ tree self.
Proof.
  unfold extract_all.
  set (e0 := Extractor (segments_dict init) (Some (detect_pdf_format doc))
               (heap init)).
  assert (T0 : tree e0) by (apply tree_with_format, tree_init).
  assert (H : exists self,
    match detect_pdf_format doc with
    | vda4932 => extract_vda4932_format doc e0
    | faurecia => extract_faurecia_format doc e0
    end = Some self /\ tree self).
  { destruct (detect_pdf_format doc);
      [now apply extract_faurecia_format_tree
      | now apply extract_vda4932_format_tree]. }
  destruct H as (self & -> & T). cbn [bind].
  eexists. split; [reflexivity|]. now apply add_standard_descriptions_tree.
Qed.

(** ** The order of strings and [sorted] *)

Lemma code_inj a b : code a = code b -> a = b.
Proof.
  unfold code. intros H.
  rewrite <- (ascii_nat_embedding a), <- (ascii_nat_embedding b).
  now rewrite H.
Qed.

Lemma str_ltb_irrefl a : str_ltb a a = false.
Proof.
  induction a as [|x a IH]; simpl; [reflexivity|].
  now rewrite Nat.ltb_irrefl.
Qed.

Lemma str_ltb_trans a : forall b c,
  str_ltb a b = true -> str_ltb b c = true -> str_ltb a c = true.
Proof.
  induction a as [|x a IH]; intros [|y b] [|z c]; simpl; try discriminate; auto.
  destruct (code x <? code y) eqn:E1.
  - intros _. apply Nat.ltb_lt in E1.
    destruct (code y <? code z) eqn:E2.
    + apply Nat.ltb_lt in E2.
      assert ((code x <? code z) = true) as -> by (apply Nat.ltb_lt; lia).
      reflexivity.
    + destruct (code z <? code y) eqn:E3; [discriminate|].
      apply Nat.ltb_ge in E2, E3.
      assert ((code x <? code z) = true) as -> by (apply Nat.ltb_lt; lia).
      reflexivity.
  - destruct (code y <? code x) eqn:E2; [discriminate|].
    apply Nat.ltb_ge in E1, E2. assert (Hxy : code x = code y) by lia.
    rewrite Hxy. intros H1.
    destruct (code y <? code z); [reflexivity|].
    destruct (code z <? code y); [discriminate|]. now apply IH.
Qed.

Lemma str_ltb_total a : forall b,
  str_ltb a b = false -> str_ltb b a = false -> a = b.
Proof.
  induction a as [|x a IH]; intros [|y b]; simpl; try discriminate; auto.
  destruct (code x <? code y) eqn:E1; [discriminate|].
  destruct (code y <? code x) eqn:E2; [discriminate|].
  intros H1 H2. apply Nat.ltb_ge in E1, E2.
  assert (Hxy : code x = code y) by lia.
  apply code_inj in Hxy. subst y. f_equal. now apply IH.
Qed.

Lemma insert_sorted_perm k l : Permutation (insert_sorted k l) (k :: l).
Proof.
  induction l as [|x l IH]; simpl; [reflexivity|].
  destruct (str_leb k x); [reflexivity|].
  eapply Permutation_trans; [apply perm_skip, IH | apply perm_swap].
Qed.

Lemma sorted_perm l : Permutation (sorted l) l.
Proof.
  induction l as [|k l IH]; simpl; [reflexivity|].
  eapply Permutation_trans; [apply insert_sorted_perm | now apply perm_skip].
Qed.

Lemma insert_sorted_strict k l :
  ~ In k l -> StronglySorted lt_str l -> StronglySorted lt_str (insert_sorted k l).
Proof.
  intros Hk Hl. induction Hl as [|x l Hl IH Hx]; simpl.
  - repeat constructor.
  - assert (Hne : k <> x) by (intros ->; apply Hk; now left).
    assert (Hkl : ~ In k l) by (intros H; apply Hk; now right).
    unfold str_leb. destruct (str_ltb x k) eqn:E; simpl.
    + constructor; [now apply IH|].
      apply Forall_forall. intros y Hy.
      apply (Permutation_in _ (insert_sorted_perm k l)) in Hy.
      destruct Hy as [<-|Hy]; [exact E|].
      rewrite Forall_forall in Hx. now apply Hx.
    + assert (Hlt : lt_str k x).
      { unfold lt_str. destruct (str_ltb k x) eqn:E2; [reflexivity|].
        exfalso. apply Hne. now apply str_ltb_total. }
      constructor; [now constructor|]. constructor; [exact Hlt|].
      rewrite Forall_forall in *. intros y Hy.
      eapply str_ltb_trans; [exact Hlt | now apply Hx].
Qed.

Lemma sorted_strict l : NoDup l -> StronglySorted lt_str (sorted l).
Proof.
  induction 1 as [|k l Hk Hl IH]; simpl; [constructor|].
  apply insert_sorted_strict; [|exact IH].
  intros H. apply Hk. now apply (Permutation_in _ (sorted_perm l)).
Qed.

(** ** What is written *)

Lemma all_some_map {A B} (f : A -> option B) l :
  (forall x, In x l -> exists y, f x = Some y) ->
  exists ys, all_some (map f l) = Some ys /\ Forall2 (fun x y => f x = Some y) l ys.
Proof.
  induction l as [|x l IH]; intros H; simpl.
  - exists []. split; [reflexivity | constructor].
  - destruct (H x (or_introl eq_refl)) as [y Hy].
    destruct IH as (ys & Hys & F); [intros z Hz; apply H; now right|].
    rewrite Hy, Hys. cbn [bind]. exists (y :: ys). split; [reflexivity|].
    now constructor.
Qed.

Lemma dump_element_total h a :
  is_element h a -> exists j, dump_element h a = Some j.
Proof.
  intros (c & d & f & v & u & H). unfold dump_element, index. rewrite H.
  cbn [bind]. now eexists.
Qed.

Lemma dump_segment_total e k s :
  tree e -> In (k, s) (segments_dict e) ->
  exists j, dump_segment (heap e) s = Some j /\ j_segment j = k.
Proof.
  intros T Hin. unfold dump_segment.
  destruct (all_some_map (dump_item (heap e)) (elements s)) as (items & -> & _).
  - intros a Ha.
    assert (Hlt : a < length (heap e)).
    { apply (tree_cover T). unfold all_refs. apply in_or_app. left.
      unfold segment_refs. apply in_flat_map. now exists (k, s). }
    apply nth_error_Some in Hlt.
    destruct (nth_error (heap e) a) as [o|] eqn:Eo; [|contradiction].
    unfold dump_item, index. rewrite Eo. cbn [bind].
    destruct o as [c d f v u|c d champs]; [now eexists|].
    destruct (all_some_map (dump_element (heap e)) champs) as (es & -> & _).
    + intros a' Ha'. apply dump_element_total. apply (tree_leaves T a).
      unfold children. now rewrite Eo.
    + cbn [bind]. now eexists.
  - cbn [bind]. eexists. split; [reflexivity|]. simpl.
    now apply (tree_names T).
Qed.

Lemma Forall2_map_eq {A B C} (f : A -> C) (g : B -> C) l l' :
  Forall2 (fun x y => f x = g y) l l' -> map f l = map g l'.
Proof. induction 1; simpl; congruence. Qed.

Lemma Forall2_In_r {A B} (R : A -> B -> Prop) l l' y :
  Forall2 R l l' -> In y l' -> exists x, In x l /\ R x y.
Proof.
  induction 1 as [|x y' l l' Hxy F IH]; simpl; [tauto|].
  intros [<-|H].
  - exists x. auto.
  - destruct (IH H) as (x' & H1 & H2). exists x'. auto.
Qed.

Lemma save_to_json_total e :
  tree e ->
  exists out, save_to_json e = Some out
    /\ map j_segment out = sorted (dict_keys (segments_dict e)).
Proof.
  intros T. unfold save_to_json.
  destruct (all_some_map (dict_get (segments_dict e))
              (sorted (dict_keys (segments_dict e)))) as (segs & -> & F1).
  { intros k Hk. apply (Permutation_in _ (sorted_perm _)) in Hk.
    destruct (dict_get (segments_dict e) k) eqn:E; [now eexists|].
    apply dict_get_None in E. contradiction. }
  cbn [bind].
  destruct (all_some_map (dump_segment (heap e)) segs) as (out & -> & F2).
  { intros s Hs.
    destruct (Forall2_In_r _ _ _ _ F1 Hs) as (k & _ & Hk).
    apply dict_get_In in Hk.
    destruct (dump_segment_total e k s T Hk) as (j & Hj & _). now exists j. }
  exists out. split; [reflexivity|].
  symmetry.
  transitivity (map segment segs).
  - rewrite <- (map_id (sorted _)).
    apply (Forall2_map_eq (fun k => k) segment).
    eapply Forall2_impl; [|exact F1]. intros k s Hk. simpl.
    apply dict_get_In in Hk. symmetry. now apply (tree_names T).
  - apply Forall2_map_eq. eapply Forall2_impl; [|exact F2].
    intros s j Hj. unfold dump_segment in Hj.
    destruct (all_some _); [|discriminate]. cbn [bind] in Hj.
    now inversion Hj.
Qed.

(** ** [strip] *)

Lemma lstrip_head s :
  lstrip s = [] \/ exists c t, lstrip s = c :: t /\ isspace c = false.
Proof.
  induction s as [|c s IH]; simpl; [now left|].
  destruct (isspace c) eqn:E; [exact IH|]. right. now exists c, s.
Qed.

Lemma rstrip_rstrip s : rstrip (rstrip s) = rstrip s.
Proof.
  induction s as [|c s IH]; simpl; [reflexivity|].
  destruct (rstrip s) as [|d r] eqn:E.
  - destruct (isspace c) eqn:Ec; simpl; [reflexivity | now rewrite Ec].
  - change (rstrip (c :: d :: r)) with
      (match rstrip (d :: r) with
       | [] => if isspace c then [] else [c]
       | x :: l => c :: x :: l
       end).
    now rewrite IH.
Qed.

Lemma rstrip_head c t :
  isspace c = false -> exists r, rstrip (c :: t) = c :: r.
Proof.
  intros H. simpl. destruct (rstrip t); rewrite ?H; now eexists.
Qed.

Lemma strip_strip s : strip (strip s) = strip s.
Proof.
  unfold strip. destruct (lstrip_head s) as [->|(c & t & -> & Hc)].
  - reflexivity.
  - destruct (rstrip_head c t Hc) as [r Hr]. rewrite Hr.
    assert (lstrip (c :: r) = c :: r) as -> by (simpl; now rewrite Hc).
    rewrite <- Hr. apply rstrip_rstrip.
Qed.

Lemma lstrip_length s : length (lstrip s) <= length s.
Proof.
  induction s as [|c s IH]; simpl; [lia|].
  destruct (isspace c); simpl; lia.
Qed.

Lemma rstrip_length s : length (rstrip s) <= length s.
Proof.
  induction s as [|c s IH]; simpl; [lia|].
  destruct (rstrip s); [destruct (isspace c)|]; simpl in *; lia.
Qed.

Lemma strip_length s : length (strip s) <= length s.
Proof.
  unfold strip. pose proof (rstrip_length (lstrip s)).
  pose proof (lstrip_length s). lia.
Qed.

(** ** Deleting the matches of a pattern *)

Lemma rep_loop_nonnull ma g lo hi :
  sound ma ->
  (forall st k res, ma st k = Some res ->
     exists st', reaches st st' /\ length (rest st') < length (rest st)
                 /\ k st' = Some res) ->
  0 < lo ->
  forall fuel st k res,
    rep_loop ma g lo hi k fuel 0 st = Some res ->
    exists st', reaches st st' /\ length (rest st') < length (rest st)
                /\ k st' = Some res.
Proof.
  intros Hs Hma Hlo fuel st k res H.
  assert (Hstop : (lo <=? 0) = false) by (apply Nat.leb_gt; exact Hlo).
  destruct fuel as [|f]; simpl in H; rewrite Hstop in H.
  - destruct g; discriminate.
  - assert (Hmore :
      (if below 0 hi
       then ma st (fun st' =>
              if (length (rest st') <? length (rest st)) || (0 <? lo)
              then rep_loop ma g lo hi k f 1 st' else None)
       else None) = Some res).
    { destruct g; [|exact H].
      destruct (if below 0 hi then _ else None); [exact H | discriminate]. }
    destruct (below 0 hi); [|discriminate].
    apply Hma in Hmore. destruct Hmore as (st1 & R1 & L1 & K1).
    destruct ((length (rest st1) <? length (rest st)) || (0 <? lo));
      [|discriminate].
    apply (rep_loop_sound _ _ _ _ Hs) in K1. destruct K1 as (st2 & R2 & K2).
    exists st2. split; [eapply reaches_trans; eauto|]. split; [|exact K2].
    apply reaches_length in R2. lia.
Qed.

Lemma m_nonnull r :
  nonnull r = true ->
  forall st k res, m r st k = Some res ->
    exists st', reaches st st' /\ length (rest st') < length (rest st)
                /\ k st' = Some res.
Proof.
  induction r; intros Hn st k res H; simpl in Hn; try discriminate.
  - (* Chr *)
    simpl in H. destruct (rest st) as [|c t] eqn:R; [discriminate|].
    destruct (cset_mem cs c); [|discriminate].
    exists (advance c t st). split; [now apply reaches_advance|].
    split; [simpl; lia | exact H].
  - (* Cat *)
    simpl in H. apply orb_true_iff in Hn. destruct Hn as [Hn|Hn].
    + apply (IHr1 Hn) in H. destruct H as (st1 & R1 & L1 & H).
      apply m_sound in H. destruct H as (st2 & R2 & H).
      exists st2. split; [eapply reaches_trans; eauto|]. split; [|exact H].
      apply reaches_length in R2. lia.
    + apply m_sound in H. destruct H as (st1 & R1 & H).
      apply (IHr2 Hn) in H. destruct H as (st2 & R2 & L2 & H).
      exists st2. split; [eapply reaches_trans; eauto|]. split; [|exact H].
      apply reaches_length in R1. lia.
  - (* Alt *)
    simpl in H. apply andb_true_iff in Hn. destruct Hn as [Ha Hb].
    destruct (m r1 st k) eqn:E.
    + inversion H; subst. now apply IHr1.
    + now apply IHr2.
  - (* Rep *)
    simpl in H. apply andb_true_iff in Hn. destruct Hn as [Hlo Ha].
    apply Nat.ltb_lt in Hlo.
    eapply rep_loop_nonnull; eauto using m_sound.
  - (* Grp *)
    simpl in H. apply (IHr Hn) in H. destruct H as (st1 & R1 & L1 & H).
    exists (set_cap n (consumed st st1) st1).
    split; [eapply reaches_trans; [exact R1 | apply reaches_set_cap]|].
    split; [exact L1 | exact H].
Qed.

(** A match of the search, in terms of the text: what is skipped, what is
    matched and what remains. *)
Lemma consumed_reaches st st' :
  reaches st st' -> exists w, consumed st st' = w /\ rest st = w ++ rest st'
                              /\ pre st' = rev w ++ pre st.
Proof.
  intros [_ [w [P R]]]. exists w. split; [|split; assumption].
  unfold consumed. rewrite P, length_app, length_rev.
  replace (length w + length (pre st) - length (pre st)) with (length (rev w))
    by (rewrite length_rev; lia).
  rewrite firstn_app, Nat.sub_diag, firstn_all. simpl.
  now rewrite app_nil_r, rev_involutive.
Qed.

Lemma match_at_spec r p s x :
  match_at r p s = Some x ->
  m_from x = MState p s [] /\ reaches (m_from x) (m_to x).
Proof.
  unfold match_at. destruct (m r (MState p s []) Some) as [st'|] eqn:E;
    [|discriminate].
  intros H. inversion H; subst x. simpl. split; [reflexivity|].
  apply m_sound in E. destruct E as (st1 & R & E). now inversion E; subst.
Qed.

Lemma search_from_spec r s : forall p x,
  search_from r p s = Some x ->
  exists sk w,
    s = sk ++ w ++ rest (m_to x)
    /\ skipped p x = sk /\ m_text x = w
    /\ pre (m_to x) = rev w ++ rev sk ++ p
    /\ match_at r (rev sk ++ p) (w ++ rest (m_to x)) = Some x.
Proof.
  induction s as [|c s IH]; intros p x H; simpl in H.
  - destruct (match_at r p []) eqn:E; [|discriminate].
    inversion H; subst r0. destruct (match_at_spec _ _ _ _ E) as [F R].
    destruct (consumed_reaches _ _ R) as (w & Hw & Hr & Hp).
    rewrite F in Hr, Hp. simpl in Hr, Hp.
    exists [], w. unfold skipped, m_text. rewrite F. simpl.
    rewrite Nat.sub_diag. simpl. rewrite <- F. repeat split; auto.
    rewrite <- Hr. exact E.
  - destruct (match_at r p (c :: s)) eqn:E.
    + inversion H; subst r0. destruct (match_at_spec _ _ _ _ E) as [F R].
      destruct (consumed_reaches _ _ R) as (w & Hw & Hr & Hp).
      rewrite F in Hr, Hp. simpl in Hr, Hp.
      exists [], w. unfold skipped, m_text. rewrite F. simpl.
      rewrite Nat.sub_diag. simpl. rewrite <- F. repeat split; auto.
      rewrite <- Hr. exact E.
    + apply IH in H. destruct H as (sk & w & Hs & Hk & Hw & Hp & Hm).
      exists (c :: sk), w. simpl.
      assert (Hpre : pre (m_from x) = rev sk ++ c :: p).
      { apply match_at_spec in Hm. destruct Hm as [F _]. now rewrite F. }
      repeat split.
      * now rewrite Hs.
      * unfold skipped in *. rewrite Hpre in *.
        rewrite length_app, length_rev. simpl.
        replace (length sk + S (length p) - length p) with (length (rev (c :: sk)))
          by (simpl; rewrite length_app, length_rev; simpl; lia).
        replace (rev sk ++ c :: p) with (rev (c :: sk) ++ p)
          by (simpl; now rewrite <- app_assoc).
        rewrite firstn_app, Nat.sub_diag, firstn_all. simpl.
        rewrite app_nil_r. rewrite rev_app_distr. simpl.
        now rewrite rev_involutive.
      * exact Hw.
      * rewrite Hp. now rewrite <- !app_assoc.
      * rewrite <- app_assoc. exact Hm.
Qed.

Lemma sub_loop_length r : forall fuel p s,
  length (sub_loop fuel r p s) <= length s.
Proof.
  induction fuel as [|f IH]; intros p s; simpl; [lia|].
  destruct (search_from r p s) as [x|] eqn:E; [|lia].
  destruct (search_from_spec _ _ _ _ E) as (sk & w & Hs & -> & -> & _).
  rewrite Hs, !length_app.
  destruct w as [|c w]; [destruct (rest (m_to x)) as [|c t]|]; simpl.
  - lia.
  - pose proof (IH (c :: pre (m_to x)) t). lia.
  - pose proof (IH (pre (m_to x)) (rest (m_to x))). lia.
Qed.

Lemma re_sub_delete_length r s : length (re_sub_delete r s) <= length s.
Proof. apply sub_loop_length. Qed.

Lemma re_sub_delete_no_match r s :
  re_search r s = None -> re_sub_delete r s = s.
Proof.
  unfold re_sub_delete, re_search. simpl. now intros ->.
Qed.

Lemma re_sub_delete_shorter r s x :
  nonnull r = true -> re_search r s = Some x ->
  length (re_sub_delete r s) < length s.
Proof.
  unfold re_sub_delete, re_search. intros Hn E. simpl. rewrite E.
  destruct (search_from_spec _ _ _ _ E) as (sk & w & Hs & -> & -> & _ & Hm).
  unfold match_at in Hm.
  destruct (m r _ Some) as [st'|] eqn:Em; [|discriminate].
  apply (f_equal (option_map m_to)) in Hm. simpl in Hm.
  inversion Hm as [Hto]. clear Hm.
  apply (m_nonnull _ Hn) in Em. destruct Em as (st1 & R & Lt & K).
  inversion K; subst st1. simpl in Lt. rewrite length_app, Hto in Lt.
  destruct w as [|c w]; [simpl in Lt; lia|].
  rewrite Hs at 2. rewrite !length_app.
  pose proof (sub_loop_length r (length s) (pre (m_to x)) (rest (m_to x))).
  simpl. lia.
Qed.

(** ** Rows the parsers do not recognise *)

Lemma is_code_false code :
  is_code code = false ->
  matches P_group_code code = false /\ matches P_element_code code = false.
Proof.
  unfold is_code. intros H. apply orb_false_iff in H. tauto.
Qed.

Lemma faurecia_row_unrecognised t i r s :
  faurecia_unrecognised r = true -> faurecia_row t i r s = Some s.
Proof.
  unfold faurecia_unrecognised, faurecia_row, found. intros H.
  apply andb_true_iff in H. destruct H as [H1 H2].
  apply negb_true_iff in H1, H2. apply is_code_false in H2.
  destruct H2 as [Hg He].
  destruct (negb (nonempty r)); [reflexivity|].
  destruct (re_search P_segment_header _); [discriminate|].
  destruct (f_current_segment s); [|reflexivity].
  usage_total faurecia_lookahead faurecia_lookahead_total.
  now rewrite Hg, He.
Qed.

Lemma faurecia_row_before_header t i r s :
  f_current_segment s = None ->
  found P_segment_header (join " " (map clean_cell r)) = false ->
  faurecia_row t i r s = Some s.
Proof.
  unfold faurecia_row, found. intros Hc H.
  destruct (negb (nonempty r)); [reflexivity|].
  destruct (re_search P_segment_header _); [discriminate|].
  now rewrite Hc.
Qed.

Lemma vda_row_unrecognised t last i r s :
  vda_unrecognised r = true -> vda_row t last i r s = Some s.
Proof.
  unfold vda_unrecognised, vda_row. intros H.
  destruct (length r <? 2); [now rewrite orb_true_r|].
  rewrite orb_false_r. destruct (negb (nonempty r)); [reflexivity|].
  cbn [orb] in H |- *.
  destruct (negb (nonempty (cell_at 0 (map clean_cell r))) || _ || _);
    [reflexivity|].
  cbn [orb] in H.
  destruct (re_match P_vda_code (cell_at 0 (map clean_cell r))) as [x|] eqn:Ex;
    [|reflexivity].
  destruct (re_match_group 1 P_vda_code _ _ eq_refl Ex) as [code Hc].
  destruct (re_match_group 2 P_vda_code _ _ eq_refl Ex) as [desc Hd].
  rewrite Hc in H |- *. rewrite Hd. cbn [bind].
  apply negb_true_iff in H. apply is_code_false in H. destruct H as [Hg He].
  usage_total vda_lookahead vda_lookahead_total.
  now rewrite Hg, He.
Qed.

(** ** Usage consolidation in a Faurecia table *)

Lemma skipn_after {A} (before : list A) x rest :
  skipn (S (length before)) (before ++ x :: rest) = rest.
Proof. induction before; simpl; auto. Qed.

Lemma party_row_step before cont after s cur parts :
  faurecia_inv s -> f_current_segment s = Some cur ->
  faurecia_lookahead (cont :: after) = Some parts ->
  exists s',
    faurecia_row (before ++ party_row :: cont :: after) (length before)
      party_row s = Some s'
    /\ length (heap (f_self s')) = S (length (heap (f_self s)))
    /\ nth_error (heap (f_self s')) (length (heap (f_self s))) =
       Some (party_element (join [newline] (usage_first :: parts)))
    /\ In (length (heap (f_self s))) (all_refs (f_self s')).
Proof.
  intros Hinv Hc Hl. pose proof Hinv as (T & Hseg & Hgrp).
  destruct (proj1 (dict_mem_get _ _) (Hseg _ Hc)) as [sd Hsd].
  assert (E0 : re_search P_segment_header
                 (join " " (map clean_cell party_row)) = None)
    by (vm_compute; reflexivity).
  assert (E1 : map clean_cell party_row = party_row_clean)
    by (vm_compute; reflexivity).
  assert (G : matches P_group_code (cell_at 0 party_row_clean) = false)
    by (vm_compute; reflexivity).
  assert (G' : matches P_element_code (cell_at 0 party_row_clean) = true)
    by (vm_compute; reflexivity).
  assert (F : forall u,
    OElement (cell_at 0 party_row_clean)
      (clean_description (Some (cell_at 1 party_row_clean)))
      (if nonempty (cell_at 4 party_row_clean)
       then join " " (split_ws (cell_at 4 party_row_clean)) else [])
      (if nonempty (cell_at 6 party_row_clean)
       then strip (cell_at 6 party_row_clean) else [])
      u = party_element u) by (intros u; vm_compute; reflexivity).
  assert (U : strip (cell_at 7 party_row_clean) = usage_first)
    by (vm_compute; reflexivity).
  unfold faurecia_row. rewrite skipn_after, Hl, Hc, E0, E1.
  cbv zeta. rewrite G, G'.
  change (negb (nonempty party_row)) with false.
  change (nonempty (cell_at 7 party_row_clean)) with true.
  cbv iota. cbn [bind].
  rewrite F, U. unfold alloc.
  destruct (f_current_group s) as [g|] eqn:Eg.
  - destruct (Hgrp _ eq_refl) as (c & d & champs & Hg).
    destruct (tree_emit_group _ _ _ _ _ "3035" "Party qualifier" "CDS" "1"
                (join [newline] (usage_first :: parts)) T Hg)
      as (e' & He & T' & Hd' & _ & Hh).
    unfold party_element. rewrite He. cbn [bind].
    eexists. split; [reflexivity|]. cbn [f_self].
    assert (Hlt : g < length (heap (f_self s)))
      by (apply nth_error_Some; congruence).
    split; [|split].
    + rewrite Hh, list_set_length, length_app. simpl. lia.
    + rewrite Hh, nth_error_list_set.
      destruct (Nat.eqb (length (heap (f_self s))) g) eqn:E;
        [apply Nat.eqb_eq in E; lia|].
      rewrite nth_error_app2 by lia. now rewrite Nat.sub_diag.
    + apply (tree_cover T'). rewrite Hh, list_set_length, length_app.
      simpl. lia.
  - destruct (tree_emit_segment _ _ _
                (party_element (join [newline] (usage_first :: parts)))
                T Hsd eq_refl)
      as (e' & He & T' & Hk & Hh & _ & Hdict).
    rewrite He. cbn [bind].
    eexists. split; [reflexivity|]. cbn [f_self].
    split; [|split].
    + rewrite Hh, length_app. simpl. lia.
    + rewrite Hh, nth_error_app2 by lia. now rewrite Nat.sub_diag.
    + apply (tree_cover T'). rewrite Hh, length_app. simpl. lia.
Qed.

Lemma nad_open_inv : faurecia_inv nad_open.
Proof.
  destruct (faurecia_row_inv [nad_header] 0 nad_header (FState init None None))
    as (s' & Hs & Hinv & _).
  - split; [apply tree_init | split; intros x Hx; discriminate].
  - vm_compute in Hs. inversion Hs; subst s'. exact Hinv.
Qed.

(** C1, as amended: in a table that holds the row
    [3035 | Party qualifier | | | CDS | | 1 | 'ZZZ' = Mutually defined]
    immediately followed by the continuation row whose only cell is the
    usage ['123' = Other code], the Faurecia parser, once a segment is
    open, emits exactly one object for the two rows, the Element 3035,
    held by one list of the tree; its usage is the first usage cell alone,
    ['ZZZ' = Mutually defined], because the continuation starts with a
    quote, which the continuation pattern [^[A-Z0-9]+\s*=] refuses.  When
    the continuation cell is [123 = Other code] and the rows after it end
    the consolidation, the usage is the two cells joined by a newline. *)
Theorem faurecia_usage_consolidation before after s cur :
  faurecia_inv s -> f_current_segment s = Some cur ->
  (exists s',
     faurecia_rows (before ++ party_row :: quoted_continuation :: after)
       (length before) [party_row; quoted_continuation] s = Some s'
     /\ length (heap (f_self s')) = S (length (heap (f_self s)))
     /\ nth_error (heap (f_self s')) (length (heap (f_self s))) =
        Some (party_element usage_first)
     /\ In (length (heap (f_self s))) (all_refs (f_self s')))
  /\ (faurecia_lookahead after = Some [] ->
      exists s',
        faurecia_rows (before ++ party_row :: bare_continuation :: after)
          (length before) [party_row; bare_continuation] s = Some s'
        /\ length (heap (f_self s')) = S (length (heap (f_self s)))
        /\ nth_error (heap (f_self s')) (length (heap (f_self s))) =
           Some (party_element usage_joined_bare)
        /\ In (length (heap (f_self s))) (all_refs (f_self s'))).
Proof.
  intros Hinv Hc. split.
  - destruct (party_row_step before quoted_continuation after s cur []
                Hinv Hc) as (s' & Hs & H1 & H2 & H3).
    { vm_compute. reflexivity. }
    exists s'. cbn [faurecia_rows]. rewrite Hs. cbn [bind].
    rewrite faurecia_row_unrecognised by (vm_compute; reflexivity).
    cbn [bind]. auto.
  - intros Hafter.
    destruct (party_row_step before bare_continuation after s cur
                [L "123 = Other code"] Hinv Hc) as (s' & Hs & H1 & H2 & H3).
    { change (faurecia_lookahead (bare_continuation :: after))
        with (more <- faurecia_lookahead after ;;
              Some (L "123 = Other code" :: more)).
      now rewrite Hafter. }
    exists s'. cbn [faurecia_rows]. rewrite Hs. cbn [bind].
    rewrite faurecia_row_unrecognised by (vm_compute; reflexivity).
    cbn [bind]. auto.
Qed.

Lemma faurecia_usage_consolidation_witness :
  faurecia_inv nad_open /\ f_current_segment nad_open = Some (L "NAD")
  /\ faurecia_lookahead [] = Some []
  /\ (exists s',
        faurecia_rows ([nad_header] ++ party_row :: quoted_continuation :: [])
          1 [party_row; quoted_continuation] nad_open = Some s'
        /\ nth_error (heap (f_self s')) 0 = Some (party_element usage_first))
  /\ (exists s',
        faurecia_rows ([nad_header] ++ party_row :: bare_continuation :: [])
          1 [party_row; bare_continuation] nad_open = Some s'
        /\ nth_error (heap (f_self s')) 0 =
           Some (party_element usage_joined_bare)).
Proof.
  pose proof (faurecia_usage_consolidation [nad_header] [] nad_open (L "NAD")
                nad_open_inv eq_refl) as [H1 H2].
  split; [exact nad_open_inv|]. split; [reflexivity|]. split; [reflexivity|].
  split.
  - destruct H1 as (s' & A & _ & B & _). exists s'. split; [exact A | exact B].
  - destruct (H2 eq_refl) as (s' & A & _ & B & _). exists s'.
    split; [exact A | exact B].
Defined.

(** C1, as stated, fails: on the table made of a segment header, the row
    and the quoted continuation row, one Element is written and its usage
    is not the two cells joined. *)
Lemma faurecia_quoted_continuation_not_joined :
  exists e,
    _parse_faurecia_table [nad_header; party_row; quoted_continuation] init
    = Some e
    /\ save_to_json e =
       Some [SegmentJson "NAD" "Name and address"
               [Champ (ElementJson "3035" "Party qualifier" "CDS" "1"
                         usage_first)]]
    /\ usage_first <> usage_joined_quoted.
Proof.
  eexists. split; [vm_compute; reflexivity|].
  split; [vm_compute; reflexivity | discriminate].
Qed.

(** ** Format detection *)

Lemma detect_page_rules p :
  detect_page p =
  if rule_vda p then Some vda4932
  else if rule_faurecia p then Some faurecia else None.
Proof.
  unfold detect_page, rule_vda, rule_faurecia.
  destruct (found P_vda_marker (page_text p)); [reflexivity|].
  destruct (found P_faurecia_line (page_text p)); [reflexivity|].
  destruct (found P_faurecia_split (page_text p)); [reflexivity|].
  now destruct (contains "Pos.:" (page_text p) && found P_known_segment (page_text p)).
Qed.

Lemma detect_pages_skip before : forall pages,
  (forall q, In q before -> rule_vda q = false /\ rule_faurecia q = false) ->
  detect_pages (before ++ pages) = detect_pages pages.
Proof.
  induction before as [|q before IH]; intros pages H; simpl; [reflexivity|].
  destruct (H q (or_introl eq_refl)) as [H1 H2].
  rewrite detect_page_rules, H1, H2. apply IH.
  intros q' Hq'. apply H. now right.
Qed.

(** C2, as amended: the detector returns one of the two tags; the pages
    are inspected in order, the first ten only, and the first page on
    which some rule matches decides: [vda4932] when that page matches the
    marker [Segment: XXX Cons. No.:] (on one page rule 1 has priority over
    the Faurecia rules), [faurecia] when it matches a Faurecia rule only.
    So a page with the VDA marker gives [vda4932] when no page before it
    matches a Faurecia rule.  When no rule matches on the inspected pages
    the result is [faurecia]. *)
Theorem detect_pdf_format_first_match doc :
  (detect_pdf_format doc = faurecia \/ detect_pdf_format doc = vda4932)
  /\ (forall before p after,
        firstn 10 doc = before ++ p :: after ->
        (forall q, In q before -> rule_vda q = false /\ rule_faurecia q = false) ->
        (rule_vda p = true -> detect_pdf_format doc = vda4932)
        /\ (rule_vda p = false -> rule_faurecia p = true ->
            detect_pdf_format doc = faurecia))
  /\ ((forall q, In q (firstn 10 doc) ->
         rule_vda q = false /\ rule_faurecia q = false) ->
      detect_pdf_format doc = faurecia).
Proof.
  split; [destruct (detect_pdf_format doc); auto|]. split.
  - intros before p after Hd Hb. unfold detect_pdf_format.
    rewrite Hd, (detect_pages_skip before _ Hb). simpl.
    rewrite detect_page_rules. split.
    + now intros ->.
    + now intros -> ->.
  - intros H. unfold detect_pdf_format.
    rewrite <- (app_nil_r (firstn 10 doc)).
    now rewrite (detect_pages_skip _ [] H).
Qed.

Lemma detect_pdf_format_first_match_witness :
  (firstn 10 vda_then_faurecia =
     [Page None []]
     ++ Page (Some (L "Segment: NAD Cons. No.: 14 Level: 1 Name and address")) []
     :: [Page (Some (L "Pos.: 0010 UNH Message header")) []])
  /\ detect_pdf_format vda_then_faurecia = vda4932
  /\ detect_pdf_format [Page (Some (L "Pos.: 0010 UNH Message header")) []]
     = faurecia
  /\ detect_pdf_format [Page (Some (L "no marker at all")) []; Page None []]
     = faurecia.
Proof.
  split; [reflexivity|]. split; [|split].
  - refine (proj1 (proj1 (proj2 (detect_pdf_format_first_match vda_then_faurecia))
                     [Page None []] _ _ eq_refl _) _).
    + intros q [<-|[]]. vm_compute. split; reflexivity.
    + vm_compute. reflexivity.
  - refine (proj2 (proj1 (proj2 (detect_pdf_format_first_match
                                   [Page (Some (L "Pos.: 0010 UNH Message header")) []]))
                     [] _ [] eq_refl _) _ _).
    + intros q [].
    + vm_compute. reflexivity.
    + vm_compute. reflexivity.
  - apply (proj2 (proj2 (detect_pdf_format_first_match
                           [Page (Some (L "no marker at all")) []; Page None []]))).
    intros q [<-|[<-|[]]]; vm_compute; split; reflexivity.
Defined.

(** C2, as stated, fails: the second page matches the VDA marker, and the
    result is [faurecia], decided by the first page. *)
Lemma detect_pdf_format_vda_marker_on_later_page :
  (exists p, In p (firstn 10 faurecia_then_vda) /\ rule_vda p = true)
  /\ detect_pdf_format faurecia_then_vda = faurecia.
Proof.
  split; [|vm_compute; reflexivity].
  exists (Page (Some (L "Segment: NAD Cons. No.: 14 Level: 1 Name and address")) []).
  split; [right; left; reflexivity | vm_compute; reflexivity].
Qed.

(** ** [clean_description] *)

Lemma clean_description_stripped d :
  strip (clean_description d) = clean_description d.
Proof.
  destruct d as [[|c s]|]; simpl; try reflexivity. apply strip_strip.
Qed.

Lemma clean_description_length s :
  length (clean_description (Some s))
  <= length (re_sub_delete P_status s).
Proof.
  destruct s as [|c s]; [simpl; lia|].
  change (clean_description (Some (c :: s))) with
    (strip (re_sub_delete P_not_used (re_sub_delete P_status (c :: s)))).
  pose proof (strip_length
                (re_sub_delete P_not_used (re_sub_delete P_status (c :: s)))).
  pose proof (re_sub_delete_length P_not_used
                (re_sub_delete P_status (c :: s))).
  lia.
Qed.

Lemma found_false r s : found r s = false -> re_search r s = None.
Proof. unfold found. now destruct (re_search r s). Qed.

Lemma found_true r s : found r s = true -> exists x, re_search r s = Some x.
Proof. unfold found. destruct (re_search r s); [eauto | discriminate]. Qed.

(** C3, as amended: absent and empty input give the empty string; a
    result of the normalizer is trimmed; and normalizing a result [t] of
    the normalizer again leaves it as it is exactly when [t] holds no
    further match of the status pattern and none of the [NOT USED]
    pattern, which one pass does not ensure. *)
Theorem clean_description_fixed_point :
  clean_description None = []
  /\ clean_description (Some []) = []
  /\ forall s,
       strip (clean_description (Some s)) = clean_description (Some s)
       /\ (clean_description (Some (clean_description (Some s)))
           = clean_description (Some s)
           <-> found P_status (clean_description (Some s)) = false
               /\ found P_not_used (clean_description (Some s)) = false).
Proof.
  split; [reflexivity|]. split; [reflexivity|]. intros s.
  split; [apply clean_description_stripped|].
  pose proof (clean_description_stripped (Some s)) as Hs.
  set (t := clean_description (Some s)) in *. split.
  - intros Hfix.
    destruct (found P_status t) eqn:E1.
    + exfalso. apply found_true in E1. destruct E1 as [x Hx].
      pose proof (re_sub_delete_shorter P_status t x eq_refl Hx).
      pose proof (clean_description_length t). rewrite Hfix in *. lia.
    + split; [reflexivity|].
      destruct (found P_not_used t) eqn:E2; [|reflexivity].
      exfalso. apply found_true in E2. destruct E2 as [x Hx].
      apply found_false in E1.
      destruct t as [|c t']; [vm_compute in Hx; discriminate|].
      change (clean_description (Some (c :: t'))) with
        (strip (re_sub_delete P_not_used (re_sub_delete P_status (c :: t'))))
        in Hfix.
      rewrite (re_sub_delete_no_match _ _ E1) in Hfix.
      pose proof (re_sub_delete_shorter P_not_used (c :: t') x eq_refl Hx).
      pose proof (strip_length (re_sub_delete P_not_used (c :: t'))).
      rewrite Hfix in *. lia.
  - intros [E1 E2]. apply found_false in E1, E2.
    destruct t as [|c t'] eqn:Et; [reflexivity|].
    change (clean_description (Some (c :: t'))) with
      (strip (re_sub_delete P_not_used (re_sub_delete P_status (c :: t')))).
    rewrite (re_sub_delete_no_match _ _ E1), (re_sub_delete_no_match _ _ E2).
    exact Hs.
Qed.

Lemma clean_description_fixed_point_witness :
  found P_status (clean_description (Some (L "Party qualifier M C an..3")))
  = false
  /\ found P_not_used (clean_description (Some (L "Party qualifier M C an..3")))
     = false
  /\ clean_description
       (Some (clean_description (Some (L "Party qualifier M C an..3"))))
     = clean_description (Some (L "Party qualifier M C an..3")).
Proof.
  split; [vm_compute; reflexivity|]. split; [vm_compute; reflexivity|].
  apply (proj2 (proj2 (proj2 (proj2 clean_description_fixed_point)
                         (L "Party qualifier M C an..3")))).
  split; vm_compute; reflexivity.
Defined.

(** C3, as stated, fails: [A NOT USED NOT USED] is normalized to
    [A NOT USED], and that to [A]. *)
Lemma clean_description_not_idempotent :
  clean_description (Some (L "A NOT USED NOT USED")) = L "A NOT USED"
  /\ clean_description (Some (clean_description (Some (L "A NOT USED NOT USED"))))
     = L "A"
  /\ clean_description (Some (clean_description (Some (L "A NOT USED NOT USED"))))
     <> clean_description (Some (L "A NOT USED NOT USED")).
Proof.
  split; [vm_compute; reflexivity|]. split; [vm_compute; reflexivity|].
  vm_compute. discriminate.
Qed.

(** ** The order of the segments *)

Lemma values_names (d : dict segment_data) :
  (forall k s, In (k, s) d -> segment s = k) ->
  map segment (dict_values d) = dict_keys d.
Proof.
  unfold dict_values, dict_keys. intros H. rewrite map_map.
  apply map_ext_in. intros [k s] Hin. simpl. now apply H.
Qed.

(** C4, as stated, fails for what the facade returns: on a document that
    opens NAD and then BGM, [extract_all] returns NAD before BGM. *)
Lemma extract_all_in_document_order :
  exists self segments,
    extract_all two_segments init = Some (self, segments)
    /\ map segment segments = [L "NAD"; L "BGM"]
    /\ ~ StronglySorted lt_str (map segment segments).
Proof.
  eexists. eexists. split; [vm_compute; reflexivity|].
  split; [reflexivity|].
  intros H. inversion H as [|a l Hl Hf]; subst.
  inversion Hf as [|b l' Hlt _]; subst. vm_compute in Hlt. discriminate.
Qed.

(** ** The tree *)

Lemma faurecia_inv_start self : tree self -> faurecia_inv (FState self None None).
Proof.
  intros T. split; [exact T | split; intros x Hx; discriminate].
Qed.

Lemma vda_inv_start self k :
  tree self -> last_item (dict_keys (segments_dict self)) = Some k ->
  vda_inv k (VState self None).
Proof.
  intros T Hk. split; [exact T|]. split; [|intros g Hg; discriminate].
  apply In_keys_mem. unfold last_item in Hk.
  destruct (rev (dict_keys (segments_dict self))) as [|x l] eqn:E;
    [discriminate|].
  inversion Hk; subst x.
  apply (proj2 (in_rev (dict_keys (segments_dict self)) k)).
  rewrite E. now left.
Qed.

Lemma nad_last_inv : vda_inv (L "NAD") nad_last.
Proof.
  apply vda_inv_start; [|reflexivity]. exact (proj1 nad_open_inv).
Qed.

(** C5: both parsers keep the tree.  Of a new extractor, the map either
    parser builds from any document is a forest under its segments: every
    object, Element or Group, is held by exactly one list (a segment's
    [elements] or a group's [champs]), the [champs] of a group hold
    Elements only, and every Group is in the [elements] of a segment.
    The loops over the rows start in a state that satisfies their
    invariant and every row keeps it; and a row adds a child to a group
    only if the group was in the list of a segment before that row. *)
Theorem tree_structure_invariant :
  (forall doc,
     exists self, extract_faurecia_format doc init = Some self
       /\ tree self
       /\ forall g, is_group (heap self) g -> attached self g)
  /\ (forall doc,
        exists self, extract_vda4932_format doc init = Some self
          /\ tree self
          /\ forall g, is_group (heap self) g -> attached self g)
  /\ (forall self, tree self -> faurecia_inv (FState self None None))
  /\ (forall self k, tree self ->
        last_item (dict_keys (segments_dict self)) = Some k ->
        vda_inv k (VState self None))
  /\ (forall t i r s, faurecia_inv s ->
        exists s', faurecia_row t i r s = Some s' /\ faurecia_inv s'
                   /\ adopt_ok (f_self s) (f_self s'))
  /\ (forall t last i r s, vda_inv last s ->
        exists s', vda_row t last i r s = Some s' /\ vda_inv last s'
                   /\ adopt_ok (v_self s) (v_self s')).
Proof.
  split; [|split; [|split; [|split; [|split]]]].
  - intros doc.
    destruct (extract_faurecia_format_tree doc init tree_init) as (self & H & T).
    exists self. split; [exact H|]. split; [exact T|].
    intros g. now apply group_attached.
  - intros doc.
    destruct (extract_vda4932_format_tree doc init tree_init) as (self & H & T).
    exists self. split; [exact H|]. split; [exact T|].
    intros g. now apply group_attached.
  - exact faurecia_inv_start.
  - exact vda_inv_start.
  - exact faurecia_row_inv.
  - exact vda_row_inv.
Qed.

Lemma tree_structure_invariant_witness :
  faurecia_inv nad_open
  /\ vda_inv (L "NAD") nad_last
  /\ (exists s', faurecia_row [party_row] 0 party_row nad_open = Some s'
                 /\ faurecia_inv s')
  /\ (exists s', vda_row [vda_party_row] (L "NAD") 0 vda_party_row nad_last
                 = Some s' /\ vda_inv (L "NAD") s').
Proof.
  split; [exact nad_open_inv|]. split; [exact nad_last_inv|]. split.
  - destruct (proj1 (proj2 (proj2 (proj2 (proj2 tree_structure_invariant))))
                [party_row] 0 party_row nad_open nad_open_inv)
      as (s' & H1 & H2 & _).
    exists s'. split; [exact H1 | exact H2].
  - destruct (proj2 (proj2 (proj2 (proj2 (proj2 tree_structure_invariant))))
                [vda_party_row] (L "NAD") 0 vda_party_row nad_last nad_last_inv)
      as (s' & H1 & H2 & _).
    exists s'. split; [exact H1 | exact H2].
Defined.

(** ** Tables that are skipped *)

Lemma for_each_app {A S} (body : A -> S -> option S) l1 l2 s :
  for_each body (l1 ++ l2) s = (s' <- for_each body l1 s ;; for_each body l2 s').
Proof.
  revert s. induction l1 as [|x l1 IH]; intros s; simpl; [reflexivity|].
  destruct (body x s); simpl; [apply IH | reflexivity].
Qed.

Lemma faurecia_table_short t self :
  length t < 5 -> faurecia_table t self = Some self.
Proof.
  intros H. unfold faurecia_table.
  assert ((length t <? 5) = true) as -> by now apply Nat.ltb_lt.
  now rewrite orb_true_r.
Qed.

(** C6: under the Faurecia convention a table with fewer than five rows is
    skipped: reading it raises nothing and leaves the extractor as it was,
    so a document gives the same result with the table and without it. *)
Theorem faurecia_short_table_skipped t :
  length t < 5 ->
  (forall self, faurecia_table t self = Some self)
  /\ (forall docA text before after docB self,
        extract_faurecia_format
          (docA ++ Page text (before ++ t :: after) :: docB) self
        = extract_faurecia_format
            (docA ++ Page text (before ++ after) :: docB) self).
Proof.
  intros H. split; [intros self; now apply faurecia_table_short|].
  intros docA text before after docB self. unfold extract_faurecia_format.
  rewrite !for_each_app.
  destruct (for_each faurecia_page docA self) as [s1|]; [|reflexivity].
  cbn [bind for_each]. unfold faurecia_page at 1 3. cbn [extract_tables].
  rewrite !for_each_app.
  destruct (for_each faurecia_table before s1) as [s2|]; [|reflexivity].
  cbn [bind for_each]. now rewrite (faurecia_table_short t s2 H).
Qed.

Lemma faurecia_short_table_skipped_witness :
  length short_table < 5
  /\ faurecia_table short_table init = Some init
  /\ extract_faurecia_format [Page None [short_table]] init = Some init.
Proof.
  assert (H : length short_table < 5) by (vm_compute; lia).
  split; [exact H|]. split.
  - apply (proj1 (faurecia_short_table_skipped short_table H)).
  - change [Page None [short_table]]
      with ([] ++ Page None ([] ++ short_table :: []) :: []).
    rewrite (proj2 (faurecia_short_table_skipped short_table H)).
    reflexivity.
Defined.

(** ** Failures *)

Lemma extract_all_values doc self segments :
  extract_all doc init = Some (self, segments) ->
  segments = dict_values (segments_dict self).
Proof.
  unfold extract_all.
  destruct (match detect_pdf_format doc with
            | faurecia => _ | vda4932 => _ end); [|discriminate].
  cbn [bind]. intros H. now inversion H.
Qed.

(** C7: when the extraction leaves the map empty, [process_pdf] writes no
    file; a row on which the patterns of a parser fail, and a Faurecia row
    read before any segment header, raise nothing and leave the extractor
    and the loop state as they were; and the parsers raise nothing on any
    table. *)
Theorem soft_failure_and_skipped_rows :
  (forall stem doc self segments,
     extract_all doc init = Some (self, segments) ->
     segments_dict self = [] ->
     process_pdf stem doc = Some [])
  /\ (forall t i r s,
        faurecia_unrecognised r = true -> faurecia_row t i r s = Some s)
  /\ (forall t i r s,
        f_current_segment s = None ->
        found P_segment_header (join " " (map clean_cell r)) = false ->
        faurecia_row t i r s = Some s)
  /\ (forall t last i r s,
        vda_unrecognised r = true -> vda_row t last i r s = Some s)
  /\ (forall t self, tree self ->
        (exists self', _parse_faurecia_table t self = Some self')
        /\ (exists self', _parse_vda_table t self = Some self')).
Proof.
  split; [|split; [|split; [|split]]].
  - intros stem doc self segments He Hd. unfold process_pdf.
    pose proof (extract_all_values _ _ _ He) as Hv. rewrite He. cbn [bind].
    rewrite Hv, Hd. reflexivity.
  - exact faurecia_row_unrecognised.
  - exact faurecia_row_before_header.
  - exact vda_row_unrecognised.
  - intros t self T. split.
    + destruct (parse_faurecia_table_tree t self T) as (self' & H & _).
      now exists self'.
    + destruct (parse_vda_table_tree t self T) as (self' & H & _).
      now exists self'.
Qed.

Lemma soft_failure_and_skipped_rows_witness :
  (exists self, extract_all [Page None []] init = Some (self, [])
                /\ segments_dict self = [])
  /\ process_pdf "EDI guide-v2" [Page None []] = Some []
  /\ faurecia_unrecognised quoted_continuation = true
  /\ faurecia_row [quoted_continuation] 0 quoted_continuation nad_open
     = Some nad_open
  /\ found P_segment_header (join " " (map clean_cell party_row)) = false
  /\ faurecia_row [party_row] 0 party_row (FState init None None)
     = Some (FState init None None)
  /\ vda_unrecognised vda_three_digit_row = true
  /\ vda_row [vda_three_digit_row] (L "NAD") 0 vda_three_digit_row nad_last
     = Some nad_last
  /\ tree init
  /\ (exists self', _parse_faurecia_table short_table init = Some self').
Proof.
  pose proof soft_failure_and_skipped_rows as (H1 & H2 & H3 & H4 & H5).
  split; [eexists; split; vm_compute; reflexivity|].
  split; [eapply H1; vm_compute; reflexivity|].
  split; [vm_compute; reflexivity|].
  split; [apply H2; vm_compute; reflexivity|].
  split; [vm_compute; reflexivity|].
  split; [apply H3; vm_compute; reflexivity|].
  split; [vm_compute; reflexivity|].
  split; [apply H4; vm_compute; reflexivity|].
  split; [exact tree_init|].
  exact (proj1 (H5 short_table init tree_init)).
Defined.

(** ** Enrichment *)

Lemma dict_get_enrich d k :
  dict_get (map enrich_segment d) k =
  option_map
    (fun s => Segment (segment s) (enrich_description k (description s))
                (elements s))
    (dict_get d k).
Proof.
  induction d as [|[k' s] d IH]; simpl; [reflexivity|].
  destruct (str_eqb k' k) eqn:E; [|exact IH].
  apply str_eqb_eq in E. now subst k'.
Qed.

Lemma is_placeholder_In d :
  is_placeholder d = true <-> In d [L "0"; L "1"; L ""].
Proof.
  unfold is_placeholder. rewrite existsb_exists. split.
  - intros (x & Hx & E). apply str_eqb_eq in E. now subst x.
  - intros H. exists d. split; [exact H | apply str_eqb_refl].
Qed.

(** C8: for a segment of the map, let [d] be its description, normalized
    again when it is not empty.  When [d] is empty or one of the
    placeholders ["0"], ["1"], [""] and the mnemonic is in the standard
    table, the enrichment replaces the description by the name of the
    table, and changes nothing else of the segment; so MOA with an empty
    description gets [Monetary amount]; and a segment with an empty
    description whose mnemonic is not in the table keeps it. *)
Theorem add_standard_descriptions_spec self k s :
  dict_get (segments_dict self) k = Some s ->
  (forall name,
     (let d := if nonempty (description s)
               then clean_description (Some (description s))
               else description s in
      d = [] \/ In d [L "0"; L "1"; L ""]) ->
     dict_get standard_descriptions k = Some name ->
     dict_get (segments_dict (add_standard_descriptions self)) k
     = Some (Segment (segment s) name (elements s)))
  /\ (k = L "MOA" -> description s = [] ->
      dict_get (segments_dict (add_standard_descriptions self)) k
      = Some (Segment (segment s) "Monetary amount" (elements s)))
  /\ (description s = [] -> dict_get standard_descriptions k = None ->
      dict_get (segments_dict (add_standard_descriptions self)) k
      = Some (Segment (segment s) [] (elements s))).
Proof.
  intros Hk. unfold add_standard_descriptions. cbn [segments_dict with_segments].
  rewrite dict_get_enrich, Hk. cbn [option_map]. unfold enrich_description.
  split; [|split].
  - intros name Hd Hn. cbv zeta in Hd. rewrite Hn.
    destruct (if nonempty (description s) then _ else _) as [|c d'] eqn:E.
    + reflexivity.
    + destruct Hd as [Hd|Hd]; [discriminate|].
      apply is_placeholder_In in Hd. cbn [nonempty negb orb]. now rewrite Hd.
  - intros -> ->. reflexivity.
  - intros -> Hn. cbn [nonempty negb orb]. now rewrite Hn.
Qed.

Lemma add_standard_descriptions_spec_witness :
  dict_get (segments_dict to_enrich) (L "MOA") = Some (Segment "MOA" "" [])
  /\ dict_get (segments_dict (add_standard_descriptions to_enrich)) (L "MOA")
     = Some (Segment "MOA" "Monetary amount" [])
  /\ dict_get (segments_dict (add_standard_descriptions to_enrich)) (L "NAD")
     = Some (Segment "NAD" "Name and address" [])
  /\ dict_get (segments_dict (add_standard_descriptions to_enrich)) (L "ZZZ")
     = Some (Segment "ZZZ" "" []).
Proof.
  split; [reflexivity|]. split; [|split].
  - apply (proj1 (proj2 (add_standard_descriptions_spec to_enrich (L "MOA")
                           (Segment "MOA" "" []) eq_refl))); reflexivity.
  - apply (proj1 (add_standard_descriptions_spec to_enrich (L "NAD")
                    (Segment "NAD" "1 M C" []) eq_refl)).
    + vm_compute. right. right. left. reflexivity.
    + reflexivity.
  - apply (proj2 (proj2 (add_standard_descriptions_spec to_enrich (L "ZZZ")
                           (Segment "ZZZ" "" []) eq_refl))); reflexivity.
Defined.

(** ** The sentinel of the VDA usage column *)

Lemma cell_at_nth_error i (l : list str) :
  cell_at i l = match nth_error l i with Some x => x | None => [] end.
Proof.
  unfold cell_at. destruct (i <? length l) eqn:E.
  - apply Nat.ltb_lt in E. destruct (nth_error l i) eqn:N.
    + now apply nth_error_nth.
    + apply nth_error_None in N. lia.
  - apply Nat.ltb_ge in E. apply nth_error_None in E. now rewrite E.
Qed.

Lemma map_list_set {A B} (f : A -> B) l i x :
  map f (list_set l i x) = list_set (map f l) i (f x).
Proof.
  revert i. induction l as [|y l IH]; intros [|i]; simpl; auto.
  now rewrite IH.
Qed.


(** ** The VDA parser before any segment *)

(** C10: when the map is empty the VDA parser returns at once: nothing is
    raised, the extractor is as it was, whatever the table holds; and when
    the map is not empty the lookup of the last segment finds a segment of
    the map, so it never fails. *)
Theorem parse_vda_table_empty_map :
  (forall t self, segments_dict self = [] -> _parse_vda_table t self = Some self)
  /\ (forall self, segments_dict self <> [] ->
        exists k, last_item (dict_keys (segments_dict self)) = Some k
                  /\ dict_mem (segments_dict self) k = true).
Proof.
  split.
  - intros t self H. unfold _parse_vda_table. now rewrite H.
  - intros self H.
    destruct (last_item_keys (segments_dict self)) as (k & Hk & Hin).
    + destruct (segments_dict self); [contradiction | reflexivity].
    + exists k. split; [exact Hk | now apply In_keys_mem].
Qed.

Lemma parse_vda_table_empty_map_witness :
  segments_dict init = []
  /\ _parse_vda_table [vda_party_row; vda_party_row; vda_party_row] init
     = Some init
  /\ segments_dict (v_self nad_last) <> []
  /\ exists k, last_item (dict_keys (segments_dict (v_self nad_last))) = Some k
               /\ dict_mem (segments_dict (v_self nad_last)) k = true.
Proof.
  split; [reflexivity|]. split; [|split].
  - apply (proj1 parse_vda_table_empty_map). reflexivity.
  - discriminate.
  - apply (proj2 parse_vda_table_empty_map). discriminate.
Defined.

(** * Further properties *)

(** ** The matcher, in more detail *)

Lemma m_cat a b st k : m (Cat a b) st k = m a st (fun st' => m b st' k).
Proof. reflexivity. Qed.

Lemma m_grp n a st k :
  m (Grp n a) st k = m a st (fun st' => k (set_cap n (consumed st st') st')).
Proof. reflexivity. Qed.

Lemma m_rep g lo hi a st k :
  m (Rep g lo hi a) st k
  = rep_loop (m a) g lo hi k (lo + length (rest st)) 0 st.
Proof. reflexivity. Qed.

Lemma reaches_with_refl ok st : reaches_with ok st st.
Proof. split; [exists []; split; [reflexivity | constructor] | now exists []]. Qed.

Lemma reaches_with_trans ok a b c :
  reaches_with ok a b -> reaches_with ok b c -> reaches_with ok a c.
Proof.
  intros [[n1 [H1 F1]] [w1 [P1 R1]]] [[n2 [H2 F2]] [w2 [P2 R2]]]. split.
  - exists (n2 ++ n1). split; [now rewrite H2, H1, app_assoc|].
    apply Forall_app. now split.
  - exists (w1 ++ w2). split.
    + now rewrite P2, P1, rev_app_distr, app_assoc.
    + now rewrite R1, R2, app_assoc.
Qed.

Lemma reaches_with_reaches ok a b : reaches_with ok a b -> reaches a b.
Proof.
  intros [[n [H _]] W]. split; [now exists n | exact W].
Qed.

Lemma rep_loop_groups ok ma g lo hi :
  (forall st k res, ma st k = Some res ->
     exists st', reaches_with ok st st' /\ k st' = Some res) ->
  forall fuel cnt st k res,
    rep_loop ma g lo hi k fuel cnt st = Some res ->
    exists st', reaches_with ok st st' /\ k st' = Some res.
Proof.
  intros Hma. induction fuel as [|f IH]; intros cnt st k res H.
  - simpl in H. destruct (lo <=? cnt), g; try discriminate;
      destruct (k st) eqn:E; try discriminate;
      exists st; split; [apply reaches_with_refl | congruence
                        | apply reaches_with_refl | congruence].
  - simpl in H.
    assert (Hmore : forall x,
      (if below cnt hi
       then ma st (fun st' =>
              if (length (rest st') <? length (rest st)) || (cnt <? lo)
              then rep_loop ma g lo hi k f (S cnt) st' else None)
       else None) = Some x ->
      exists st', reaches_with ok st st' /\ k st' = Some x).
    { intros x Hx. destruct (below cnt hi); [|discriminate].
      apply Hma in Hx. destruct Hx as [st1 [R1 K1]].
      destruct ((length (rest st1) <? length (rest st)) || (cnt <? lo));
        [|discriminate].
      apply IH in K1. destruct K1 as [st2 [R2 K2]].
      exists st2. split; [eapply reaches_with_trans; eauto | exact K2]. }
    assert (Hstop : forall x, (if lo <=? cnt then k st else None) = Some x ->
      exists st', reaches_with ok st st' /\ k st' = Some x).
    { intros x Hx. destruct (lo <=? cnt); [|discriminate].
      exists st. split; [apply reaches_with_refl | exact Hx]. }
    destruct g.
    + destruct (if below cnt hi then _ else None) eqn:E.
      * inversion H; subst. now apply Hmore.
      * now apply Hstop.
    + destruct (if lo <=? cnt then k st else None) eqn:E.
      * inversion H; subst. now apply Hstop.
      * now apply Hmore.
Qed.

(** A match captures groups of the pattern only. *)
Lemma m_groups ok r :
  groups_ok ok r = true ->
  forall st k res, m r st k = Some res ->
    exists st', reaches_with ok st st' /\ k st' = Some res.
Proof.
  induction r; intros Hg st k res H; simpl in H; simpl in Hg.
  - exists st. split; [apply reaches_with_refl | exact H].
  - destruct (rest st) as [|c t] eqn:R; [discriminate|].
    destruct (cset_mem cs c); [|discriminate].
    exists (advance c t st). split; [|exact H].
    split; [exists []; split; [reflexivity | constructor]|].
    exists [c]. now rewrite R.
  - apply andb_true_iff in Hg. destruct Hg as [G1 G2].
    apply (IHr1 G1) in H. destruct H as [st1 [R1 H]].
    apply (IHr2 G2) in H. destruct H as [st2 [R2 H]].
    exists st2. split; [eapply reaches_with_trans; eauto | exact H].
  - apply andb_true_iff in Hg. destruct Hg as [G1 G2].
    destruct (m r1 st k) eqn:E.
    + inversion H; subst. now apply IHr1.
    + now apply IHr2.
  - eapply rep_loop_groups; eauto.
  - apply andb_true_iff in Hg. destruct Hg as [G1 G2].
    apply (IHr G2) in H. destruct H as [st1 [R1 H]].
    exists (set_cap n (consumed st st1) st1). split; [|exact H].
    eapply reaches_with_trans; [exact R1|].
    split; [|now exists []].
    exists [(n, consumed st st1)]. split; [reflexivity|].
    now repeat constructor.
  - destruct (pre st); [|discriminate].
    exists st. split; [apply reaches_with_refl | exact H].
  - exists st. split; [apply reaches_with_refl|].
    destruct (rest st) as [|c [|d t]]; try discriminate; auto.
    destruct (ascii_dec c newline); [auto | discriminate].
  - destruct (xorb _ _); [|discriminate].
    exists st. split; [apply reaches_with_refl | exact H].
  - destruct (m r st Some) as [st1|] eqn:E; [|discriminate].
    apply (IHr Hg) in E. destruct E as [st2 [[[new [Hc Hf]] _] E2]].
    inversion E2; subst st2.
    exists (MState (pre st) (rest st) (caps st1)). split; [|exact H].
    split; [exists new; split; assumption | exists []; simpl; auto].
Qed.

Lemma lookup_cap_skip n new l :
  Forall (fun ic : nat * str => negb (Nat.eqb (fst ic) n) = true) new ->
  lookup_cap n (new ++ l) = lookup_cap n l.
Proof.
  induction 1 as [|[i s] new Hi Hf IH]; simpl; [reflexivity|].
  simpl in Hi. apply negb_true_iff in Hi. now rewrite Hi.
Qed.

(** What follows a group and does not capture it again leaves it. *)
Lemma m_keeps_group n r st k res :
  groups_ok (fun i => negb (Nat.eqb i n)) r = true ->
  m r st k = Some res ->
  exists st', reaches st st' /\ k st' = Some res
              /\ lookup_cap n (caps st') = lookup_cap n (caps st).
Proof.
  intros Hg H. apply (m_groups _ _ Hg) in H. destruct H as [st' [R H]].
  exists st'. split; [eapply reaches_with_reaches; eauto|]. split; [exact H|].
  destruct R as [[new [Hc Hf]] _]. rewrite Hc. now apply lookup_cap_skip.
Qed.

Lemma m_chr cs st k res :
  m (Chr cs) st k = Some res ->
  exists c st',
    k st' = Some res
    /\ rest st = c :: rest st' /\ pre st' = c :: pre st
    /\ caps st' = caps st /\ cset_mem cs c = true.
Proof.
  simpl. destruct (rest st) as [|c t] eqn:R; [discriminate|].
  destruct (cset_mem cs c) eqn:E; [|discriminate].
  intros H. exists c, (advance c t st). repeat split; auto.
Qed.

(** A repetition of a set of characters reads characters of the set, at
    least [lo] and at most [hi] with those already read. *)
Lemma rep_chr cs g lo hi : forall fuel cnt st k res,
  rep_loop (m (Chr cs)) g lo hi k fuel cnt st = Some res ->
  exists w st',
    k st' = Some res
    /\ rest st = w ++ rest st' /\ pre st' = rev w ++ pre st
    /\ caps st' = caps st
    /\ all_in cs w
    /\ lo <= cnt + length w
    /\ (forall h, hi = Some h -> cnt <= h -> cnt + length w <= h).
Proof.
  induction fuel as [|f IH]; intros cnt st k res H.
  - simpl in H.
    assert (Hk : lo <= cnt /\ k st = Some res).
    { destruct (lo <=? cnt) eqn:E; [apply Nat.leb_le in E|];
        destruct g; try discriminate; destruct (k st); try discriminate;
        now split. }
    destruct Hk as [Hlo Hk]. exists [], st. simpl.
    repeat split; auto; try constructor; try (intros; lia).
  - simpl in H.
    assert (Hmore : forall x,
      (if below cnt hi
       then m (Chr cs) st (fun st' =>
              if (length (rest st') <? length (rest st)) || (cnt <? lo)
              then rep_loop (m (Chr cs)) g lo hi k f (S cnt) st' else None)
       else None) = Some x ->
      exists w st',
        k st' = Some x
        /\ rest st = w ++ rest st' /\ pre st' = rev w ++ pre st
        /\ caps st' = caps st /\ all_in cs w /\ lo <= cnt + length w
        /\ (forall h, hi = Some h -> cnt <= h -> cnt + length w <= h)).
    { intros x Hx. destruct (below cnt hi) eqn:Eb; [|discriminate].
      apply m_chr in Hx. destruct Hx as (c & st1 & Hx & R1 & P1 & C1 & Ec).
      destruct ((length (rest st1) <? length (rest st)) || (cnt <? lo));
        [|discriminate].
      apply IH in Hx.
      destruct Hx as (w & st' & K & Hr & Hp & Hc & Hall & Hlo & Hhi).
      exists (c :: w), st'.
      split; [exact K|]. split; [simpl; now rewrite R1, Hr|].
      split; [simpl; now rewrite Hp, P1, <- app_assoc|].
      split; [congruence|]. split; [now constructor|].
      split; [simpl; lia|].
      intros h Hh Hle. subst hi. simpl in Eb. apply Nat.ltb_lt in Eb.
      simpl. specialize (Hhi h eq_refl). lia. }
    assert (Hstop : forall x, (if lo <=? cnt then k st else None) = Some x ->
      exists w st',
        k st' = Some x
        /\ rest st = w ++ rest st' /\ pre st' = rev w ++ pre st
        /\ caps st' = caps st /\ all_in cs w /\ lo <= cnt + length w
        /\ (forall h, hi = Some h -> cnt <= h -> cnt + length w <= h)).
    { intros x Hx. destruct (lo <=? cnt) eqn:E; [|discriminate].
      apply Nat.leb_le in E. exists [], st. simpl.
      repeat split; auto; try constructor; try (intros; lia). }
    destruct g.
    + destruct (if below cnt hi then _ else None) eqn:E.
      * inversion H; subst. now apply Hmore.
      * now apply Hstop.
    + destruct (if lo <=? cnt then k st else None) eqn:E.
      * inversion H; subst. now apply Hstop.
      * now apply Hmore.
Qed.

Lemma m_rep_chr cs g lo hi st k res :
  m (Rep g lo hi (Chr cs)) st k = Some res ->
  exists w st',
    k st' = Some res
    /\ rest st = w ++ rest st' /\ pre st' = rev w ++ pre st
    /\ caps st' = caps st
    /\ all_in cs w
    /\ lo <= length w
    /\ (forall h, hi = Some h -> length w <= h).
Proof.
  rewrite m_rep. intros H. apply rep_chr in H.
  destruct H as (w & st' & K & Hr & Hp & Hc & Hall & Hlo & Hhi).
  exists w, st'. repeat split; auto. intros h Hh. apply (Hhi h Hh). lia.
Qed.

Lemma consumed_pre st st' w :
  pre st' = rev w ++ pre st -> consumed st st' = w.
Proof.
  intros P. unfold consumed. rewrite P, length_app, length_rev.
  replace (length w + length (pre st) - length (pre st)) with (length (rev w))
    by (rewrite length_rev; lia).
  rewrite firstn_app, Nat.sub_diag, firstn_all. simpl.
  now rewrite app_nil_r, rev_involutive.
Qed.

Lemma m_eol st k res :
  m Eol st k = Some res ->
  k st = Some res /\ (rest st = [] \/ rest st = [newline]).
Proof.
  simpl. destruct (rest st) as [|c [|d t]]; try discriminate; auto.
  destruct (ascii_dec c newline) as [->|]; [auto | discriminate].
Qed.

Lemma m_bol st k res : m Bol st k = Some res -> k st = Some res.
Proof. simpl. destruct (pre st); [auto | discriminate]. Qed.

(** ** The shape of the codes *)

Lemma all_in_app cs w1 w2 : all_in cs w1 -> all_in cs w2 -> all_in cs (w1 ++ w2).
Proof. intros H1 H2. apply Forall_app. now split. Qed.

Lemma all_in_weaken cs cs' w :
  (forall c, cset_mem cs c = true -> cset_mem cs' c = true) ->
  all_in cs w -> all_in cs' w.
Proof. intros H F. eapply Forall_impl; [|exact F]. exact H. Qed.

Lemma all_in_last cs w c : all_in cs (w ++ [c]) -> cset_mem cs c = true.
Proof.
  intros H. apply Forall_app in H. destruct H as [_ H]. now inversion H.
Qed.

Lemma matches_inv r s :
  matches r s = true -> exists res, m r (MState [] s []) Some = Some res.
Proof.
  unfold matches, re_match, match_at.
  destruct (m r (MState [] s []) Some) as [res|]; [eauto | discriminate].
Qed.

(** [^\d{4}$] matches four digits, with or without a final newline. *)
Lemma element_code_shape s :
  matches P_element_code s = true ->
  exists w, (s = w \/ s = w ++ [newline]) /\ is_element_code w.
Proof.
  intros H. apply matches_inv in H. destruct H as [res E].
  unfold P_element_code in E. cbn [cat] in E.
  rewrite m_cat in E. apply m_bol in E. rewrite m_cat in E.
  unfold times in E. apply m_rep_chr in E.
  destruct E as (w & st' & K & Hr & _ & _ & Hall & Hlo & Hhi).
  apply m_eol in K. destruct K as [_ Hrest]. cbn [rest] in Hr.
  specialize (Hhi 4 eq_refl).
  exists w. split; [|split; [lia | exact Hall]].
  destruct Hrest as [Hrest|Hrest]; rewrite Hrest in Hr;
    [left; now rewrite app_nil_r in Hr | right; exact Hr].
Qed.

(** [^[SC]\d{3}$] matches [S] or [C] and three digits, with or without a
    final newline. *)
Lemma group_code_shape s :
  matches P_group_code s = true ->
  exists w, (s = w \/ s = w ++ [newline]) /\ is_group_code w.
Proof.
  intros H. apply matches_inv in H. destruct H as [res E].
  unfold P_group_code in E. cbn [cat] in E.
  rewrite m_cat in E. apply m_bol in E. rewrite m_cat in E.
  apply m_chr in E. destruct E as (c & st1 & E & R1 & _ & _ & Hc).
  rewrite m_cat in E. unfold times in E. apply m_rep_chr in E.
  destruct E as (w & st' & K & Hr & _ & _ & Hall & Hlo & Hhi).
  apply m_eol in K. destruct K as [_ Hrest]. cbn [rest] in R1.
  specialize (Hhi 3 eq_refl).
  exists (c :: w). split.
  - rewrite R1, Hr.
    destruct Hrest as [-> | ->]; [left; now rewrite app_nil_r | now right].
  - exists c, w. split; [reflexivity|]. split; [exact Hc|].
    split; [lia | exact Hall].
Qed.

Lemma rstrip_last t : forall w c, rstrip t = w ++ [c] -> isspace c = false.
Proof.
  induction t as [|x t IH]; intros w c H; simpl in H.
  - now destruct w.
  - destruct (rstrip t) as [|y r] eqn:E.
    + destruct (isspace x) eqn:Ex; [now destruct w|].
      destruct w as [|a w]; [inversion H; now subst|].
      inversion H. now destruct w.
    + destruct w as [|a w]; [discriminate|].
      inversion H; subst. eapply IH. eassumption.
Qed.

Lemma clean_cell_last i (r : row) w c :
  cell_at i (map clean_cell r) = w ++ [c] -> isspace c = false.
Proof.
  rewrite cell_at_nth_error, nth_error_map.
  destruct (nth_error r i) as [[[|a s]|]|]; cbn [option_map clean_cell];
    try (now destruct w).
  unfold strip. apply rstrip_last.
Qed.

Lemma isspace_newline : isspace newline = true.
Proof. reflexivity. Qed.

(** The code of a Faurecia row is a trimmed cell: the final newline that
    [$] allows is not there. *)
Lemma faurecia_element_code i (r : row) :
  matches P_element_code (cell_at i (map clean_cell r)) = true ->
  is_element_code (cell_at i (map clean_cell r)).
Proof.
  intros H. apply element_code_shape in H.
  destruct H as (w & [Hs|Hs] & Hw); [now rewrite Hs|].
  apply clean_cell_last in Hs. now rewrite isspace_newline in Hs.
Qed.

Lemma faurecia_group_code i (r : row) :
  matches P_group_code (cell_at i (map clean_cell r)) = true ->
  is_group_code (cell_at i (map clean_cell r)).
Proof.
  intros H. apply group_code_shape in H.
  destruct H as (w & [Hs|Hs] & Hw); [now rewrite Hs|].
  apply clean_cell_last in Hs. now rewrite isspace_newline in Hs.
Qed.

(** Group 1 of the patterns of the segment headers. *)

Lemma search_from_match_at r s : forall p x,
  search_from r p s = Some x -> exists p' s', match_at r p' s' = Some x.
Proof.
  induction s as [|c s IH]; intros p x H; simpl in H.
  - destruct (match_at r p []) eqn:E; [|discriminate].
    inversion H; subst. eauto.
  - destruct (match_at r p (c :: s)) eqn:E.
    + inversion H; subst. eauto.
    + eapply IH; eauto.
Qed.

Lemma finditer_loop_match_at r : forall fuel p s x,
  In x (finditer_loop fuel r p s) -> exists p' s', match_at r p' s' = Some x.
Proof.
  induction fuel as [|f IH]; intros p s x H; simpl in H; [contradiction|].
  destruct (search_from r p s) as [y|] eqn:E; [|contradiction].
  destruct H as [<-|H]; [eapply search_from_match_at; eauto|].
  destruct (m_text y); [destruct (rest (m_to y))|];
    [contradiction | eapply IH; eauto | eapply IH; eauto].
Qed.

Lemma match_at_inv r p s x :
  match_at r p s = Some x ->
  exists res, m r (MState p s []) Some = Some res
              /\ forall n, group n x = lookup_cap n (caps res).
Proof.
  unfold match_at. destruct (m r (MState p s []) Some) as [res|]; [|discriminate].
  intros H. inversion H; subst. exists res. split; [reflexivity|].
  reflexivity.
Qed.

Lemma lookup_cap_here n v l : lookup_cap n ((n, v) :: l) = Some v.
Proof. simpl. now rewrite Nat.eqb_refl. Qed.

Lemma mnemonic_of_rep w :
  all_in upper w -> 3 <= length w -> (forall h, Some 3 = Some h -> length w <= h) ->
  is_mnemonic w.
Proof.
  intros Hall Hlo Hhi. specialize (Hhi 3 eq_refl). split; [lia | exact Hall].
Qed.

Lemma segment_header_mnemonic p s x k :
  match_at P_segment_header p s = Some x -> group 1 x = Some k ->
  is_mnemonic k.
Proof.
  intros H Hk. apply match_at_inv in H. destruct H as (res & E & Hg).
  rewrite Hg in Hk. clear Hg.
  unfold P_segment_header in E. cbn [cat] in E.
  rewrite m_cat in E. apply m_sound in E. destruct E as (st1 & _ & E).
  rewrite m_cat in E. apply m_sound in E. destruct E as (st2 & _ & E).
  rewrite m_grp in E. unfold times in E. apply m_rep_chr in E.
  destruct E as (w & st' & K & _ & Hp & _ & Hall & Hlo & Hhi).
  inversion K; subst res. cbn [caps set_cap] in Hk.
  rewrite lookup_cap_here, (consumed_pre _ _ _ Hp) in Hk.
  inversion Hk; subst k. now apply mnemonic_of_rep.
Qed.

Lemma vda_segment_mnemonic p s x k :
  match_at P_vda_segment p s = Some x -> group 1 x = Some k ->
  is_mnemonic k.
Proof.
  intros H Hk. apply match_at_inv in H. destruct H as (res & E & Hg).
  rewrite Hg in Hk. clear Hg.
  unfold P_vda_segment in E. cbn [cat] in E.
  rewrite m_cat in E. apply m_sound in E. destruct E as (st1 & _ & E).
  rewrite m_cat in E. apply m_sound in E. destruct E as (st2 & _ & E).
  rewrite m_cat, m_grp in E. unfold times in E. apply m_rep_chr in E.
  destruct E as (w & st' & K & _ & Hp & _ & Hall & Hlo & Hhi).
  apply (m_keeps_group 1) in K; [|reflexivity].
  destruct K as (st3 & _ & K & Hl). inversion K; subst st3.
  rewrite Hl in Hk. cbn [caps set_cap] in Hk.
  rewrite lookup_cap_here, (consumed_pre _ _ _ Hp) in Hk.
  inversion Hk; subst k. now apply mnemonic_of_rep.
Qed.

Lemma re_search_mnemonic s x k :
  re_search P_segment_header s = Some x -> group 1 x = Some k ->
  is_mnemonic k.
Proof.
  intros H Hk. apply search_from_match_at in H. destruct H as (p' & s' & H).
  eapply segment_header_mnemonic; eauto.
Qed.

(** Group 1 of [^([SC]?\d{3,4})\s+(.+)$] holds letters [S], [C] and
    digits only. *)
Lemma vda_code_chars s x code :
  re_match P_vda_code s = Some x -> group 1 x = Some code ->
  all_in (CUnion (one_of "SC") CDigit) code.
Proof.
  intros H Hk. apply match_at_inv in H. destruct H as (res & E & Hg).
  rewrite Hg in Hk. clear Hg.
  unfold P_vda_code in E. cbn [cat] in E.
  rewrite m_cat in E. apply m_bol in E.
  rewrite m_cat, m_grp, m_cat in E. unfold opt in E.
  apply m_rep_chr in E.
  destruct E as (w1 & st1 & E & _ & P1 & _ & A1 & _).
  apply m_rep_chr in E.
  destruct E as (w2 & st2 & K & _ & P2 & _ & A2 & _).
  apply (m_keeps_group 1) in K; [|reflexivity].
  destruct K as (st3 & _ & K & Hl). inversion K; subst st3.
  rewrite Hl in Hk. cbn [caps set_cap] in Hk.
  assert (Hp : pre st2 = rev (w1 ++ w2) ++ pre (MState [] s []))
    by (rewrite P2, P1, rev_app_distr, app_assoc; reflexivity).
  rewrite lookup_cap_here, (consumed_pre _ _ _ Hp) in Hk.
  inversion Hk; subst code. apply all_in_app.
  - eapply all_in_weaken; [|exact A1]. intros c Hc. cbn [cset_mem] in *.
    now rewrite Hc.
  - eapply all_in_weaken; [|exact A2]. intros c Hc. cbn [cset_mem] in *.
    rewrite Hc. now rewrite orb_true_r.
Qed.

Lemma vda_element_code s x code :
  re_match P_vda_code s = Some x -> group 1 x = Some code ->
  matches P_element_code code = true -> is_element_code code.
Proof.
  intros H Hk Hm. pose proof (vda_code_chars s x code H Hk) as Hall.
  apply element_code_shape in Hm.
  destruct Hm as (w & [Hs|Hs] & Hw); [now rewrite Hs|].
  rewrite Hs in Hall. apply all_in_last in Hall. discriminate.
Qed.

Lemma vda_group_code s x code :
  re_match P_vda_code s = Some x -> group 1 x = Some code ->
  matches P_group_code code = true -> is_group_code code.
Proof.
  intros H Hk Hm. pose proof (vda_code_chars s x code H Hk) as Hall.
  apply group_code_shape in Hm.
  destruct Hm as (w & [Hs|Hs] & Hw); [now rewrite Hs|].
  rewrite Hs in Hall. apply all_in_last in Hall. discriminate.
Qed.

(** ** The updates of the map *)

Lemma append_to_segment_update e k s o :
  dict_get (segments_dict e) k = Some s -> obj_champs o = [] ->
  exists e',
    append_to_segment k (length (heap e)) (with_heap e (heap e ++ [o])) = Some e'
    /\ update e (ToSegment k o) e'.
Proof.
  intros Hk Ho. unfold append_to_segment. cbn [segments_dict with_heap].
  rewrite Hk. cbn [bind]. eexists. split; [reflexivity|].
  unfold with_segments, with_heap. cbn [segments_dict pdf_format heap].
  now apply update_to_segment.
Qed.

Lemma append_to_group_update e g c d champs ec ed ef ev eu :
  nth_error (heap e) g = Some (OGroup c d champs) ->
  exists e',
    append_to_group g (length (heap e))
      (with_heap e (heap e ++ [OElement ec ed ef ev eu])) = Some e'
    /\ update e (ToGroup g (OElement ec ed ef ev eu)) e'.
Proof.
  intros Hg.
  assert (Hlt : g < length (heap e)) by (apply nth_error_Some; congruence).
  unfold append_to_group, index. cbn [heap with_heap].
  rewrite nth_error_app1 by exact Hlt. rewrite Hg. cbn [bind].
  eexists. split; [reflexivity|].
  unfold with_heap. cbn [segments_dict pdf_format heap].
  now apply update_to_group.
Qed.

Lemma update_tree e l e' : tree e -> update e l e' -> tree e'.
Proof.
  intros T U. destruct U as [k desc Hk|k s o Hk Ho|g c d champs ec ed ef ev eu Hg].
  - now apply tree_new_segment.
  - destruct (tree_emit_segment e k s o T Hk Ho)
      as (e' & He & T' & _ & Hh & Hf & Hd).
    destruct e' as [d' f' h']. cbn in Hh, Hf, Hd. subst. exact T'.
  - destruct (tree_emit_group e g c d champs ec ed ef ev eu T Hg)
      as (e' & He & T' & Hd & Hf & Hh).
    destruct e' as [d' f' h']. cbn in Hh, Hf, Hd. subst. exact T'.
Qed.

Lemma updates_tree P e e' : tree e -> updates P e e' -> tree e'.
Proof.
  intros T U. induction U as [|e1 l e2 U IH Hl Hu]; [exact T|].
  eapply update_tree; eauto.
Qed.

Lemma updates_trans P e1 e2 e3 :
  updates P e1 e2 -> updates P e2 e3 -> updates P e1 e3.
Proof.
  intros U1 U2. induction U2 as [|e l e' U IH Hl Hu]; [exact U1|].
  eapply updates_snoc; eauto.
Qed.

Lemma updates_weaken (P Q : label -> Prop) e e' :
  (forall l, P l -> Q l) -> updates P e e' -> updates Q e e'.
Proof.
  intros H U. induction U as [|e1 l e2 U IH Hl Hu]; [constructor|].
  eapply updates_snoc; eauto.
Qed.

Lemma updates_one (P : label -> Prop) e l e' :
  P l -> update e l e' -> updates P e e'.
Proof. intros Hl Hu. eapply updates_snoc; eauto. constructor. Qed.

(** A row of a Faurecia table makes at most one update. *)
Lemma faurecia_row_update t i r s s' :
  faurecia_inv s -> faurecia_row t i r s = Some s' ->
  updates schema_label (f_self s) (f_self s').
Proof.
  intros Hinv. pose proof Hinv as (T & Hseg & Hgrp).
  unfold faurecia_row.
  destruct (negb (nonempty r));
    [intros H; inversion H; subst; constructor|].
  set (row_clean := map clean_cell r).
  destruct (re_search P_segment_header (join " " row_clean)) as [x|] eqn:Ex.
  - destruct (re_search_group 1 P_segment_header _ _ eq_refl Ex) as [seg Hx].
    pose proof (re_search_mnemonic _ _ _ Ex Hx) as Hmn.
    rewrite Hx. cbn [bind].
    destruct (match re_search P_header_description (join " " row_clean) with
              | Some desc_match => d <- group 1 desc_match ;; Some (strip d)
              | None => Some []
              end) as [d|]; [|discriminate].
    cbn [bind]. intros H. inversion H; subst s'. cbn [f_self].
    destruct (dict_mem (segments_dict (f_self s)) seg) eqn:Em; cbn [negb].
    + constructor.
    + apply (updates_one _ _ (NewSegment seg)); [exact Hmn|].
      apply update_segment. unfold dict_mem in Em.
      now destruct (dict_get _ seg).
  - destruct (f_current_segment s) as [cur|] eqn:Ec;
      [|intros H; inversion H; subst; constructor].
    destruct (proj1 (dict_mem_get _ _) (Hseg _ eq_refl)) as [sd Hsd].
    usage_total faurecia_lookahead faurecia_lookahead_total.
    destruct (matches P_group_code (cell_at 0 row_clean)) eqn:Egc.
    + apply faurecia_group_code in Egc. unfold alloc.
      destruct (append_to_segment_update (f_self s) cur sd
                  (OGroup (cell_at 0 row_clean)
                     (clean_description (Some (cell_at 1 row_clean))) [])
                  Hsd eq_refl) as (e' & -> & U).
      cbn [bind]. intros H. inversion H; subst s'. cbn [f_self].
      eapply updates_one; [|exact U]. exact Egc.
    + destruct (matches P_element_code (cell_at 0 row_clean)) eqn:Eec;
        [|intros H; inversion H; subst; constructor].
      apply faurecia_element_code in Eec. unfold alloc. destruct (f_current_group s) as [g|] eqn:Eg.
      * destruct (Hgrp _ eq_refl) as (c & d & champs & Hg).
        match goal with
        | |- context [append_to_group g _ (with_heap _ (_ ++ [OElement ?a ?b ?c' ?d' ?e'']))] =>
            destruct (append_to_group_update (f_self s) g c d champs
                        a b c' d' e'' Hg) as (e' & -> & U)
        end.
        cbn [bind]. intros H. inversion H; subst s'. cbn [f_self].
        eapply updates_one; [|exact U]. exact Eec.
      * match goal with
        | |- context [append_to_segment cur _ (with_heap _ (_ ++ [?o]))] =>
            destruct (append_to_segment_update (f_self s) cur sd o Hsd eq_refl)
              as (e' & -> & U)
        end.
        cbn [bind]. intros H. inversion H; subst s'. cbn [f_self].
        eapply updates_one; [|exact U]. exact Eec.
Qed.

(** A row of a VDA table makes at most one update, to the last segment or
    to a group. *)
Lemma vda_row_update t last i r s s' :
  vda_inv last s -> vda_row t last i r s = Some s' ->
  updates (vda_label last) (v_self s) (v_self s').
Proof.
  intros Hinv. pose proof Hinv as (T & Hseg & Hgrp).
  assert (Hsame : Some s = Some s' ->
                  updates (vda_label last) (v_self s) (v_self s'))
    by (intros H; inversion H; subst; constructor).
  unfold vda_row.
  destruct (negb (nonempty r) || (length r <? 2)); [exact Hsame|].
  set (row_clean := map clean_cell r).
  destruct (negb (nonempty (cell_at 0 row_clean)) || _ || _); [exact Hsame|].
  destruct (re_match P_vda_code (cell_at 0 row_clean)) as [x|] eqn:Ex;
    [|exact Hsame].
  destruct (re_match_group 1 P_vda_code _ _ eq_refl Ex) as [code Hcode].
  destruct (re_match_group 2 P_vda_code _ _ eq_refl Ex) as [desc ->].
  rewrite Hcode. cbn [bind].
  destruct (proj1 (dict_mem_get _ _) Hseg) as [sd Hsd].
  usage_total vda_lookahead vda_lookahead_total.
  destruct (matches P_group_code code) eqn:Egc.
  - apply (vda_group_code _ _ _ Ex Hcode) in Egc. unfold alloc.
    destruct (append_to_segment_update (v_self s) last sd
                (OGroup code (clean_description (Some (strip desc))) [])
                Hsd eq_refl) as (e' & -> & U).
    cbn [bind]. intros H. inversion H; subst s'. cbn [v_self].
    eapply updates_one; [|exact U]. now split.
  - destruct (matches P_element_code code) eqn:Eec; [|exact Hsame].
    apply (vda_element_code _ _ _ Ex Hcode) in Eec. unfold alloc. destruct (v_current_group s) as [g|] eqn:Eg.
    + destruct (Hgrp _ eq_refl) as (c & d & champs & Hg).
      match goal with
      | |- context [append_to_group g _ (with_heap _ (_ ++ [OElement ?a ?b ?c' ?d' ?e'']))] =>
          destruct (append_to_group_update (v_self s) g c d champs
                      a b c' d' e'' Hg) as (e' & -> & U)
      end.
      cbn [bind]. intros H. inversion H; subst s'. cbn [v_self].
      eapply updates_one; [|exact U]. now split.
    + match goal with
      | |- context [append_to_segment last _ (with_heap _ (_ ++ [?o]))] =>
          destruct (append_to_segment_update (v_self s) last sd o Hsd eq_refl)
            as (e' & -> & U)
      end.
      cbn [bind]. intros H. inversion H; subst s'. cbn [v_self].
      eapply updates_one; [|exact U]. now split.
Qed.

Lemma faurecia_rows_updates t rows : forall i s,
  faurecia_inv s ->
  exists s', faurecia_rows t i rows s = Some s' /\ faurecia_inv s'
             /\ updates schema_label (f_self s) (f_self s').
Proof.
  induction rows as [|r rows IH]; intros i s Hs; simpl.
  - exists s. split; [reflexivity|]. split; [exact Hs | constructor].
  - destruct (faurecia_row_inv t i r s Hs) as (s1 & E1 & H1 & _).
    pose proof (faurecia_row_update t i r s s1 Hs E1) as U1.
    rewrite E1. cbn [bind].
    destruct (IH (S i) s1 H1) as (s' & E' & H' & U').
    exists s'. split; [exact E'|]. split; [exact H'|].
    eapply updates_trans; eauto.
Qed.

Lemma parse_faurecia_table_updates t self :
  tree self ->
  exists self', _parse_faurecia_table t self = Some self'
                /\ updates schema_label self self'.
Proof.
  intros T. unfold _parse_faurecia_table.
  destruct (faurecia_rows_updates t t 0 (FState self None None)
              (faurecia_inv_start self T)) as (s' & -> & _ & U).
  cbn [bind]. now exists (f_self s').
Qed.

(** A loop whose body makes updates makes updates. *)
Lemma for_each_updates {A} (P : label -> Prop)
  (body : A -> extractor -> option extractor) l :
  (forall x e, tree e -> exists e', body x e = Some e' /\ updates P e e') ->
  forall e, tree e -> exists e', for_each body l e = Some e' /\ updates P e e'.
Proof.
  intros Hb. induction l as [|x l IH]; intros e T; simpl.
  - exists e. split; [reflexivity | constructor].
  - destruct (Hb x e T) as (e1 & -> & U1). cbn [bind].
    destruct (IH e1 (updates_tree _ _ _ T U1)) as (e' & E' & U').
    exists e'. split; [exact E'|]. eapply updates_trans; eauto.
Qed.

Lemma faurecia_table_updates t self :
  tree self ->
  exists self', faurecia_table t self = Some self'
                /\ updates schema_label self self'.
Proof.
  intros T. unfold faurecia_table.
  destruct (negb (nonempty t) || (length t <? 5)).
  - exists self. split; [reflexivity | constructor].
  - now apply parse_faurecia_table_updates.
Qed.

Lemma extract_faurecia_format_updates doc self :
  tree self ->
  exists self', extract_faurecia_format doc self = Some self'
                /\ updates schema_label self self'.
Proof.
  intros T. unfold extract_faurecia_format.
  apply for_each_updates; [|exact T].
  intros p e Te. unfold faurecia_page.
  apply for_each_updates; [|exact Te].
  intros t e0 Te0. now apply faurecia_table_updates.
Qed.

Lemma vda_rows_updates t last rows : forall i s,
  vda_inv last s ->
  exists s', vda_rows t last i rows s = Some s' /\ vda_inv last s'
             /\ updates (vda_label last) (v_self s) (v_self s').
Proof.
  induction rows as [|r rows IH]; intros i s Hs; simpl.
  - exists s. split; [reflexivity|]. split; [exact Hs | constructor].
  - destruct (vda_row_inv t last i r s Hs) as (s1 & E1 & H1 & _).
    pose proof (vda_row_update t last i r s s1 Hs E1) as U1.
    rewrite E1. cbn [bind].
    destruct (IH (S i) s1 H1) as (s' & E' & H' & U').
    exists s'. split; [exact E'|]. split; [exact H'|].
    eapply updates_trans; eauto.
Qed.

Lemma parse_vda_table_updates t self last :
  tree self -> last_item (dict_keys (segments_dict self)) = Some last ->
  exists self', _parse_vda_table t self = Some self'
                /\ updates (vda_label last) self self'.
Proof.
  intros T Hl. unfold _parse_vda_table.
  destruct (nonempty (segments_dict self)) eqn:E; cbn [negb].
  - rewrite Hl. cbn [bind].
    destruct (vda_rows_updates t last t 0 (VState self None)
                (vda_inv_start self last T Hl)) as (s' & -> & _ & U).
    cbn [bind]. now exists (v_self s').
  - exists self. split; [reflexivity | constructor].
Qed.

Lemma parse_vda_table_updates_any t self :
  tree self ->
  exists self', _parse_vda_table t self = Some self'
                /\ updates schema_label self self'.
Proof.
  intros T.
  destruct (last_item (dict_keys (segments_dict self))) as [last|] eqn:El.
  - destruct (parse_vda_table_updates t self last T El) as (e' & E & U).
    exists e'. split; [exact E|].
    eapply updates_weaken; [|exact U]. now intros l [Hl _].
  - unfold _parse_vda_table.
    destruct (nonempty (segments_dict self)) eqn:E; cbn [negb].
    + destruct (last_item_keys _ E) as (k & Hk & _). congruence.
    + exists self. split; [reflexivity | constructor].
Qed.

Lemma vda_header_updates x self :
  (exists v, group 1 x = Some v /\ is_mnemonic v)
  /\ (exists v, group 4 x = Some v) ->
  exists self', vda_header x self = Some self' /\ updates schema_label self self'.
Proof.
  intros [(v1 & H1 & Hmn) [v4 H4]]. unfold vda_header. rewrite H1, H4.
  cbn [bind].
  destruct (dict_mem (segments_dict self) v1) eqn:E; cbn [negb].
  - exists self. split; [reflexivity | constructor].
  - eexists. split; [reflexivity|].
    apply (updates_one _ _ (NewSegment v1)); [exact Hmn|].
    apply update_segment. unfold dict_mem in E. now destruct (dict_get _ v1).
Qed.

Lemma vda_headers_updates l :
  Forall (fun x => (exists v, group 1 x = Some v /\ is_mnemonic v)
                   /\ (exists v, group 4 x = Some v)) l ->
  forall self,
    exists self', for_each vda_header l self = Some self'
                  /\ updates schema_label self self'.
Proof.
  induction 1 as [|x l Hx Hl IH]; intros self; simpl.
  - exists self. split; [reflexivity | constructor].
  - destruct (vda_header_updates x self Hx) as (e1 & -> & U1). cbn [bind].
    destruct (IH e1) as (e' & E' & U').
    exists e'. split; [exact E'|]. eapply updates_trans; eauto.
Qed.

Lemma finditer_vda_segment_groups text :
  Forall (fun x => (exists v, group 1 x = Some v /\ is_mnemonic v)
                   /\ (exists v, group 4 x = Some v))
    (re_finditer P_vda_segment text).
Proof.
  apply Forall_forall. intros x Hx. split.
  - pose proof (finditer_loop_group 1 P_vda_segment (S (length text)) [] text
                  eq_refl) as F.
    rewrite Forall_forall in F. destruct (F x Hx) as [v Hv].
    exists v. split; [exact Hv|].
    destruct (finditer_loop_match_at _ _ _ _ _ Hx) as (p' & s' & Hm).
    eapply vda_segment_mnemonic; eauto.
  - pose proof (finditer_loop_group 4 P_vda_segment (S (length text)) [] text
                  eq_refl) as F.
    rewrite Forall_forall in F. now apply F.
Qed.

Lemma vda_table_updates t self :
  tree self ->
  exists self', vda_table t self = Some self' /\ updates schema_label self self'.
Proof.
  intros T. unfold vda_table.
  destruct (negb (nonempty t) || (length t <? 3)).
  - exists self. split; [reflexivity | constructor].
  - now apply parse_vda_table_updates_any.
Qed.

Lemma vda_page_updates p self :
  tree self ->
  exists self', vda_page p self = Some self' /\ updates schema_label self self'.
Proof.
  intros T. unfold vda_page.
  destruct (extract_text p) as [[|c text]|];
    try (exists self; split; [reflexivity | constructor]).
  destruct (vda_headers_updates _ (finditer_vda_segment_groups (c :: text)) self)
    as (e1 & -> & U1).
  cbn [bind].
  destruct (for_each_updates schema_label vda_table (extract_tables p)
              vda_table_updates e1 (updates_tree _ _ _ T U1)) as (e' & E' & U').
  exists e'. split; [exact E'|]. eapply updates_trans; eauto.
Qed.

Lemma extract_vda4932_format_updates doc self :
  tree self ->
  exists self', extract_vda4932_format doc self = Some self'
                /\ updates schema_label self self'.
Proof.
  intros T. unfold extract_vda4932_format.
  apply for_each_updates; [|exact T].
  intros p e Te. now apply vda_page_updates.
Qed.

(** ** The map only grows *)

Lemma extends_refl e : extends e e.
Proof.
  split; [exists []; now rewrite app_nil_r|]. split; [|split].
  - intros k s H. exists []. rewrite app_nil_r, H. now destruct s.
  - auto.
  - intros g c d champs H. exists []. now rewrite app_nil_r.
Qed.

Lemma extends_trans e1 e2 e3 : extends e1 e2 -> extends e2 e3 -> extends e1 e3.
Proof.
  intros (K1 & S1 & E1 & G1) (K2 & S2 & E2 & G2).
  split; [|split; [|split]].
  - destruct K1 as [m1 K1], K2 as [m2 K2]. exists (m1 ++ m2).
    now rewrite K2, K1, app_assoc.
  - intros k s H. destruct (S1 k s H) as [m1 H1].
    destruct (S2 k _ H1) as [m2 H2]. cbn in H2.
    exists (m1 ++ m2). now rewrite H2, app_assoc.
  - intros a c d f v u H. apply E2. now apply E1.
  - intros g c d champs H. destruct (G1 g c d champs H) as [m1 H1].
    destruct (G2 g c d _ H1) as [m2 H2].
    exists (m1 ++ m2). now rewrite H2, app_assoc.
Qed.

Lemma str_eqb_false_of_get {V} (d : dict V) k k' v :
  dict_get d k = None -> dict_get d k' = Some v -> str_eqb k k' = false.
Proof.
  intros H1 H2. apply str_eqb_neq. intros ->. congruence.
Qed.

Lemma nth_error_old {A} (h : list A) o a x :
  nth_error h a = Some x -> nth_error (h ++ [o]) a = Some x.
Proof.
  intros H. rewrite nth_error_app1; [exact H|].
  apply nth_error_Some. congruence.
Qed.

Lemma update_extends e l e' : update e l e' -> extends e e'.
Proof.
  intros U. destruct U as [k desc Hk|k s o Hk Ho|g c d champs ec ed ef ev eu Hg].
  - split; [|split; [|split]]; cbn.
    + exists [k]. rewrite (dict_set_absent _ _ _ Hk).
      unfold dict_keys. now rewrite map_app.
    + intros k' s H. exists []. rewrite app_nil_r, dict_get_set.
      rewrite (str_eqb_false_of_get _ _ _ _ Hk H), H. now destruct s.
    + auto.
    + intros g c d champs H. exists []. now rewrite app_nil_r.
  - split; [|split; [|split]]; cbn.
    + exists []. rewrite app_nil_r. eapply dict_set_keys; eauto.
    + intros k' s' H. rewrite dict_get_set.
      destruct (str_eqb k k') eqn:E.
      * apply str_eqb_eq in E. subst k'. rewrite Hk in H. inversion H; subst s'.
        now exists [length (heap e)].
      * exists []. rewrite app_nil_r, H. now destruct s'.
    + intros a c d f v u H. now apply nth_error_old.
    + intros g c d champs H. exists []. rewrite app_nil_r.
      now apply nth_error_old.
  - assert (Hlt : g < length (heap e)) by (apply nth_error_Some; congruence).
    split; [|split; [|split]]; cbn.
    + exists []. now rewrite app_nil_r.
    + intros k s H. exists []. rewrite app_nil_r, H. now destruct s.
    + intros a c0 d0 f v u H. rewrite nth_error_list_set.
      destruct (Nat.eqb a g) eqn:E.
      * apply Nat.eqb_eq in E. subst a. congruence.
      * now apply nth_error_old.
    + intros g' c0 d0 champs0 H. rewrite nth_error_list_set.
      destruct (Nat.eqb g' g) eqn:E.
      * apply Nat.eqb_eq in E. subst g'. rewrite Hg in H.
        inversion H; subst. exists [length (heap e)].
        destruct (g <? _) eqn:El; [reflexivity|].
        apply Nat.ltb_ge in El. rewrite length_app in El. simpl in El. lia.
      * exists []. rewrite app_nil_r. now apply nth_error_old.
Qed.

Lemma updates_extends P e e' : updates P e e' -> extends e e'.
Proof.
  induction 1 as [|e1 l e2 U IH Hl Hu]; [apply extends_refl|].
  eapply extends_trans; [exact IH | eapply update_extends; eauto].
Qed.

(** X1: parsing only adds to the map.  From an extractor that is a tree,
    each table parser and each of the two extractions returns an extractor
    that extends it: no segment is removed or reordered, new segments come
    after the old ones, a segment keeps the description it was created
    with and the elements it had, in their order, as the first of its
    elements; an element already emitted is never modified, and a group
    keeps its children as the first of its children. *)
Theorem parsing_extends self :
  tree self ->
  (forall t, exists self',
     _parse_faurecia_table t self = Some self' /\ extends self self')
  /\ (forall t, exists self',
        _parse_vda_table t self = Some self' /\ extends self self')
  /\ (forall doc, exists self',
        extract_faurecia_format doc self = Some self' /\ extends self self')
  /\ (forall doc, exists self',
        extract_vda4932_format doc self = Some self' /\ extends self self').
Proof.
  intros T. split; [|split; [|split]].
  - intros t. destruct (parse_faurecia_table_updates t self T) as (e' & E & U).
    exists e'. split; [exact E | eapply updates_extends; eauto].
  - intros t. destruct (parse_vda_table_updates_any t self T) as (e' & E & U).
    exists e'. split; [exact E | eapply updates_extends; eauto].
  - intros doc.
    destruct (extract_faurecia_format_updates doc self T) as (e' & E & U).
    exists e'. split; [exact E | eapply updates_extends; eauto].
  - intros doc.
    destruct (extract_vda4932_format_updates doc self T) as (e' & E & U).
    exists e'. split; [exact E | eapply updates_extends; eauto].
Qed.

Lemma nad_bgm_tree : tree nad_bgm.
Proof.
  constructor; cbn.
  - repeat constructor; cbn; intuition discriminate.
  - intros k s [H|[H|[]]]; now inversion H.
  - constructor.
  - intros a. split; [tauto | lia].
  - intros g a. unfold children. now destruct g.
Qed.

Lemma parsing_extends_witness :
  tree nad_bgm
  /\ (exists self', _parse_faurecia_table nad_table nad_bgm = Some self'
                    /\ extends nad_bgm self')
  /\ (exists self', _parse_vda_table vda_table_rows nad_bgm = Some self'
                    /\ extends nad_bgm self').
Proof.
  split; [exact nad_bgm_tree|]. split.
  - exact (proj1 (parsing_extends nad_bgm nad_bgm_tree) nad_table).
  - exact (proj1 (proj2 (parsing_extends nad_bgm nad_bgm_tree)) vda_table_rows).
Defined.

(** ** Lists in ascending order of address *)

Lemma sorted_snoc l n :
  StronglySorted lt l -> Forall (fun a => a < n) l ->
  StronglySorted lt (l ++ [n]).
Proof.
  induction 1 as [|x l Hl IH Hx]; intros Hb; simpl.
  - repeat constructor.
  - inversion Hb; subst. constructor; [now apply IH|].
    apply Forall_app. split; [exact Hx | now repeat constructor].
Qed.

Lemma elements_bound e k s a :
  tree e -> In (k, s) (segments_dict e) -> In a (elements s) ->
  a < length (heap e).
Proof.
  intros T Hin Ha. apply (tree_cover T). unfold all_refs.
  apply in_or_app. left. unfold segment_refs. apply in_flat_map.
  now exists (k, s).
Qed.

Lemma champs_bound e g c d champs a :
  tree e -> nth_error (heap e) g = Some (OGroup c d champs) -> In a champs ->
  a < length (heap e).
Proof.
  intros T Hg Ha. apply (tree_cover T). unfold all_refs.
  apply in_or_app. right. unfold group_refs. apply in_flat_map.
  exists (OGroup c d champs). split; [|exact Ha].
  eapply nth_error_In; eauto.
Qed.

Lemma nth_error_snoc_inv {A} (h : list A) o a x :
  nth_error (h ++ [o]) a = Some x ->
  nth_error h a = Some x \/ (a = length h /\ x = o).
Proof.
  intros H. destruct (Nat.lt_ge_cases a (length h)) as [Hlt|Hge].
  - left. now rewrite nth_error_app1 in H.
  - right. rewrite nth_error_app2 in H by exact Hge.
    destruct (a - length h) as [|n] eqn:E.
    + simpl in H. inversion H. split; [lia | reflexivity].
    + simpl in H. now destruct n.
Qed.

Lemma update_ordered e l e' : tree e -> ordered e -> update e l e' -> ordered e'.
Proof.
  intros T [Os Og] U.
  destruct U as [k desc Hk|k s o Hk Ho|g c d champs ec ed ef ev eu Hg].
  - split; cbn; [|exact Og].
    intros k' s' Hin. apply dict_set_In in Hin.
    destruct Hin as [[-> ->]|Hin]; [constructor | eapply Os; eauto].
  - split; cbn.
    + intros k' s' Hin. apply dict_set_In in Hin.
      destruct Hin as [[-> ->]|Hin]; [|eapply Os; eauto]. cbn.
      apply dict_get_In in Hk. apply sorted_snoc; [eapply Os; eauto|].
      apply Forall_forall. intros a Ha. eapply elements_bound; eauto.
    + intros g c d champs Hg. apply nth_error_snoc_inv in Hg.
      destruct Hg as [Hg|[_ Hgo]]; [eapply Og; eauto|].
      subst o. cbn in Ho. subst champs. split; constructor.
  - assert (Hlt : g < length (heap e)) by (apply nth_error_Some; congruence).
    split; cbn; [exact Os|].
    intros g' c0 d0 champs0 Hg0. rewrite nth_error_list_set in Hg0.
    destruct (Nat.eqb g' g) eqn:E.
    + apply Nat.eqb_eq in E. subst g'.
      destruct (g <? _); [|discriminate]. inversion Hg0; subst.
      destruct (Og g c0 d0 champs Hg) as [S1 F1]. split.
      * apply sorted_snoc; [exact S1|]. apply Forall_forall.
        intros a Ha. eapply champs_bound; eauto.
      * apply Forall_app. split; [exact F1 | now repeat constructor].
    + apply nth_error_snoc_inv in Hg0.
      destruct Hg0 as [Hg0|[_ Hg0]]; [eapply Og; eauto | discriminate].
Qed.

Lemma updates_ordered P e e' :
  tree e -> ordered e -> updates P e e' -> ordered e'.
Proof.
  intros T O U. induction U as [|e1 l e2 U IH Hl Hu]; [exact O|].
  eapply update_ordered; [eapply updates_tree; eauto | exact IH | exact Hu].
Qed.

(** ** A Faurecia table without a segment header *)

Lemma faurecia_rows_without_header (t : table) self (rows : list row) :
  forall i,
  Forall (fun r => found P_segment_header (join " " (map clean_cell r)) = false)
    rows ->
  faurecia_rows t i rows (FState self None None)
  = Some (FState self None None).
Proof.
  induction rows as [|r rows IH]; intros i H; simpl; [reflexivity|].
  inversion H; subst.
  rewrite faurecia_row_before_header by auto. cbn [bind]. now apply IH.
Qed.

(** X4: the open segment does not outlive a table.  A Faurecia table none
    of whose rows is a segment header leaves the extractor as it was,
    whatever codes its rows hold and whatever segment the table before it
    opened. *)
Theorem faurecia_table_without_header (t : table) self :
  Forall (fun r => found P_segment_header (join " " (map clean_cell r)) = false)
    t ->
  _parse_faurecia_table t self = Some self
  /\ faurecia_table t self = Some self.
Proof.
  intros H.
  assert (E : _parse_faurecia_table t self = Some self).
  { unfold _parse_faurecia_table.
    now rewrite faurecia_rows_without_header. }
  split; [exact E|]. unfold faurecia_table.
  destruct (_ || _); [reflexivity | exact E].
Qed.

Lemma faurecia_table_without_header_witness :
  Forall (fun r => found P_segment_header (join " " (map clean_cell r)) = false)
    headerless_table
  /\ _parse_faurecia_table headerless_table nad_bgm = Some nad_bgm
  /\ extract_faurecia_format
       [Page None [[nad_header; party_row; party_row; party_row; party_row];
                   headerless_table]] init
     = extract_faurecia_format
         [Page None [[nad_header; party_row; party_row; party_row; party_row]]]
         init.
Proof.
  assert (H : Forall (fun r => found P_segment_header
                                 (join " " (map clean_cell r)) = false)
                headerless_table)
    by (repeat constructor; vm_compute; reflexivity).
  split; [exact H|]. split.
  - exact (proj1 (faurecia_table_without_header headerless_table nad_bgm H)).
  - cbn [extract_faurecia_format for_each faurecia_page extract_tables].
    destruct (faurecia_table [nad_header; party_row; party_row; party_row;
                              party_row] init) as [e|]; [|reflexivity].
    cbn [bind].
    rewrite (proj2 (faurecia_table_without_header headerless_table e H)).
    reflexivity.
Defined.

(** ** Continuation rows in the outer loop *)





(** ** [get_statistics] *)

Lemma counted_refl st : counted 0 0 st st.
Proof. unfold counted. repeat split; lia. Qed.

Lemma counted_trans n1 m1 n2 m2 a b c :
  counted n1 m1 a b -> counted n2 m2 b c -> counted (n1 + n2) (m1 + m2) a c.
Proof. unfold counted. intros H1 H2. repeat split; lia. Qed.

Lemma bump_le b n : n <= bump b n <= S n.
Proof. destruct b; simpl; lia. Qed.

Lemma stat_champ_counted h a st :
  is_element h a ->
  exists st', stat_champ h a st = Some st' /\ counted 0 1 st st'.
Proof.
  intros (c & d & f & v & u & H). unfold stat_champ, index. rewrite H.
  cbn [bind]. eexists. split; [reflexivity|].
  pose proof (bump_le (nonempty f) (elements_with_format st)).
  pose proof (bump_le (nonempty v) (elements_with_value st)).
  pose proof (bump_le (nonempty u) (elements_with_usage st)).
  unfold counted. cbn. repeat split; lia.
Qed.

Lemma stat_champs_counted h champs : forall st,
  (forall a, In a champs -> is_element h a) ->
  exists st', for_each (stat_champ h) champs st = Some st'
              /\ counted 0 (length champs) st st'.
Proof.
  induction champs as [|a champs IH]; intros st H; simpl.
  - exists st. split; [reflexivity | apply counted_refl].
  - destruct (stat_champ_counted h a st (H a (or_introl eq_refl)))
      as (st1 & -> & C1).
    cbn [bind]. destruct (IH st1) as (st' & E' & C').
    { intros b Hb. apply H. now right. }
    exists st'. split; [exact E'|].
    eapply (counted_trans 0 1 0 (length champs)); eassumption.
Qed.

Lemma stat_elem_counted h a st :
  a < length h -> (forall b, In b (children h a) -> is_element h b) ->
  exists st', stat_elem h a st = Some st' /\ counted 1 (fanout h a) st st'.
Proof.
  intros Hlt Hch. unfold stat_elem, index, fanout, children in *.
  apply nth_error_Some in Hlt.
  destruct (nth_error h a) as [[c d f v u|c d champs]|]; [| |contradiction].
  - cbn [bind]. eexists. split; [reflexivity|].
    pose proof (bump_le (nonempty f) (elements_with_format st)).
    pose proof (bump_le (nonempty v) (elements_with_value st)).
    pose proof (bump_le (nonempty u) (elements_with_usage st)).
    unfold counted. cbn. repeat split; lia.
  - cbn [bind obj_champs] in *.
    match goal with
    | |- context [for_each _ _ ?s0] =>
        destruct (stat_champs_counted h champs s0 Hch) as (st' & -> & C)
    end.
    exists st'. split; [reflexivity|].
    unfold counted in *. cbn in C. repeat split; lia.
Qed.

Lemma stat_elems_counted h l : forall st,
  (forall a, In a l -> a < length h) ->
  (forall g b, In b (children h g) -> is_element h b) ->
  exists st', for_each (stat_elem h) l st = Some st'
              /\ counted (length l) (sum_map (fanout h) l) st st'.
Proof.
  induction l as [|a l IH]; intros st Hb Hch; simpl.
  - exists st. split; [reflexivity | apply counted_refl].
  - destruct (stat_elem_counted h a st (Hb a (or_introl eq_refl)) (Hch a))
      as (st1 & -> & C1).
    cbn [bind]. destruct (IH st1) as (st' & E' & C'); [intros b Hin; apply Hb; now right | exact Hch |].
    exists st'. split; [exact E'|].
    eapply (counted_trans 1 (fanout h a) (length l) (sum_map (fanout h) l));
      eassumption.
Qed.

Lemma sum_map_app {A} (f : A -> nat) l1 l2 :
  sum_map f (l1 ++ l2) = sum_map f l1 + sum_map f l2.
Proof. induction l1; simpl; lia. Qed.

Lemma stat_segments_counted h (d : dict segment_data) : forall st,
  (forall a, In a (segment_refs d) -> a < length h) ->
  (forall g b, In b (children h g) -> is_element h b) ->
  exists st', for_each (stat_segment h) (dict_values d) st = Some st'
              /\ counted (length (segment_refs d))
                   (sum_map (fanout h) (segment_refs d)) st st'.
Proof.
  induction d as [|[k s] d IH]; intros st Hb Hch; simpl.
  - exists st. split; [reflexivity | apply counted_refl].
  - unfold stat_segment at 1.
    destruct (stat_elems_counted h (elements s) st) as (st1 & -> & C1).
    { intros a Ha. apply Hb. cbn. apply in_or_app. now left. }
    { exact Hch. }
    cbn [bind]. destruct (IH st1) as (st' & E' & C').
    { intros a Ha. apply Hb. cbn. apply in_or_app. now right. }
    { exact Hch. }
    exists st'. split; [exact E'|].
    rewrite length_app, sum_map_app. eapply counted_trans; eassumption.
Qed.

(** Counting the objects of a tree. *)

Lemma sum_map_perm {A} (f : A -> nat) l l' :
  Permutation l l' -> sum_map f l = sum_map f l'.
Proof. induction 1; simpl; lia. Qed.

Lemma sum_map_zero {A} (f : A -> nat) l :
  (forall x, In x l -> f x = 0) -> sum_map f l = 0.
Proof.
  induction l as [|x l IH]; intros H; simpl; [reflexivity|].
  rewrite (H x (or_introl eq_refl)), IH; [reflexivity|].
  intros y Hy. apply H. now right.
Qed.

Lemma sum_map_ext_in {A} (f g : A -> nat) l :
  (forall x, In x l -> f x = g x) -> sum_map f l = sum_map g l.
Proof.
  induction l as [|x l IH]; intros H; simpl; [reflexivity|].
  rewrite (H x (or_introl eq_refl)), IH; [reflexivity|].
  intros y Hy. apply H. now right.
Qed.

Lemma fanout_total h :
  sum_map (fanout h) (seq 0 (length h)) = length (group_refs h).
Proof.
  induction h as [|o h IH] using rev_ind; [reflexivity|].
  rewrite length_app, Nat.add_comm. cbn [length plus].
  rewrite seq_S, sum_map_app, group_refs_app, length_app. cbn [sum_map plus].
  rewrite <- IH. f_equal.
  - apply sum_map_ext_in. intros a Ha. apply in_seq in Ha.
    unfold fanout. rewrite children_app_old by lia. reflexivity.
  - unfold fanout, children. rewrite nth_error_app2 by lia.
    rewrite Nat.sub_diag. cbn. lia.
Qed.

Lemma tree_refs_perm e : tree e -> Permutation (all_refs e) (seq 0 (length (heap e))).
Proof.
  intros T. apply NoDup_Permutation.
  - exact (tree_one_parent T).
  - apply seq_NoDup.
  - intros a. rewrite in_seq. rewrite (tree_cover T). lia.
Qed.

Lemma tree_count e :
  tree e ->
  length (segment_refs (segments_dict e))
  + sum_map (fanout (heap e)) (segment_refs (segments_dict e))
  = length (heap e).
Proof.
  intros T. pose proof (tree_refs_perm e T) as P.
  pose proof (Permutation_length P) as Hlen.
  pose proof (sum_map_perm (fanout (heap e)) _ _ P) as Hsum.
  unfold all_refs in Hlen, Hsum.
  rewrite length_app, length_seq in Hlen.
  rewrite sum_map_app, fanout_total in Hsum.
  assert (Hz : sum_map (fanout (heap e)) (group_refs (heap e)) = 0).
  { apply sum_map_zero. intros a Ha. unfold group_refs in Ha.
    apply in_flat_map in Ha. destruct Ha as (o & Ho & Ha).
    apply In_nth_error in Ho. destruct Ho as [g Hg].
    destruct (tree_leaves T g a) as (c & d & f & v & u & Hel).
    - unfold children. now rewrite Hg.
    - unfold fanout, children. now rewrite Hel. }
  lia.
Qed.

(** X6: the statistics count every object once.  On a tree
    [get_statistics] raises nothing; [segments] is the size of the map;
    [total_elements] is [simple_elements + groups]; the elements and the
    groups counted are all the objects emitted, each once
    ([simple_elements + groups + elements_in_groups] is their number); and
    none of the three counters of filled fields exceeds the number of
    elements. *)
Theorem get_statistics_counts self :
  tree self ->
  exists st,
    get_statistics self = Some st
    /\ st_segments st = length (segments_dict self)
    /\ total_elements st = simple_elements st + groups st
    /\ simple_elements st + groups st + elements_in_groups st
       = length (heap self)
    /\ elements_with_format st <= simple_elements st + elements_in_groups st
    /\ elements_with_value st <= simple_elements st + elements_in_groups st
    /\ elements_with_usage st <= simple_elements st + elements_in_groups st.
Proof.
  intros T. unfold get_statistics.
  destruct (stat_segments_counted (heap self) (segments_dict self)
              (Stats (length (segments_dict self)) 0 0 0 0 0 0 0))
    as (st & E & C).
  - intros a Ha. apply (tree_cover T). unfold all_refs. apply in_or_app.
    now left.
  - exact (tree_leaves T).
  - exists st. split; [exact E|].
    pose proof (tree_count self T) as Hc.
    unfold counted in C. cbn in C. repeat split; lia.
Qed.

Lemma get_statistics_counts_witness :
  exists self st,
    extract_faurecia_format two_segments init = Some self
    /\ tree self
    /\ get_statistics self = Some st
    /\ length (heap self) = 2
    /\ simple_elements st + groups st + elements_in_groups st = 2.
Proof.
  destruct (extract_faurecia_format_tree two_segments init tree_init)
    as (self & E & T).
  destruct (get_statistics_counts self T) as (st & Es & _ & _ & H3 & _).
  exists self, st. split; [exact E|]. split; [exact T|]. split; [exact Es|].
  assert (Hh : length (heap self) = 2).
  { vm_compute in E. inversion E. reflexivity. }
  split; [exact Hh | now rewrite H3].
Defined.

Lemma stat_segments_enrich h d : forall st,
  for_each (stat_segment h) (dict_values (map enrich_segment d)) st
  = for_each (stat_segment h) (dict_values d) st.
Proof.
  induction d as [|[k s] d IH]; intros st; simpl; [reflexivity|].
  unfold stat_segment at 1 3. cbn [elements].
  destruct (for_each (stat_elem h) (elements s) st); cbn [bind];
    [apply IH | reflexivity].
Qed.

(** X7: the enrichment changes the descriptions of the segments and
    nothing else: the keys and their order, the elements of every segment
    and every object are as they were, so the statistics are the same
    before and after it. *)
Theorem enrichment_keeps_structure self :
  dict_keys (segments_dict (add_standard_descriptions self))
  = dict_keys (segments_dict self)
  /\ map elements (dict_values (segments_dict (add_standard_descriptions self)))
     = map elements (dict_values (segments_dict self))
  /\ map segment (dict_values (segments_dict (add_standard_descriptions self)))
     = map segment (dict_values (segments_dict self))
  /\ heap (add_standard_descriptions self) = heap self
  /\ get_statistics (add_standard_descriptions self) = get_statistics self.
Proof.
  unfold add_standard_descriptions. cbn [segments_dict heap with_segments].
  split; [apply enrich_keys|]. split; [|split; [|split]].
  - unfold dict_values. rewrite !map_map. apply map_ext. now intros [k s].
  - unfold dict_values. rewrite !map_map. apply map_ext. now intros [k s].
  - reflexivity.
  - unfold get_statistics. cbn [segments_dict heap with_segments].
    rewrite length_map. apply stat_segments_enrich.
Qed.

(** X8: the enrichment keeps a description that says something.  When
    the description of a segment, normalized again, is neither empty nor
    one of the placeholders ["0"] and ["1"], the segment ends with that
    normalized description, whether its mnemonic is in the standard table
    or not. *)
Theorem enrichment_keeps_real_description self k s :
  dict_get (segments_dict self) k = Some s ->
  clean_description (Some (description s)) <> [] ->
  ~ In (clean_description (Some (description s))) [L "0"; L "1"; L ""] ->
  dict_get (segments_dict (add_standard_descriptions self)) k
  = Some (Segment (segment s) (clean_description (Some (description s)))
            (elements s)).
Proof.
  intros Hk Hne Hnp. unfold add_standard_descriptions.
  cbn [segments_dict with_segments]. rewrite dict_get_enrich, Hk.
  cbn [option_map]. unfold enrich_description.
  destruct (description s) as [|c d] eqn:Ed; [now elim Hne|].
  cbv zeta. cbn [nonempty].
  match goal with
  | |- context [if ?b then _ else _] => destruct b eqn:E
  end; [|reflexivity].
  exfalso. apply orb_true_iff in E. destruct E as [E|E].
  - revert E Hne. destruct (clean_description _);
      [intros _ H; now elim H | discriminate].
  - apply is_placeholder_In in E. contradiction.
Qed.

Lemma enrichment_keeps_real_description_witness :
  dict_get (segments_dict nad_bgm) (L "NAD")
  = Some (Segment "NAD" "Name and address" [])
  /\ clean_description (Some (L "Name and address")) <> []
  /\ ~ In (clean_description (Some (L "Name and address")))
         [L "0"; L "1"; L ""]
  /\ dict_get (segments_dict (add_standard_descriptions nad_bgm)) (L "NAD")
     = Some (Segment "NAD" "Name and address" []).
Proof.
  assert (H1 : clean_description (Some (L "Name and address")) <> [])
    by (vm_compute; discriminate).
  assert (H2 : ~ In (clean_description (Some (L "Name and address")))
                 [L "0"; L "1"; L ""])
    by (vm_compute; intuition discriminate).
  split; [reflexivity|]. split; [exact H1|]. split; [exact H2|].
  exact (enrichment_keeps_real_description nad_bgm (L "NAD")
           (Segment "NAD" "Name and address" []) eq_refl H1 H2).
Defined.

(** ** [clean_description] never lengthens *)

(** X9: the normalizer only deletes: its result is never longer than its
    input, and when neither the status pattern nor the [NOT USED] pattern
    matches the input the result is the input trimmed. *)
Theorem clean_description_only_deletes s :
  length (clean_description (Some s)) <= length s
  /\ (found P_status s = false -> found P_not_used s = false ->
      clean_description (Some s) = strip s).
Proof.
  split.
  - pose proof (clean_description_length s).
    pose proof (re_sub_delete_length P_status s). lia.
  - intros H1 H2. apply found_false in H1, H2.
    destruct s as [|c s]; [reflexivity|].
    change (clean_description (Some (c :: s))) with
      (strip (re_sub_delete P_not_used (re_sub_delete P_status (c :: s)))).
    now rewrite (re_sub_delete_no_match _ _ H1), (re_sub_delete_no_match _ _ H2).
Qed.

Lemma clean_description_only_deletes_witness :
  found P_status (L "  Name and address ") = false
  /\ found P_not_used (L "  Name and address ") = false
  /\ clean_description (Some (L "  Name and address "))
     = strip (L "  Name and address ").
Proof.
  split; [vm_compute; reflexivity|]. split; [vm_compute; reflexivity|].
  apply (proj2 (clean_description_only_deletes (L "  Name and address ")));
    vm_compute; reflexivity.
Defined.

(** ** [detect_pdf_format], both ways *)

Lemma detect_pages_vda pages :
  detect_pages pages = vda4932 ->
  exists before p after,
    pages = before ++ p :: after
    /\ rule_vda p = true
    /\ forall q, In q before -> rule_vda q = false /\ rule_faurecia q = false.
Proof.
  induction pages as [|p ps IH]; simpl; [discriminate|].
  rewrite detect_page_rules.
  destruct (rule_vda p) eqn:Ev.
  - intros _. exists [], p, ps. split; [reflexivity|]. split; [exact Ev|].
    intros q [].
  - destruct (rule_faurecia p) eqn:Ef; [discriminate|].
    intros H. destruct (IH H) as (before & p' & after & -> & Hp & Hb).
    exists (p :: before), p', after. split; [reflexivity|]. split; [exact Hp|].
    intros q [<-|Hq]; [now split | now apply Hb].
Qed.

(** X10: the result of the detector is [vda4932] exactly when one of the
    first ten pages matches the VDA marker and no page before it matches
    any rule; in every other case it is [faurecia]. *)
Theorem detect_vda4932_iff doc :
  detect_pdf_format doc = vda4932 <->
  exists before p after,
    firstn 10 doc = before ++ p :: after
    /\ rule_vda p = true
    /\ forall q, In q before -> rule_vda q = false /\ rule_faurecia q = false.
Proof.
  unfold detect_pdf_format. split.
  - apply detect_pages_vda.
  - intros (before & p & after & -> & Hp & Hb).
    rewrite (detect_pages_skip before _ Hb). simpl.
    now rewrite detect_page_rules, Hp.
Qed.

Lemma detect_vda4932_iff_witness :
  detect_pdf_format vda_then_faurecia = vda4932
  /\ exists before p after,
       firstn 10 vda_then_faurecia = before ++ p :: after
       /\ rule_vda p = true
       /\ forall q, In q before ->
            rule_vda q = false /\ rule_faurecia q = false.
Proof.
  assert (H : detect_pdf_format vda_then_faurecia = vda4932)
    by (vm_compute; reflexivity).
  split; [exact H|].
  exact (proj1 (detect_vda4932_iff vda_then_faurecia) H).
Defined.

(** ** What the VDA extraction skips *)

(** X11: the VDA extraction skips a page without text, tables included,
    and skips a table with fewer than three rows: a document gives the
    same result with them and without them. *)
Theorem vda_skips_textless_pages_and_short_tables :
  (forall text tables docA docB self,
     text = None \/ text = Some [] ->
     extract_vda4932_format (docA ++ Page text tables :: docB) self
     = extract_vda4932_format (docA ++ docB) self)
  /\ (forall (t : table) c text before after docA docB self,
        length t < 3 ->
        extract_vda4932_format
          (docA ++ Page (Some (c :: text)) (before ++ t :: after) :: docB) self
        = extract_vda4932_format
            (docA ++ Page (Some (c :: text)) (before ++ after) :: docB) self).
Proof.
  split.
  - intros text tables docA docB self Ht. unfold extract_vda4932_format.
    rewrite !for_each_app.
    destruct (for_each vda_page docA self) as [s1|]; [|reflexivity].
    cbn [bind for_each]. unfold vda_page at 1. cbn [extract_text].
    destruct Ht as [->| ->]; reflexivity.
  - intros t c text before after docA docB self Hlen.
    unfold extract_vda4932_format. rewrite !for_each_app.
    destruct (for_each vda_page docA self) as [s1|]; [|reflexivity].
    cbn [bind for_each]. unfold vda_page at 1 3.
    cbn [extract_text extract_tables].
    destruct (for_each vda_header _ s1) as [s2|]; [|reflexivity].
    cbn [bind]. rewrite !for_each_app.
    destruct (for_each vda_table before s2) as [s3|]; [|reflexivity].
    cbn [bind for_each]. unfold vda_table at 1.
    assert ((length t <? 3) = true) as -> by now apply Nat.ltb_lt.
    rewrite orb_true_r. reflexivity.
Qed.

Lemma vda_skips_textless_pages_and_short_tables_witness :
  extract_vda4932_format
    [Page (Some (L "Segment: NAD Cons. No.: 14 Level: 1 Name and address")) [];
     Page None [vda_table_rows]] init
  = extract_vda4932_format
      [Page (Some (L "Segment: NAD Cons. No.: 14 Level: 1 Name and address"))
         []] init
  /\ length [vda_party_row; vda_party_row] < 3.
Proof.
  split; [|vm_compute; lia].
  exact (proj1 vda_skips_textless_pages_and_short_tables None [vda_table_rows]
           [Page (Some (L "Segment: NAD Cons. No.: 14 Level: 1 Name and address")) []]
           [] init (or_introl eq_refl)).
Defined.

(** ** The shape of the codes in the map *)

Lemma update_schema e l e' :
  schema e -> schema_label l -> update e l e' -> schema e'.
Proof.
  intros [Sk Sh] Hl U.
  destruct U as [k desc Hk|k s o Hk Ho|g c d champs ec ed ef ev eu Hg].
  - split; [|exact Sh]. cbn [with_segments segments_dict].
    rewrite (dict_set_absent _ _ _ Hk). unfold dict_keys. rewrite map_app.
    intros k' Hin. apply in_app_or in Hin.
    destruct Hin as [Hin|[<-|[]]]; [now apply Sk | exact Hl].
  - split; cbn [segments_dict heap].
    + rewrite (dict_set_keys _ _ _ _ Hk). exact Sk.
    + intros a o' Ha. destruct (Nat.lt_ge_cases a (length (heap e))) as [Hlt|Hge].
      * rewrite nth_error_app1 in Ha by exact Hlt. eapply Sh; eauto.
      * rewrite nth_error_app2 in Ha by exact Hge.
        destruct (a - length (heap e)) as [|n]; [|now destruct n].
        inversion Ha; subst o'. exact Hl.
  - split; cbn [segments_dict heap]; [exact Sk|].
    intros a o' Ha. rewrite nth_error_list_set in Ha.
    destruct (Nat.eqb a g) eqn:Eag.
    + destruct (_ <? _); [|discriminate]. inversion Ha; subst o'.
      exact (Sh _ _ Hg).
    + destruct (Nat.lt_ge_cases a (length (heap e))) as [Hlt|Hge].
      * rewrite nth_error_app1 in Ha by exact Hlt. eapply Sh; eauto.
      * rewrite nth_error_app2 in Ha by exact Hge.
        destruct (a - length (heap e)) as [|n]; [|now destruct n].
        inversion Ha; subst o'. exact Hl.
Qed.

Lemma updates_schema e e' :
  schema e -> updates schema_label e e' -> schema e'.
Proof.
  intros S U. induction U as [|e1 l e2 U IH Hl Hu]; [exact S|].
  eapply update_schema; eauto.
Qed.

Lemma nad_bgm_schema : schema nad_bgm.
Proof.
  split.
  - intros k [<-|[<-|[]]]; (split; [reflexivity | repeat constructor]).
  - intros a o H. now destruct a.
Qed.

(** ** The stop of the look-ahead of the VDA tables *)

Lemma code_char_nonspace c :
  cset_mem (CUnion (one_of "SC") CDigit) c = true -> isspace c = false.
Proof.
  destruct c as [[] [] [] [] [] [] [] []]; vm_compute; intros H;
    first [reflexivity | discriminate H].
Qed.

Lemma is_code_nonspace s :
  is_code s = true ->
  exists w t, s = w ++ t /\ length t <= 1
              /\ Forall (fun c => isspace c = false) w.
Proof.
  unfold is_code. intros H. apply orb_true_iff in H. destruct H as [H|H].
  - apply element_code_shape in H. destruct H as (w & Hs & _ & Hall).
    exists w, (if list_eq_dec ascii_dec s w then [] else [newline]).
    split; [|split].
    + destruct (list_eq_dec ascii_dec s w) as [->|N];
        [now rewrite app_nil_r | now destruct Hs].
    + destruct (list_eq_dec ascii_dec s w); simpl; lia.
    + eapply Forall_impl; [|exact Hall]. intros c Hc.
      apply code_char_nonspace. cbn [cset_mem] in *. rewrite Hc.
      apply orb_true_r.
  - apply group_code_shape in H.
    destruct H as (w & Hs & c & w' & -> & Hc & _ & Hall).
    exists (c :: w'), (if list_eq_dec ascii_dec s (c :: w') then [] else [newline]).
    split; [|split].
    + destruct (list_eq_dec ascii_dec s (c :: w')) as [->|N];
        [now rewrite app_nil_r | now destruct Hs].
    + destruct (list_eq_dec ascii_dec s (c :: w')); simpl; lia.
    + constructor.
      * apply code_char_nonspace. cbn [cset_mem] in *. now rewrite Hc.
      * eapply Forall_impl; [|exact Hall]. intros c' Hc'.
        apply code_char_nonspace. cbn [cset_mem] in *. rewrite Hc'.
        apply orb_true_r.
Qed.

Lemma space_inside (w t A B : str) c :
  Forall (fun c => isspace c = false) w -> length t <= 1 ->
  w ++ t = A ++ c :: B -> isspace c = true -> B = [].
Proof.
  intros Hw Ht E Hc.
  destruct (Nat.lt_ge_cases (length A) (length w)) as [Hlt|Hge].
  - exfalso. apply (f_equal (fun l => nth_error l (length A))) in E.
    rewrite nth_error_app1 in E by exact Hlt.
    rewrite nth_error_app2, Nat.sub_diag in E by lia. simpl in E.
    apply nth_error_In in E. rewrite Forall_forall in Hw.
    rewrite (Hw _ E) in Hc. discriminate.
  - apply (f_equal (@length ascii)) in E. rewrite !length_app in E.
    simpl in E. destruct B; [reflexivity | simpl in E; lia].
Qed.

(** A cell that reads as a code and a description is not a code. *)
Lemma vda_code_not_code s : matches P_vda_code s = true -> is_code s = false.
Proof.
  intros H. apply matches_inv in H. destruct H as [res E].
  unfold P_vda_code in E. cbn [cat] in E.
  rewrite m_cat in E. apply m_bol in E.
  rewrite m_cat, m_grp, m_cat in E. unfold opt in E.
  apply m_rep_chr in E. destruct E as (w1 & st1 & E & R1 & _).
  apply m_rep_chr in E. destruct E as (w2 & st2 & E & R2 & _).
  rewrite m_cat in E. unfold plus in E.
  apply m_rep_chr in E.
  destruct E as (sp & st3 & E & R3 & _ & _ & A3 & L3 & _).
  rewrite m_cat, m_grp in E. apply m_rep_chr in E.
  destruct E as (d & st4 & _ & R4 & _ & _ & _ & L4 & _).
  cbn [rest set_cap] in R1, R3.
  destruct (is_code s) eqn:Ei; [exfalso | reflexivity].
  apply is_code_nonspace in Ei. destruct Ei as (w & t & Hs & Ht & Hw).
  destruct sp as [|c sp]; [simpl in L3; lia|].
  pose proof (Forall_inv A3) as Hc. cbn [cset_mem ws] in Hc.
  assert (Hd : sp ++ rest st3 = []).
  { apply (space_inside w t (w1 ++ w2) _ c Hw Ht); [|exact Hc].
    rewrite <- Hs, R1, R2, R3. now rewrite <- app_assoc. }
  apply app_eq_nil in Hd. destruct Hd as [_ Hd]. rewrite Hd in R4.
  destruct d; [simpl in L4; lia | discriminate].
Qed.

(** X14: in a VDA table the test that ends the consolidation on a row
    with a code never holds for a row that the parser reads.  The test is
    made on the whole first cell, which holds the code and the
    description: when the first cell of the next row is read as a code and
    a description, it is not a code alone, and the look-ahead goes on to
    the usage of that row, which it joins when it has the coded or the
    phrase shape. *)
Theorem vda_code_stop_never_holds next_row rows :
  4 <= length next_row ->
  matches P_vda_code (cell_at 0 (map clean_cell next_row)) = true ->
  is_code (cell_at 0 (map clean_cell next_row)) = false
  /\ vda_lookahead (next_row :: rows)
     = (let next_usage := cell_at 3 (map clean_cell next_row) in
        if nonempty next_usage
           && (matches P_vda_coded (strip next_usage)
               || matches P_vda_phrase (strip next_usage))
        then more <- vda_lookahead rows ;; Some (strip next_usage :: more)
        else Some []).
Proof.
  intros Hlen Hm. pose proof (vda_code_not_code _ Hm) as Hc.
  split; [exact Hc|]. cbn [vda_lookahead].
  destruct (length next_row <? 4) eqn:El;
    [apply Nat.ltb_lt in El; lia|].
  destruct next_row as [|c0 r]; [simpl in Hlen; lia|].
  change (cell_at 0 (map clean_cell (c0 :: r))) with (clean_cell c0) in Hc.
  change (index (map clean_cell (c0 :: r)) 0) with (Some (clean_cell c0)).
  cbn [bind]. rewrite Hc, andb_false_r. reflexivity.
Qed.

Lemma vda_code_stop_never_holds_witness :
  4 <= length vda_party_row
  /\ matches P_vda_code (cell_at 0 (map clean_cell vda_party_row)) = true
  /\ is_code (cell_at 0 (map clean_cell vda_party_row)) = false
  /\ vda_lookahead [vda_party_row; vda_party_row]
     = Some [L "'MI' = Planning authority"; L "'MI' = Planning authority"].
Proof.
  assert (H1 : 4 <= length vda_party_row) by (vm_compute; lia).
  assert (H2 : matches P_vda_code (cell_at 0 (map clean_cell vda_party_row))
               = true) by (vm_compute; reflexivity).
  split; [exact H1|]. split; [exact H2|].
  destruct (vda_code_stop_never_holds vda_party_row [vda_party_row] H1 H2)
    as [Hc Hl].
  split; [exact Hc|]. etransitivity; [exact Hl|]. vm_compute. reflexivity.
Defined.

(** * The rows, one by one *)

(** ** What a row does to the extractor *)

Lemma vda_skipped_false (r : row) :
  vda_skipped r = false ->
  negb (nonempty r) || (length r <? 2) = false
  /\ negb (nonempty (cell_at 0 (map clean_cell r)))
     || startswith (cell_at 0 (map clean_cell r)) "S.Format"
     || contains "Segment can/must" (cell_at 0 (map clean_cell r)) = false.
Proof. unfold vda_skipped. intros H. now apply orb_false_iff in H. Qed.

(** A row of a VDA table does nothing when it builds no dict; otherwise it
    makes the one update that puts the dict in its place. *)
Lemma vda_row_effect t last i r s :
  vda_inv last s ->
  exists s',
    vda_row t last i r s = Some s'
    /\ match vda_row_object t i r with
       | None => s' = s
       | Some o =>
           update (v_self s) (row_label last (v_current_group s) o) (v_self s')
           /\ v_current_group s'
              = next_group (length (heap (v_self s))) (v_current_group s) o
       end.
Proof.
  intros Hinv. pose proof Hinv as (T & Hseg & Hgrp).
  unfold vda_row, vda_row_object.
  destruct (vda_skipped r) eqn:Esk.
  - exists s. split; [|reflexivity]. unfold vda_skipped in Esk.
    destruct (negb (nonempty r) || (length r <? 2)); [reflexivity|].
    cbn [orb] in Esk. now rewrite Esk.
  - apply vda_skipped_false in Esk. destruct Esk as [-> ->].
    set (row_clean := map clean_cell r). unfold vda_code_and_description.
    destruct (re_match P_vda_code (cell_at 0 row_clean)) as [x|] eqn:Ex;
      [|exists s; split; reflexivity].
    cbn [bind].
    destruct (re_match_group 1 P_vda_code _ _ eq_refl Ex) as [code ->].
    destruct (re_match_group 2 P_vda_code _ _ eq_refl Ex) as [desc ->].
    cbn [bind].
    destruct (proj1 (dict_mem_get _ _) Hseg) as [sd Hsd].
    usage_total vda_lookahead vda_lookahead_total.
    destruct (matches P_group_code code).
    + unfold alloc.
      destruct (append_to_segment_update (v_self s) last sd
                  (OGroup code (clean_description (Some (strip desc))) [])
                  Hsd eq_refl) as (e' & -> & U).
      cbn [bind]. eexists. split; [reflexivity|]. cbn [v_self v_current_group].
      split; [|reflexivity]. destruct (v_current_group s); exact U.
    + destruct (matches P_element_code code); [|now exists s].
      unfold alloc. destruct (v_current_group s) as [g|] eqn:Eg.
      * destruct (Hgrp _ eq_refl) as (c & d & champs & Hg).
        match goal with
        | |- context [append_to_group g _ (with_heap _ (_ ++ [OElement ?a ?b ?c' ?d' ?e'']))] =>
            destruct (append_to_group_update (v_self s) g c d champs
                        a b c' d' e'' Hg) as (e' & -> & U)
        end.
        cbn [bind]. eexists. split; [reflexivity|].
        cbn [v_self v_current_group row_label next_group]. now split.
      * match goal with
        | |- context [append_to_segment last _ (with_heap _ (_ ++ [?o]))] =>
            destruct (append_to_segment_update (v_self s) last sd o Hsd eq_refl)
              as (e' & -> & U)
        end.
        cbn [bind]. eexists. split; [reflexivity|].
        cbn [v_self v_current_group row_label next_group]. now split.
Qed.

Lemma dict_mem_keys {V} (d : dict V) k :
  dict_mem d k = existsb (fun k' => str_eqb k' k) (dict_keys d).
Proof.
  unfold dict_mem. induction d as [|[k' v] d IH]; simpl; [reflexivity|].
  destruct (str_eqb k' k); [reflexivity | exact IH].
Qed.

(** A row of a Faurecia table: a header opens its segment, which is added
    to the map when it is new; a row that builds a dict while a segment is
    open makes the one update that puts the dict in its place; any other
    row does nothing. *)
Lemma faurecia_row_effect t i r s :
  faurecia_inv s ->
  exists s',
    faurecia_row t i r s = Some s'
    /\ match faurecia_row_header r with
       | Some k =>
           f_current_segment s' = Some k /\ f_current_group s' = None
           /\ heap (f_self s') = heap (f_self s)
           /\ dict_keys (segments_dict (f_self s'))
              = add_key (dict_keys (segments_dict (f_self s))) k
       | None =>
           match f_current_segment s, faurecia_row_object t i r with
           | Some cur, Some o =>
               update (f_self s) (row_label cur (f_current_group s) o)
                 (f_self s')
               /\ f_current_segment s' = Some cur
               /\ f_current_group s'
                  = next_group (length (heap (f_self s))) (f_current_group s) o
           | _, _ => s' = s
           end
       end.
Proof.
  intros Hinv. pose proof Hinv as (T & Hseg & Hgrp).
  unfold faurecia_row, faurecia_row_header, faurecia_row_object.
  destruct (negb (nonempty r)).
  { exists s. split; [reflexivity|]. now destruct (f_current_segment s). }
  set (row_clean := map clean_cell r).
  destruct (re_search P_segment_header (join " " row_clean)) as [x|] eqn:Ex.
  - destruct (re_search_group 1 P_segment_header _ _ eq_refl Ex) as [seg Hx].
    cbn [bind]. rewrite Hx. cbn [bind].
    destruct (match re_search P_header_description (join " " row_clean) with
              | Some desc_match => d <- group 1 desc_match ;; Some (strip d)
              | None => Some []
              end) as [d|] eqn:Ed.
    2:{ exfalso. destruct (re_search P_header_description _) as [y|] eqn:Ey;
          [|discriminate].
        destruct (re_search_group 1 P_header_description _ _ eq_refl Ey)
          as [v Hv].
        rewrite Hv in Ed. discriminate. }
    cbn [bind]. eexists. split; [reflexivity|].
    cbn [f_self f_current_segment f_current_group].
    split; [reflexivity|]. split; [reflexivity|].
    unfold add_key. rewrite <- dict_mem_keys.
    destruct (dict_mem (segments_dict (f_self s)) seg) eqn:Em; cbn [negb].
    + split; reflexivity.
    + split; [reflexivity|]. cbn [with_segments segments_dict].
      rewrite dict_set_absent.
      * unfold dict_keys. now rewrite map_app.
      * unfold dict_mem in Em. now destruct (dict_get _ seg).
  - cbn [bind].
    destruct (f_current_segment s) as [cur|] eqn:Ec; [|now exists s].
    destruct (proj1 (dict_mem_get _ _) (Hseg _ eq_refl)) as [sd Hsd].
    usage_total faurecia_lookahead faurecia_lookahead_total.
    destruct (matches P_group_code (cell_at 0 row_clean)).
    + unfold alloc.
      destruct (append_to_segment_update (f_self s) cur sd
                  (OGroup (cell_at 0 row_clean)
                     (clean_description (Some (cell_at 1 row_clean))) [])
                  Hsd eq_refl) as (e' & -> & U).
      cbn [bind]. eexists. split; [reflexivity|].
      cbn [f_self f_current_segment f_current_group next_group].
      split; [|now split]. destruct (f_current_group s); exact U.
    + destruct (matches P_element_code (cell_at 0 row_clean));
        [|now exists s].
      unfold alloc. destruct (f_current_group s) as [g|] eqn:Eg.
      * destruct (Hgrp _ eq_refl) as (c & d & champs & Hg).
        match goal with
        | |- context [append_to_group g _ (with_heap _ (_ ++ [OElement ?a ?b ?c' ?d' ?e'']))] =>
            destruct (append_to_group_update (f_self s) g c d champs
                        a b c' d' e'' Hg) as (e' & -> & U)
        end.
        cbn [bind]. eexists. split; [reflexivity|].
        cbn [f_self f_current_segment f_current_group row_label next_group].
        now repeat split.
      * match goal with
        | |- context [append_to_segment cur _ (with_heap _ (_ ++ [?o]))] =>
            destruct (append_to_segment_update (f_self s) cur sd o Hsd eq_refl)
              as (e' & -> & U)
        end.
        cbn [bind]. eexists. split; [reflexivity|].
        cbn [f_self f_current_segment f_current_group row_label next_group].
        now repeat split.
Qed.

(** ** One update, read backwards *)

Lemma update_to_segment_inv e k o e' :
  update e (ToSegment k o) e' ->
  exists s,
    dict_get (segments_dict e) k = Some s /\ obj_champs o = []
    /\ e' = Extractor
              (dict_set (segments_dict e) k
                 (Segment (segment s) (description s)
                    (elements s ++ [length (heap e)])))
              (pdf_format e) (heap e ++ [o]).
Proof. intros U. inversion U; subst. eauto. Qed.

Lemma update_to_group_inv e g o e' :
  update e (ToGroup g o) e' ->
  exists c d champs,
    nth_error (heap e) g = Some (OGroup c d champs)
    /\ (exists ec ed ef ev eu, o = OElement ec ed ef ev eu)
    /\ e' = Extractor (segments_dict e) (pdf_format e)
              (list_set (heap e ++ [o]) g
                 (OGroup c d (champs ++ [length (heap e)]))).
Proof.
  intros U. inversion U; subst. do 3 eexists. split; [eassumption|].
  split; [|reflexivity]. now do 5 eexists.
Qed.

Lemma shell_leaf o : obj_champs o = [] -> shell o = o.
Proof. destruct o; simpl; [reflexivity | now intros ->]. Qed.

Lemma list_set_same {A} (l : list A) i x :
  nth_error l i = Some x -> list_set l i x = l.
Proof.
  revert i. induction l as [|y l IH]; intros [|i]; simpl; try discriminate.
  - intros H. now inversion H.
  - intros H. now rewrite IH.
Qed.

(** The new dict of an update is the last object; the objects before it
    are as they were, but for the children of a group. *)
Lemma update_shell e l e' :
  update e l e' ->
  map shell (heap e')
  = map shell (heap e)
    ++ match l with
       | NewSegment _ => []
       | ToSegment _ o | ToGroup _ o => [o]
       end.
Proof.
  intros U.
  destruct U as [k desc Hk|k s o Hk Ho|g c d champs ec ed ef ev eu Hg];
    cbn [heap with_segments].
  - now rewrite app_nil_r.
  - rewrite map_app. simpl. now rewrite (shell_leaf o Ho).
  - assert (Hlt : g < length (heap e)) by (apply nth_error_Some; congruence).
    rewrite map_list_set. cbn [shell]. rewrite list_set_same.
    + now rewrite map_app.
    + rewrite nth_error_map, nth_error_app1 by exact Hlt. now rewrite Hg.
Qed.

Lemma update_keys e l e' :
  update e l e' ->
  dict_keys (segments_dict e')
  = match l with
    | NewSegment k => dict_keys (segments_dict e) ++ [k]
    | _ => dict_keys (segments_dict e)
    end.
Proof.
  intros U.
  destruct U as [k desc Hk|k s o Hk Ho|g c d champs ec ed ef ev eu Hg];
    cbn [segments_dict with_segments].
  - rewrite (dict_set_absent _ _ _ Hk). unfold dict_keys. now rewrite map_app.
  - eapply dict_set_keys; eauto.
  - reflexivity.
Qed.

(** ** The progress of a VDA table *)

Lemma vda_progress_length last e0 more objs s :
  vda_progress last e0 more objs s ->
  length (heap (v_self s)) = length (heap e0) + length objs.
Proof.
  intros P. pose proof (f_equal (@length obj) (vp_shell P)) as H.
  now rewrite length_app, !length_map in H.
Qed.

Lemma vda_progress_start last self :
  vda_progress last self [] [] (VState self None).
Proof.
  constructor; cbn [v_self v_current_group]; try reflexivity.
  - intros sd Hsd. rewrite Hsd, app_nil_r. now destruct sd.
  - now rewrite app_nil_r.
  - intros a [].
  - intros a Ha (c & d & champs & Hg).
    apply nth_error_None in Ha. congruence.
  - intros a Ha. lia.
  - intros g Hg. discriminate.
Qed.

Lemma vda_progress_to_segment last e0 more objs s s' o :
  vda_progress last e0 more objs s ->
  update (v_self s) (ToSegment last o) (v_self s') ->
  (forall g, v_current_group s' = Some g -> length (heap e0) <= g) ->
  vda_progress last e0 (more ++ [length (heap (v_self s))]) (objs ++ [o]) s'.
Proof.
  intros P U Hc. pose proof (vda_progress_length _ _ _ _ _ P) as Hlen.
  pose proof (update_shell _ _ _ U) as Hsh.
  apply update_to_segment_inv in U. destruct U as (s1 & Hs1 & Hch & He).
  constructor; try exact Hc; rewrite ?Hsh; rewrite ?He;
    cbn [segments_dict heap].
  - rewrite (dict_set_keys _ _ _ _ Hs1). apply (vp_keys P).
  - intros k Hk. rewrite dict_get_set.
    destruct (str_eqb last k) eqn:E;
      [apply str_eqb_eq in E; congruence | now apply (vp_others P)].
  - intros sd Hsd. rewrite dict_get_set, str_eqb_refl.
    pose proof (vp_last P sd Hsd) as H. rewrite Hs1 in H.
    inversion H; subst s1. cbn [segment description elements].
    now rewrite app_assoc.
  - intros a Ha. rewrite nth_error_app1 by lia. now apply (vp_old P).
  - rewrite (vp_shell P). now rewrite app_assoc.
  - intros a Ha. rewrite length_app. simpl. apply in_app_or in Ha.
    destruct Ha as [Ha|[<-|[]]]; [apply (vp_more P a) in Ha; lia | lia].
  - intros a Ha (c & d & ch & Hg). apply nth_error_snoc_inv in Hg.
    apply in_or_app. destruct Hg as [Hg|[-> _]]; [left | right; now left].
    apply (vp_groups P _ Ha). now exists c, d, ch.
  - intros a [Ha1 Ha2]. rewrite length_app in Ha2. simpl in Ha2.
    destruct (Nat.eq_dec a (length (heap (v_self s)))) as [->|Hne].
    + left. apply in_or_app. right. now left.
    + destruct (vp_held P a) as [Hin|(g & c & d & ch & H1 & H2 & H3)];
        [lia | left; apply in_or_app; now left | right].
      exists g, c, d, ch. split; [apply in_or_app; now left|].
      split; [|exact H3]. rewrite nth_error_app1; [exact H2|].
      apply nth_error_Some. congruence.
Qed.

Lemma vda_progress_to_group last e0 more objs s s' g o :
  vda_progress last e0 more objs s ->
  update (v_self s) (ToGroup g o) (v_self s') ->
  length (heap e0) <= g ->
  v_current_group s' = v_current_group s ->
  vda_progress last e0 more (objs ++ [o]) s'.
Proof.
  intros P U Hgn Hc. pose proof (vda_progress_length _ _ _ _ _ P) as Hlen.
  pose proof (update_shell _ _ _ U) as Hsh.
  apply update_to_group_inv in U.
  destruct U as (c & d & champs & Hg & (ec & ed & ef & ev & eu & Ho) & He).
  assert (Hlt : g < length (heap (v_self s)))
    by (apply nth_error_Some; congruence).
  constructor; rewrite ?Hsh; rewrite ?He; cbn [segments_dict heap].
  - apply (vp_keys P).
  - apply (vp_others P).
  - apply (vp_last P).
  - intros a Ha. rewrite nth_error_list_set.
    destruct (Nat.eqb a g) eqn:E; [apply Nat.eqb_eq in E; lia|].
    rewrite nth_error_app1 by lia. now apply (vp_old P).
  - rewrite (vp_shell P). now rewrite app_assoc.
  - intros a Ha. rewrite list_set_length, length_app. simpl.
    apply (vp_more P a) in Ha. lia.
  - intros a Ha (c1 & d1 & ch1 & Hg1). rewrite nth_error_list_set in Hg1.
    destruct (Nat.eqb a g) eqn:E.
    + apply Nat.eqb_eq in E. subst a. apply (vp_groups P g Hgn).
      now exists c, d, champs.
    + apply nth_error_snoc_inv in Hg1.
      destruct Hg1 as [Hg1|[_ Hg1]]; [|congruence].
      apply (vp_groups P a Ha). now exists c1, d1, ch1.
  - intros a [Ha1 Ha2]. rewrite list_set_length, length_app in Ha2.
    simpl in Ha2.
    assert (Hnew : nth_error
                     (list_set (heap (v_self s) ++ [o]) g
                        (OGroup c d (champs ++ [length (heap (v_self s))]))) g
                   = Some (OGroup c d (champs ++ [length (heap (v_self s))]))).
    { rewrite nth_error_list_set, Nat.eqb_refl.
      destruct (g <? _) eqn:El; [reflexivity|].
      apply Nat.ltb_ge in El. rewrite length_app in El. lia. }
    assert (Hgm : In g more)
      by (apply (vp_groups P g Hgn); now exists c, d, champs).
    destruct (Nat.eq_dec a (length (heap (v_self s)))) as [->|Hne].
    + right. exists g, c, d, (champs ++ [length (heap (v_self s))]).
      split; [exact Hgm|]. split; [exact Hnew|].
      apply in_or_app. right. now left.
    + destruct (vp_held P a) as [Hin|(g1 & c1 & d1 & ch1 & H1 & H2 & H3)];
        [lia | now left | right].
      destruct (Nat.eq_dec g1 g) as [->|Hg1].
      * exists g, c, d, (champs ++ [length (heap (v_self s))]).
        split; [exact Hgm|]. split; [exact Hnew|].
        rewrite Hg in H2. inversion H2; subst. apply in_or_app. now left.
      * exists g1, c1, d1, ch1. split; [exact H1|]. split; [|exact H3].
        rewrite nth_error_list_set.
        destruct (Nat.eqb g1 g) eqn:E; [apply Nat.eqb_eq in E; contradiction|].
        rewrite nth_error_app1; [exact H2|]. apply nth_error_Some. congruence.
  - intros g0 Hg0. rewrite Hc in Hg0. now apply (vp_current P).
Qed.

Lemma vda_rows_progress t last e0 rows : forall i s more objs,
  vda_inv last s -> vda_progress last e0 more objs s ->
  exists s' more',
    vda_rows t last i rows s = Some s' /\ vda_inv last s'
    /\ vda_progress last e0 (more ++ more') (objs ++ vda_objects t i rows) s'.
Proof.
  induction rows as [|r rows IH]; intros i s more objs Hinv P; simpl.
  - exists s, []. rewrite !app_nil_r. auto.
  - destruct (vda_row_effect t last i r s Hinv) as (s1 & E & H).
    destruct (vda_row_inv t last i r s Hinv) as (s1' & E' & Hinv1 & _).
    rewrite E in E'. inversion E'; subst s1'. rewrite E. cbn [bind].
    destruct (vda_row_object t i r) as [o|] eqn:Eo; cbn [opt_list].
    + destruct H as [U Hc].
      assert (P1 : exists m1, vda_progress last e0 (more ++ m1) (objs ++ [o]) s1).
      { pose proof (vda_progress_length _ _ _ _ _ P) as Hlen.
        revert U Hc.
        destruct o; destruct (v_current_group s) as [g|] eqn:Ec;
          cbn [row_label next_group]; intros U Hc.
        - exists []. rewrite app_nil_r.
          eapply vda_progress_to_group; [exact P | exact U | | congruence].
          now apply (vp_current P).
        - eexists. eapply vda_progress_to_segment; [exact P | exact U |].
          intros g Hg. congruence.
        - eexists. eapply vda_progress_to_segment; [exact P | exact U |].
          intros g0 Hg. rewrite Hc in Hg. inversion Hg. lia.
        - eexists. eapply vda_progress_to_segment; [exact P | exact U |].
          intros g0 Hg. rewrite Hc in Hg. inversion Hg. lia. }
      destruct P1 as (m1 & P1).
      destruct (IH (S i) s1 _ _ Hinv1 P1) as (s' & m2 & E2 & I2 & P2).
      exists s', (m1 ++ m2). split; [exact E2|]. split; [exact I2|].
      rewrite app_assoc. change (o :: vda_objects t (S i) rows)
        with ([o] ++ vda_objects t (S i) rows).
      rewrite (app_assoc objs). exact P2.
    + subst s1. cbn [app]. now apply IH.
Qed.

(** A VDA table, from a map that is not empty. *)
Lemma parse_vda_table_progress t self last :
  tree self -> last_item (dict_keys (segments_dict self)) = Some last ->
  exists s' more,
    _parse_vda_table t self = Some (v_self s')
    /\ tree (v_self s')
    /\ vda_progress last self more (vda_objects t 0 t) s'.
Proof.
  intros T Hl. unfold _parse_vda_table.
  destruct (nonempty (segments_dict self)) eqn:E; cbn [negb].
  - rewrite Hl. cbn [bind].
    destruct (vda_rows_progress t last self t 0 (VState self None) [] []
                (vda_inv_start self last T Hl) (vda_progress_start last self))
      as (s' & more & -> & (T' & _) & P).
    cbn [bind]. exists s', more. auto.
  - destruct (segments_dict self); [discriminate Hl | discriminate E].
Qed.

(** ** A VDA table goes to the last segment *)

(** X2: a VDA table is attributed to the segment inserted last.  From a
    tree, [_parse_vda_table] creates no segment and keeps the order of the
    keys; every segment but the last one is exactly as it was, and so is
    every object that was there, the groups of the other segments with
    their children included; the last segment keeps its mnemonic, its
    description and its elements, to which the table appends [more]; the
    addresses of [more] are those of new objects, and every new object is
    one of [more] or a child of a group that is one of [more]. *)
Theorem vda_table_goes_to_last_segment t self last :
  tree self -> last_item (dict_keys (segments_dict self)) = Some last ->
  exists self' sd more,
    _parse_vda_table t self = Some self'
    /\ dict_keys (segments_dict self') = dict_keys (segments_dict self)
    /\ (forall k, k <> last ->
          dict_get (segments_dict self') k = dict_get (segments_dict self) k)
    /\ (forall a, a < length (heap self) ->
          nth_error (heap self') a = nth_error (heap self) a)
    /\ dict_get (segments_dict self) last = Some sd
    /\ dict_get (segments_dict self') last
       = Some (Segment (segment sd) (description sd) (elements sd ++ more))
    /\ (forall a, In a more -> length (heap self) <= a < length (heap self'))
    /\ (forall a, length (heap self) <= a < length (heap self') ->
          held_by (heap self') more a).
Proof.
  intros T Hl.
  destruct (parse_vda_table_progress t self last T Hl) as (s' & more & E & _ & P).
  destruct (vda_inv_start self last T Hl) as (_ & Hm & _).
  apply dict_mem_get in Hm. destruct Hm as [sd Hsd].
  exists (v_self s'), sd, more. split; [exact E|].
  split; [exact (vp_keys P)|]. split; [exact (vp_others P)|].
  split; [exact (vp_old P)|]. split; [exact Hsd|].
  split; [exact (vp_last P sd Hsd)|].
  split; [exact (vp_more P) | exact (vp_held P)].
Qed.

Lemma vda_table_goes_to_last_segment_witness :
  tree nad_bgm
  /\ last_item (dict_keys (segments_dict nad_bgm)) = Some (L "BGM")
  /\ exists self' sd more,
       _parse_vda_table vda_table_rows nad_bgm = Some self'
       /\ dict_keys (segments_dict self') = dict_keys (segments_dict nad_bgm)
       /\ (forall k, k <> L "BGM" ->
             dict_get (segments_dict self') k
             = dict_get (segments_dict nad_bgm) k)
       /\ (forall a, a < length (heap nad_bgm) ->
             nth_error (heap self') a = nth_error (heap nad_bgm) a)
       /\ dict_get (segments_dict nad_bgm) (L "BGM") = Some sd
       /\ dict_get (segments_dict self') (L "BGM")
          = Some (Segment (segment sd) (description sd) (elements sd ++ more))
       /\ (forall a, In a more ->
             length (heap nad_bgm) <= a < length (heap self'))
       /\ (forall a, length (heap nad_bgm) <= a < length (heap self') ->
             held_by (heap self') more a).
Proof.
  split; [exact nad_bgm_tree|]. split; [reflexivity|].
  exact (vda_table_goes_to_last_segment vda_table_rows nad_bgm (L "BGM")
           nad_bgm_tree eq_refl).
Defined.

(** ** The order of emission *)

Lemma update_to_segment_new e k o e' :
  update e (ToSegment k o) e' ->
  nth_error (heap e') (length (heap e)) = Some o.
Proof.
  intros U. apply update_to_segment_inv in U.
  destruct U as (s1 & _ & _ & ->). cbn [heap].
  rewrite nth_error_app2 by lia. now rewrite Nat.sub_diag.
Qed.

Lemma update_to_group_new e g o e' :
  update e (ToGroup g o) e' ->
  nth_error (heap e') (length (heap e)) = Some o.
Proof.
  intros U. apply update_to_group_inv in U.
  destruct U as (c & d & ch & Hg & _ & ->). cbn [heap].
  assert (Hlt : g < length (heap e)) by (apply nth_error_Some; congruence).
  rewrite nth_error_list_set.
  destruct (Nat.eqb (length (heap e)) g) eqn:En;
    [apply Nat.eqb_eq in En; lia|].
  rewrite nth_error_app2 by lia. now rewrite Nat.sub_diag.
Qed.

Lemma row_label_shell e seg cur o e' :
  update e (row_label seg cur o) e' ->
  map shell (heap e') = map shell (heap e) ++ [o]
  /\ dict_keys (segments_dict e') = dict_keys (segments_dict e)
  /\ nth_error (heap e') (length (heap e)) = Some o
  /\ length (heap e') = S (length (heap e)).
Proof.
  intros U. pose proof (update_shell _ _ _ U) as H1.
  pose proof (update_keys _ _ _ U) as H2.
  assert (H3 : nth_error (heap e') (length (heap e)) = Some o).
  { revert U. destruct o; destruct cur; cbn [row_label];
      first [apply update_to_group_new | apply update_to_segment_new]. }
  assert (H1' : map shell (heap e') = map shell (heap e) ++ [o])
    by (destruct o; destruct cur; exact H1).
  assert (H2' : dict_keys (segments_dict e') = dict_keys (segments_dict e))
    by (destruct o; destruct cur; exact H2).
  split; [exact H1'|]. split; [exact H2'|]. split; [exact H3|].
  apply (f_equal (@length obj)) in H1'.
  rewrite length_app, !length_map in H1'. simpl in H1'. lia.
Qed.

Lemma faurecia_rows_effect t rows : forall i s,
  faurecia_inv s ->
  exists s',
    faurecia_rows t i rows s = Some s' /\ faurecia_inv s'
    /\ map shell (heap (f_self s'))
       = map shell (heap (f_self s))
         ++ faurecia_objects t i rows (is_some (f_current_segment s))
    /\ dict_keys (segments_dict (f_self s'))
       = fold_left add_key
           (flat_map (fun r => opt_list (faurecia_row_header r)) rows)
           (dict_keys (segments_dict (f_self s))).
Proof.
  induction rows as [|r rows IH]; intros i s Hinv; simpl.
  - exists s. rewrite app_nil_r. auto.
  - destruct (faurecia_row_effect t i r s Hinv) as (s1 & E & H).
    destruct (faurecia_row_inv t i r s Hinv) as (s1' & E' & Hinv1 & _).
    rewrite E in E'. inversion E'; subst s1'. rewrite E. cbn [bind].
    destruct (IH (S i) s1 Hinv1) as (s' & E2 & I2 & Hs & Hk).
    exists s'. split; [exact E2|]. split; [exact I2|].
    destruct (faurecia_row_header r) as [k|]; cbn [opt_list app].
    + destruct H as (Hc & _ & Hh & Hkeys).
      rewrite Hs, Hk, Hh, Hc, Hkeys. cbn [is_some fold_left]. auto.
    + destruct (f_current_segment s) as [cur|] eqn:Ec;
        [destruct (faurecia_row_object t i r) as [o|]|].
      * destruct H as (U & Hc & _).
        destruct (row_label_shell _ _ _ _ _ U) as (H1 & H2 & _).
        rewrite Hs, Hk, H1, H2, Hc. cbn [is_some opt_list].
        now rewrite <- app_assoc.
      * subst s1. rewrite Hs, Hk, Ec. auto.
      * subst s1. rewrite Hs, Hk, Ec. auto.
Qed.

(** X3: the objects are created in the order of the rows.  From a tree in
    which every list is in ascending order of address, each table parser
    ends with every list in ascending order of address, and the objects it
    has created, taken in the order of their addresses and without their
    children, are the dicts built from the rows of the table, in the order
    of the rows: the object at a higher address comes from a later row.
    The VDA parser creates none when the map is empty. *)
Theorem emission_order_kept t self :
  tree self -> ordered self ->
  (exists self',
     _parse_faurecia_table t self = Some self' /\ ordered self'
     /\ map shell (heap self')
        = map shell (heap self) ++ faurecia_objects t 0 t false)
  /\ (exists self',
        _parse_vda_table t self = Some self' /\ ordered self'
        /\ map shell (heap self')
           = map shell (heap self)
             ++ (if nonempty (segments_dict self) then vda_objects t 0 t
                 else [])).
Proof.
  intros T O. split.
  - destruct (parse_faurecia_table_updates t self T) as (e' & E & U).
    exists e'. split; [exact E|]. split; [eapply updates_ordered; eauto|].
    unfold _parse_faurecia_table in E.
    destruct (faurecia_rows_effect t t 0 (FState self None None)
                (faurecia_inv_start self T)) as (s' & E' & _ & Hs & _).
    rewrite E' in E. cbn [bind] in E. inversion E; subst e'. exact Hs.
  - destruct (parse_vda_table_updates_any t self T) as (e' & E & U).
    exists e'. split; [exact E|]. split; [eapply updates_ordered; eauto|].
    destruct (nonempty (segments_dict self)) eqn:En.
    + destruct (last_item_keys _ En) as (last & Hl & _).
      destruct (parse_vda_table_progress t self last T Hl)
        as (s' & more & E' & _ & P).
      rewrite E' in E. inversion E; subst e'. exact (vp_shell P).
    + unfold _parse_vda_table in E. rewrite En in E. cbn [negb] in E.
      inversion E; subst e'. now rewrite app_nil_r.
Qed.

Lemma emission_order_kept_witness :
  tree nad_bgm /\ ordered nad_bgm
  /\ (exists self',
        _parse_faurecia_table nad_table nad_bgm = Some self' /\ ordered self'
        /\ map shell (heap self')
           = [OGroup "C082" "Party identification details" [];
              OElement "3039" "Party id. identification" "an..35" "" "";
              party_element usage_first])
  /\ (exists self',
        _parse_vda_table vda_table_rows nad_bgm = Some self' /\ ordered self'
        /\ map shell (heap self')
           = [OGroup "C082" "Party identification details" [];
              OElement "3039" "Party id. identification" "an..35" "" "";
              OElement "3035" "Party qualifier" "an..3" "MI"
                "'MI' = Planning authority"]).
Proof.
  assert (O : ordered nad_bgm).
  { split; cbn.
    - intros k s [H|[H|[]]]; inversion H; subst; constructor.
    - intros g c d champs H. now destruct g. }
  split; [exact nad_bgm_tree|]. split; [exact O|].
  destruct (emission_order_kept nad_table nad_bgm nad_bgm_tree O)
    as [(e1 & E1 & O1 & S1) _].
  destruct (emission_order_kept vda_table_rows nad_bgm nad_bgm_tree O)
    as [_ (e2 & E2 & O2 & S2)].
  split.
  - exists e1. split; [exact E1|]. split; [exact O1|].
    etransitivity; [exact S1|]. vm_compute. reflexivity.
  - exists e2. split; [exact E2|]. split; [exact O2|].
    etransitivity; [exact S2|]. vm_compute. reflexivity.
Defined.

(** ** The segments in the order of the document *)

Lemma filter_filter {A} (f g : A -> bool) l :
  filter f (filter g l) = filter (fun x => g x && f x) l.
Proof.
  induction l as [|x l IH]; simpl; [reflexivity|].
  destruct (g x); simpl; [destruct (f x)|]; now rewrite IH.
Qed.

Lemma filter_all {A} (l : list A) : filter (fun _ => true) l = l.
Proof. induction l; simpl; congruence. Qed.

Lemma str_eqb_sym a b : str_eqb a b = str_eqb b a.
Proof.
  destruct (str_eqb a b) eqn:E.
  - apply str_eqb_eq in E. subst. now rewrite str_eqb_refl.
  - apply str_eqb_neq in E. symmetry. apply str_eqb_neq. congruence.
Qed.

(** Adding the keys one by one, each when it is new, gives the first
    occurrences. *)
Lemma fold_add_key l : forall acc,
  fold_left add_key l acc
  = acc ++ filter (fun k => negb (existsb (fun k' => str_eqb k' k) acc))
             (first_occurrences l).
Proof.
  induction l as [|k l IH]; intros acc; simpl.
  - now rewrite app_nil_r.
  - rewrite IH. unfold add_key.
    destruct (existsb (fun k' => str_eqb k' k) acc) eqn:E; simpl.
    + f_equal. rewrite filter_filter. apply filter_ext. intros x.
      destruct (str_eqb x k) eqn:Ex; simpl; [|reflexivity].
      apply str_eqb_eq in Ex. subst x. now rewrite E.
    + rewrite <- app_assoc. simpl. f_equal. f_equal.
      rewrite filter_filter. apply filter_ext. intros x.
      rewrite existsb_app. simpl. rewrite orb_false_r, negb_orb.
      rewrite (str_eqb_sym k x). apply andb_comm.
Qed.

Lemma fold_add_key_nil l : fold_left add_key l [] = first_occurrences l.
Proof. rewrite fold_add_key. simpl. apply filter_all. Qed.

(** A loop whose body adds the keys of its item adds the keys of its
    items, in order. *)
Lemma for_each_keys {A} (Q : A -> Prop)
  (body : A -> extractor -> option extractor) (hdr : A -> list str) l :
  (forall x e, Q x -> tree e ->
     exists e', body x e = Some e' /\ tree e'
                /\ dict_keys (segments_dict e')
                   = fold_left add_key (hdr x) (dict_keys (segments_dict e))) ->
  Forall Q l ->
  forall e, tree e ->
    exists e', for_each body l e = Some e' /\ tree e'
               /\ dict_keys (segments_dict e')
                  = fold_left add_key (flat_map hdr l)
                      (dict_keys (segments_dict e)).
Proof.
  intros Hb Hl. induction Hl as [|x l Hx Hl IH]; intros e T; simpl.
  - exists e. auto.
  - destruct (Hb x e Hx T) as (e1 & -> & T1 & H1). cbn [bind].
    destruct (IH e1 T1) as (e' & E' & T' & H').
    exists e'. split; [exact E'|]. split; [exact T'|].
    now rewrite fold_left_app, <- H1.
Qed.

Lemma faurecia_table_keys t self :
  tree self ->
  exists self', faurecia_table t self = Some self' /\ tree self'
                /\ dict_keys (segments_dict self')
                   = fold_left add_key (faurecia_table_headers t)
                       (dict_keys (segments_dict self)).
Proof.
  intros T. unfold faurecia_table, faurecia_table_headers.
  destruct (negb (nonempty t) || (length t <? 5)); [exists self; auto|].
  unfold _parse_faurecia_table.
  destruct (faurecia_rows_effect t t 0 (FState self None None)
              (faurecia_inv_start self T)) as (s' & -> & (T' & _) & _ & Hk).
  cbn [bind]. exists (f_self s'). auto.
Qed.

Lemma extract_faurecia_format_keys doc self :
  tree self ->
  exists self', extract_faurecia_format doc self = Some self' /\ tree self'
                /\ dict_keys (segments_dict self')
                   = fold_left add_key (faurecia_headers doc)
                       (dict_keys (segments_dict self)).
Proof.
  intros T. unfold extract_faurecia_format, faurecia_headers.
  apply (for_each_keys (fun _ => True)); [|apply Forall_True|exact T].
  intros p e _ Te. unfold faurecia_page.
  apply (for_each_keys (fun _ => True)); [|apply Forall_True|exact Te].
  intros t e0 _ Te0. now apply faurecia_table_keys.
Qed.

Lemma vda_header_keys x self :
  (exists v, group 1 x = Some v /\ is_mnemonic v)
  /\ (exists v, group 4 x = Some v) ->
  tree self ->
  exists self', vda_header x self = Some self' /\ tree self'
                /\ dict_keys (segments_dict self')
                   = fold_left add_key (opt_list (group 1 x))
                       (dict_keys (segments_dict self)).
Proof.
  intros [(v1 & H1 & _) [v4 H4]] T. unfold vda_header. rewrite H1, H4.
  cbn [bind opt_list fold_left]. unfold add_key. rewrite <- dict_mem_keys.
  destruct (dict_mem (segments_dict self) v1) eqn:E; cbn [negb].
  - exists self. auto.
  - assert (Hn : dict_get (segments_dict self) v1 = None)
      by (unfold dict_mem in E; now destruct (dict_get _ v1)).
    eexists. split; [reflexivity|].
    split; [now apply tree_new_segment|].
    cbn [with_segments segments_dict]. rewrite (dict_set_absent _ _ _ Hn).
    unfold dict_keys. now rewrite map_app.
Qed.

Lemma vda_table_keys t self :
  tree self ->
  exists self', vda_table t self = Some self' /\ tree self'
                /\ dict_keys (segments_dict self')
                   = dict_keys (segments_dict self).
Proof.
  intros T. unfold vda_table.
  destruct (negb (nonempty t) || (length t <? 3)); [exists self; auto|].
  destruct (nonempty (segments_dict self)) eqn:En.
  - destruct (last_item_keys _ En) as (last & Hl & _).
    destruct (parse_vda_table_progress t self last T Hl)
      as (s' & more & E & T' & P).
    exists (v_self s'). split; [exact E|]. split; [exact T'|].
    exact (vp_keys P).
  - unfold _parse_vda_table. rewrite En. exists self. auto.
Qed.

Lemma flat_map_nil {A B} (l : list A) : flat_map (fun _ => @nil B) l = [].
Proof. induction l; simpl; auto. Qed.

Lemma vda_page_keys p self :
  tree self ->
  exists self', vda_page p self = Some self' /\ tree self'
                /\ dict_keys (segments_dict self')
                   = fold_left add_key (vda_page_headers p)
                       (dict_keys (segments_dict self)).
Proof.
  intros T. unfold vda_page, vda_page_headers.
  destruct (extract_text p) as [[|c text]|]; try (exists self; now auto).
  destruct (for_each_keys _ vda_header (fun x => opt_list (group 1 x))
              (re_finditer P_vda_segment (c :: text)) vda_header_keys
              (finditer_vda_segment_groups (c :: text)) self T)
    as (e1 & -> & T1 & H1).
  cbn [bind].
  destruct (for_each_keys (fun _ => True) vda_table (fun _ => [])
              (extract_tables p)) with (e := e1) as (e' & E' & T' & H');
    [intros t e _ Te; now apply vda_table_keys | apply Forall_True | exact T1|].
  exists e'. split; [exact E'|]. split; [exact T'|].
  rewrite flat_map_nil in H'. cbn [fold_left] in H'. now rewrite H'.
Qed.

Lemma extract_vda4932_format_keys doc self :
  tree self ->
  exists self', extract_vda4932_format doc self = Some self' /\ tree self'
                /\ dict_keys (segments_dict self')
                   = fold_left add_key (vda_headers doc)
                       (dict_keys (segments_dict self)).
Proof.
  intros T. unfold extract_vda4932_format, vda_headers.
  apply (for_each_keys (fun _ => True)); [|apply Forall_True|exact T].
  intros p e _ Te. now apply vda_page_keys.
Qed.

Lemma extract_all_keys doc self segments :
  extract_all doc init = Some (self, segments) ->
  dict_keys (segments_dict self) = first_occurrences (document_headers doc).
Proof.
  unfold extract_all, document_headers.
  set (e0 := Extractor (segments_dict init) (Some (detect_pdf_format doc))
               (heap init)).
  assert (T0 : tree e0) by (apply tree_with_format, tree_init).
  destruct (detect_pdf_format doc).
  - destruct (extract_faurecia_format_keys doc e0 T0) as (e1 & -> & _ & Hk).
    cbn [bind]. intros H. inversion H; subst.
    unfold add_standard_descriptions. cbn [segments_dict with_segments].
    rewrite enrich_keys, Hk. apply fold_add_key_nil.
  - destruct (extract_vda4932_format_keys doc e0 T0) as (e1 & -> & _ & Hk).
    cbn [bind]. intros H. inversion H; subst.
    unfold add_standard_descriptions. cbn [segments_dict with_segments].
    rewrite enrich_keys, Hk. apply fold_add_key_nil.
Qed.

(** C4, as amended: every extraction succeeds; the list [extract_all]
    returns holds the segments in the order of the first occurrence of
    their header in the document, each mnemonic once; the array
    [save_to_json] writes holds the same mnemonics in strictly ascending
    order. *)
Theorem segments_sorted_when_saved doc :
  exists self segments,
    extract_all doc init = Some (self, segments)
    /\ segments = dict_values (segments_dict self)
    /\ map segment segments = first_occurrences (document_headers doc)
    /\ NoDup (map segment segments)
    /\ exists out,
         save_to_json self = Some out
         /\ StronglySorted lt_str (map j_segment out)
         /\ Permutation (map j_segment out) (map segment segments).
Proof.
  destruct (extract_all_total doc) as (self & He & T).
  exists self, (dict_values (segments_dict self)).
  split; [exact He|]. split; [reflexivity|].
  rewrite (values_names _ (tree_names T)).
  split; [exact (extract_all_keys _ _ _ He)|].
  split; [exact (tree_keys T)|].
  destruct (save_to_json_total self T) as (out & Ho & Hm).
  exists out. split; [exact Ho|]. rewrite Hm. split.
  - apply sorted_strict. exact (tree_keys T).
  - apply sorted_perm.
Qed.

(** ** The usage sentinel of the VDA tables *)





(** ** [process_pdf] *)

Lemma replace_underscore stem :
  replace_char "-" (L "_") (replace_char " " (L "_") stem) = map underscore stem.
Proof.
  change (L "_") with ["_"%char]. unfold replace_char.
  induction stem as [|c stem IH]; simpl; [reflexivity|].
  unfold underscore at 1. destruct (ascii_dec c " ") as [->|Hs]; simpl.
  - now rewrite IH.
  - destruct (ascii_dec c "-"); simpl; now rewrite IH.
Qed.

Lemma Forall2_get {V} (d : dict V) (dflt : V) ks vs :
  Forall2 (fun k v => dict_get d k = Some v) ks vs ->
  vs = map (fun k => match dict_get d k with Some v => v | None => dflt end) ks.
Proof.
  induction 1 as [|k v ks vs Hk F IH]; simpl; [reflexivity|].
  now rewrite Hk, <- IH.
Qed.

Lemma values_get {V} (d : dict V) (dflt : V) :
  NoDup (dict_keys d) ->
  dict_values d
  = map (fun k => match dict_get d k with Some v => v | None => dflt end)
      (dict_keys d).
Proof.
  intros N. unfold dict_values, dict_keys. rewrite map_map.
  apply map_ext_in. intros [k v] Hin. simpl.
  now rewrite (In_dict_get _ _ _ N Hin).
Qed.

(** What is written: the dump of every segment of the map, once, the
    segments being taken in ascending order of mnemonic. *)
Lemma save_to_json_content e :
  tree e ->
  exists out segs,
    save_to_json e = Some out
    /\ Permutation segs (dict_values (segments_dict e))
    /\ StronglySorted lt_str (map segment segs)
    /\ Forall2 (fun s j => dump_segment (heap e) s = Some j) segs out.
Proof.
  intros T. unfold save_to_json.
  destruct (all_some_map (dict_get (segments_dict e))
              (sorted (dict_keys (segments_dict e)))) as (segs & -> & F1).
  { intros k Hk. apply (Permutation_in _ (sorted_perm _)) in Hk.
    destruct (dict_get (segments_dict e) k) eqn:E; [now eexists|].
    apply dict_get_None in E. contradiction. }
  cbn [bind].
  destruct (all_some_map (dump_segment (heap e)) segs) as (out & -> & F2).
  { intros s Hs.
    destruct (Forall2_In_r _ _ _ _ F1 Hs) as (k & _ & Hk).
    apply dict_get_In in Hk.
    destruct (dump_segment_total e k s T Hk) as (j & Hj & _). now exists j. }
  exists out, segs. split; [reflexivity|]. split; [|split; [|exact F2]].
  - rewrite (Forall2_get _ (Segment [] [] []) _ _ F1).
    rewrite (values_get _ (Segment [] [] []) (tree_keys T)).
    apply Permutation_map, sorted_perm.
  - replace (map segment segs) with (sorted (dict_keys (segments_dict e))).
    + apply sorted_strict. exact (tree_keys T).
    + rewrite <- (map_id (sorted _)).
      apply (Forall2_map_eq (fun k => k) segment).
      eapply Forall2_impl; [|exact F1]. intros k s Hk. simpl.
      apply dict_get_In in Hk. symmetry. now apply (tree_names T).
Qed.

(** X12: on a document that can be read [process_pdf] raises nothing and
    writes at most one file.  It writes none when the extraction finds no
    segment.  Otherwise it writes one file: its name is [export/], the
    stem of the input where each space and each hyphen is replaced by an
    underscore and the other characters are kept, and [.json]; its
    content is the dump of every segment returned by the extraction, each
    once, the segments being taken in strictly ascending order of
    mnemonic. *)
Theorem process_pdf_writes stem doc :
  exists self segments,
    extract_all doc init = Some (self, segments)
    /\ ((segments = [] /\ process_pdf stem doc = Some [])
        \/ (segments <> []
            /\ exists content sorted_segments,
                 process_pdf stem doc
                 = Some [(L "export/" ++ map underscore stem ++ L ".json",
                          content)]
                 /\ Permutation sorted_segments segments
                 /\ StronglySorted lt_str (map segment sorted_segments)
                 /\ Forall2
                      (fun s j => dump_segment (heap self) s = Some j)
                      sorted_segments content)).
Proof.
  destruct (extract_all_total doc) as (self & E & T).
  exists self, (dict_values (segments_dict self)). split; [exact E|].
  unfold process_pdf. rewrite E. cbn [bind].
  destruct (dict_values (segments_dict self)) as [|s0 segs] eqn:Ev.
  - left. split; reflexivity.
  - right. split; [discriminate|]. cbn [nonempty].
    destruct (save_to_json_content self T) as (out & ss & -> & Hp & Hs & F).
    cbn [bind]. exists out, ss. rewrite replace_underscore.
    split; [reflexivity|]. rewrite <- Ev. auto.
Qed.

(** ** The codes after an extraction *)

(** X13: the codes of the map have the shape of their kind.  From a tree
    whose codes have it, the extraction raises nothing and ends in a tree
    where every key, and the mnemonic of every segment, is three capital
    letters [A] to [Z], the code of every element is four characters of
    the class [\d], and the code of every group is [S] or [C] followed by
    three characters of the class [\d].  The documents are those of the
    model, whose characters are the code points below 256: there the
    class [\d] is [0] to [9]. *)
Theorem extraction_keeps_schema doc self :
  tree self -> schema self ->
  exists self',
    extract_all doc self = Some (self', dict_values (segments_dict self'))
    /\ tree self' /\ schema self'
    /\ forall s, In s (dict_values (segments_dict self')) ->
         is_mnemonic (segment s).
Proof.
  intros T S. unfold extract_all.
  set (e0 := Extractor (segments_dict self) (Some (detect_pdf_format doc))
               (heap self)).
  assert (T0 : tree e0) by (destruct self; now apply tree_with_format).
  assert (S0 : schema e0) by exact S.
  assert (H : exists self',
    match detect_pdf_format doc with
    | vda4932 => extract_vda4932_format doc e0
    | faurecia => extract_faurecia_format doc e0
    end = Some self' /\ updates schema_label e0 self').
  { destruct (detect_pdf_format doc);
      [now apply extract_faurecia_format_updates
      | now apply extract_vda4932_format_updates]. }
  destruct H as (e1 & -> & U). cbn [bind].
  pose proof (updates_tree _ _ _ T0 U) as T1.
  pose proof (updates_schema _ _ S0 U) as S1.
  pose proof (add_standard_descriptions_tree _ T1) as T2.
  assert (S2 : schema (add_standard_descriptions e1)).
  { destruct S1 as [Sk Sh]. split.
    - unfold add_standard_descriptions. cbn [segments_dict with_segments].
      rewrite enrich_keys. exact Sk.
    - exact Sh. }
  eexists. split; [reflexivity|]. split; [exact T2|]. split; [exact S2|].
  intros s Hs. unfold dict_values in Hs. apply in_map_iff in Hs.
  destruct Hs as ([k s'] & <- & Hin). cbn [snd].
  rewrite (tree_names T2 _ _ Hin). apply (proj1 S2).
  unfold dict_keys. apply in_map_iff. now exists (k, s').
Qed.

Lemma extraction_keeps_schema_witness :
  tree nad_bgm /\ schema nad_bgm
  /\ exists self',
       extract_all vda_document nad_bgm
       = Some (self', dict_values (segments_dict self'))
       /\ tree self' /\ schema self'
       /\ (forall s, In s (dict_values (segments_dict self')) ->
             is_mnemonic (segment s))
       /\ dict_keys (segments_dict self') = [L "NAD"; L "BGM"]
       /\ heap self'
          = [OGroup "C082" "Party identification details" [1; 2];
             OElement "3039" "Party id. identification" "an..35" "" "";
             OElement "3035" "Party qualifier" "an..3" "MI"
               "'MI' = Planning authority"].
Proof.
  split; [exact nad_bgm_tree|]. split; [exact nad_bgm_schema|].
  destruct (extraction_keeps_schema vda_document nad_bgm
              nad_bgm_tree nad_bgm_schema) as (self' & E & T & S & M).
  exists self'. split; [exact E|]. split; [exact T|]. split; [exact S|].
  split; [exact M|].
  assert (E' : option_map fst (extract_all vda_document nad_bgm) = Some self')
    by now rewrite E.
  vm_compute in E'. inversion E'. split; reflexivity.
Defined.
